(** * Patient flow prioritisation engine of clinic-queue

    A shallow embedding of the triage scorer ([utils/triage.ts]), the
    appointment conflict detection and slot search ([models/Appointment.ts],
    [services/appointment.service.ts]) and the queue coordinator
    ([models/Queue.ts], [services/queue.service.ts]), with the properties
    the specification states about them.  The wait-time estimate and the
    vitals check of [utils/triage.ts], the time windows and the date-range
    query of the appointment model, the creation and the paging of
    appointments and the views of the queue are embedded as well, with
    further properties that the code shows.

    Conventions.  A JavaScript [Date] is its number of milliseconds since
    the epoch, a [Z].  Vital signs are rationals ([Q]): every finite
    IEEE double is a rational and the scorer only compares them with
    constants.  A MongoDB collection is the list of its documents in
    insertion order; [_id] is a natural number.  A JavaScript string is
    the sequence of its UTF-16 code units; a [string] holds the strings
    whose code units are below 256, one code unit per character, so the
    [length] of the source is [String.length].  The setters and
    validators of the schema of a queue entry are part of the model
    ([trim] and [maxlength] of [assignedRoom] and [notes], [min] of
    [position], [estimatedWaitTime] and [actualWaitTime], the validator of
    [doctor]), run where the source runs them: by [save] on the whole
    document, by an update with [runValidators] on the paths it sets, by
    an update without it not at all.  The visit and the patient that a
    queue entry refers to exist.  The free-text fields of an appointment
    and their validators are not part of the model. *)

From Stdlib Require Import ZArith QArith Qabs Lqa Lia Ascii String.
From stdpp Require Import base decidable option list sets sorting strings.

(** The triage level of a visit and the priority of a queue entry are
    the same three string literals in the source. *)
Inductive Level := high | medium | low.

Global Instance Level_eq_dec : EqDecision Level.
Proof. solve_decision. Defined.

(** The string stored in the database for a level. *)
Definition Level_str (l : Level) : string :=
  match l with
  | high => "high"
  | medium => "medium"
  | low => "low"
  end.

(** The outcome of a call that may throw: the value returned, or the error
    thrown. *)
Inductive Outcome (E A : Type) :=
  | Returns (a : A)
  | Throws (e : E).
Arguments Returns {E A} a.
Arguments Throws {E A} e.

(* ===================================================================== *)
(** * utils/triage.ts *)
(* ===================================================================== *)
Module Triage.

Local Open Scope Q_scope.

Record TriageInput := mkTriageInput {
  temperature : Q;
  heartRate : Q;
  bloodPressureSystolic : Q;
  bloodPressureDiastolic : Q;
  painLevel : Q;
  symptoms : string
}.

(** The entries of [factors].  The source pushes a template string that
    interpolates the vital; the constructor keeps which template it was and
    the interpolated values. *)
Inductive Factor :=
  | CriticalTemperature (t : Q)
  | ElevatedTemperature (t : Q)
  | MildTemperatureAbnormality (t : Q)
  | CriticalHeartRate (h : Q)
  | ElevatedHeartRate (h : Q)
  | MildHeartRateAbnormality (h : Q)
  | CriticalBloodPressure (s d : Q)
  | ElevatedBloodPressure (s d : Q)
  | MildBloodPressureAbnormality (s d : Q)
  | SeverePainLevel (p : Q)
  | ModeratePainLevel (p : Q)
  | MildPainLevel (p : Q)
  | CriticalSymptomsDetected
  | SeriousSymptomsDetected.

Record TriageResult := mkTriageResult {
  score : Z;
  level : Level;
  factors : list Factor
}.

(** ** TRIAGE_RULES *)

Record Band := mkBand { range : Q * Q; points : Z }.
Record Tier := mkTier { threshold : Q; tier_points : Z }.
Record KeywordSet := mkKeywordSet { keywords : list string; keyword_points : Z }.

Module TRIAGE_RULES.
Module temperature.
Definition critical := mkBand (103, 95) 30.
Definition serious := mkBand (101.5, 96) 20.
Definition moderate := mkBand (100, 97) 10.
End temperature.
Module heartRate.
Definition critical := mkBand (120, 50) 25.
Definition serious := mkBand (110, 55) 15.
Definition moderate := mkBand (100, 60) 5.
End heartRate.
Module bloodPressure.
Definition systolicCritical : Z := 40.
Definition diastolicCritical : Z := 30.
Definition systolicSerious : Z := 25.
Definition diastolicSerious : Z := 20.
Definition systolicModerate : Z := 10.
Definition diastolicModerate : Z := 10.
End bloodPressure.
Module pain.
Definition severe := mkTier 8 20.
Definition moderate := mkTier 5 10.
Definition mild := mkTier 1 3.
End pain.
Module symptoms.
Definition critical := mkKeywordSet
  ["chest pain"; "difficulty breathing"; "severe bleeding";
   "unconscious"; "stroke"; "heart attack"]%string 40.
Definition serious := mkKeywordSet
  ["broken bone"; "severe injury"; "poisoning"; "shock"; "seizure";
   "allergic reaction"]%string 25.
End symptoms.
Module thresholds.
Definition high : Z := 60.
Definition medium : Z := 30.
End thresholds.
End TRIAGE_RULES.

(** ** JavaScript primitives used by the scorer *)

(** [a >= b] and [a <= b] on numbers. *)
Definition geq (a b : Q) : bool := Qle_bool b a.
Definition leq (a b : Q) : bool := Qle_bool a b.

(** [Math.abs]. *)
Definition Math_abs (x : Q) : Q := Qabs x.

(** [String.prototype.toLowerCase].  Of the code units below 256 the
    upper-case letters are A-Z (65-90) and the Latin-1 letters 192-222
    without the multiplication sign 215; each has its lower-case letter 32
    further on. *)
Definition lower_ascii (c : ascii) : ascii :=
  let n := nat_of_ascii c in
  if (65 <=? n)%nat && (n <=? 90)%nat
     || (192 <=? n)%nat && (n <=? 222)%nat && negb (n =? 215)%nat
  then ascii_of_nat (n + 32) else c.

Fixpoint toLowerCase (s : string) : string :=
  match s with
  | EmptyString => EmptyString
  | String c s' => String (lower_ascii c) (toLowerCase s')
  end.

(** [String.prototype.includes]: [sub] occurs in [s] as a substring. *)
Fixpoint includes (s sub : string) : bool :=
  String.prefix sub s ||
  match s with
  | EmptyString => false
  | String _ s' => includes s' sub
  end.

(** [Array.prototype.some]. *)
Definition some {A} (p : A -> bool) (l : list A) : bool := existsb p l.

(** ** calculateTriageScore

    The running [score] and [factors] of the source are a pair that
    each block of the function transforms. *)
Definition Acc : Type := Z * list Factor.

Definition add (acc : Acc) (pts : Z) (f : Factor) : Acc :=
  (fst acc + pts, snd acc ++ [f])%Z.

Definition in_band (b : Band) (v : Q) : bool :=
  geq v (fst (range b)) || leq v (snd (range b)).

Definition scoreTemperature (input : TriageInput) (acc : Acc) : Acc :=
  let t := temperature input in
  if in_band TRIAGE_RULES.temperature.critical t then
    add acc (points TRIAGE_RULES.temperature.critical) (CriticalTemperature t)
  else if in_band TRIAGE_RULES.temperature.serious t then
    add acc (points TRIAGE_RULES.temperature.serious) (ElevatedTemperature t)
  else if in_band TRIAGE_RULES.temperature.moderate t then
    add acc (points TRIAGE_RULES.temperature.moderate)
      (MildTemperatureAbnormality t)
  else acc.

Definition scoreHeartRate (input : TriageInput) (acc : Acc) : Acc :=
  let h := heartRate input in
  if in_band TRIAGE_RULES.heartRate.critical h then
    add acc (points TRIAGE_RULES.heartRate.critical) (CriticalHeartRate h)
  else if in_band TRIAGE_RULES.heartRate.serious h then
    add acc (points TRIAGE_RULES.heartRate.serious) (ElevatedHeartRate h)
  else if in_band TRIAGE_RULES.heartRate.moderate h then
    add acc (points TRIAGE_RULES.heartRate.moderate)
      (MildHeartRateAbnormality h)
  else acc.

Definition scoreBloodPressure (input : TriageInput) (acc : Acc) : Acc :=
  let s := bloodPressureSystolic input in
  let d := bloodPressureDiastolic input in
  let systolicDelta := Math_abs (s - 120) in
  let diastolicDelta := Math_abs (d - 80) in
  if geq systolicDelta (inject_Z TRIAGE_RULES.bloodPressure.systolicCritical)
     || geq diastolicDelta
          (inject_Z TRIAGE_RULES.bloodPressure.diastolicCritical) then
    add acc TRIAGE_RULES.bloodPressure.systolicCritical
      (CriticalBloodPressure s d)
  else if geq systolicDelta
            (inject_Z TRIAGE_RULES.bloodPressure.systolicSerious)
          || geq diastolicDelta
               (inject_Z TRIAGE_RULES.bloodPressure.diastolicSerious) then
    add acc TRIAGE_RULES.bloodPressure.systolicSerious
      (ElevatedBloodPressure s d)
  else if geq systolicDelta
            (inject_Z TRIAGE_RULES.bloodPressure.systolicModerate)
          || geq diastolicDelta
               (inject_Z TRIAGE_RULES.bloodPressure.diastolicModerate) then
    add acc TRIAGE_RULES.bloodPressure.systolicModerate
      (MildBloodPressureAbnormality s d)
  else acc.

Definition scorePain (input : TriageInput) (acc : Acc) : Acc :=
  let p := painLevel input in
  if geq p (threshold TRIAGE_RULES.pain.severe) then
    add acc (tier_points TRIAGE_RULES.pain.severe) (SeverePainLevel p)
  else if geq p (threshold TRIAGE_RULES.pain.moderate) then
    add acc (tier_points TRIAGE_RULES.pain.moderate) (ModeratePainLevel p)
  else if geq p (threshold TRIAGE_RULES.pain.mild) then
    add acc (tier_points TRIAGE_RULES.pain.mild) (MildPainLevel p)
  else acc.

Definition hasSymptom (ks : KeywordSet) (lowerSymptoms : string) : bool :=
  some (fun keyword => includes lowerSymptoms (toLowerCase keyword))
       (keywords ks).

Definition scoreSymptoms (input : TriageInput) (acc : Acc) : Acc :=
  let lowerSymptoms := toLowerCase (symptoms input) in
  let hasCriticalSymptom :=
    hasSymptom TRIAGE_RULES.symptoms.critical lowerSymptoms in
  if hasCriticalSymptom then
    add acc (keyword_points TRIAGE_RULES.symptoms.critical)
      CriticalSymptomsDetected
  else
    let hasSeriousSymptom :=
      hasSymptom TRIAGE_RULES.symptoms.serious lowerSymptoms in
    if hasSeriousSymptom then
      add acc (keyword_points TRIAGE_RULES.symptoms.serious)
        SeriousSymptomsDetected
    else acc.

(** [Math.round] on a value that is already an integer. *)
Definition Math_round (z : Z) : Z := z.

Definition calculateTriageScore (input : TriageInput) : TriageResult :=
  let acc : Acc := (0%Z, []) in
  let acc := scoreTemperature input acc in
  let acc := scoreHeartRate input acc in
  let acc := scoreBloodPressure input acc in
  let acc := scorePain input acc in
  let acc := scoreSymptoms input acc in
  let score := fst acc in
  let level :=
    if (TRIAGE_RULES.thresholds.high <=? score)%Z then high
    else if (TRIAGE_RULES.thresholds.medium <=? score)%Z then medium
    else low in
  mkTriageResult (Math_round score) level (snd acc).

(** ** Notions used to state the properties of the scorer *)

(** The points one block of the scorer contributes. *)
Definition pointsOf (step : TriageInput → Acc → Acc) (input : TriageInput)
    : Z :=
  fst (step input (0%Z, [])).

(** [v'] is [v], or lies beyond [v] on the same side of the normal range
    [lo..hi], or [v] is strictly inside the normal range. *)
Definition away (lo hi v v' : Q) : Prop :=
  v' == v ∨ (hi <= v ∧ v <= v') ∨ (v' <= v ∧ v <= lo) ∨ (lo < v ∧ v < hi).

(** Two inputs that differ in temperature only: 1.4 degrees above normal
    and 1.5 degrees below. *)
Definition feverish : TriageInput := mkTriageInput 100 72 120 80 0 "".
Definition chilled : TriageInput := mkTriageInput 97.1 72 120 80 0 "".

(** Two inputs whose vitals all move away from normal. *)
Definition unwell : TriageInput :=
  mkTriageInput 100.5 104 135 88 4 "seizure".
Definition worse : TriageInput :=
  mkTriageInput 102 125 150 105 8 "seizure".

(** ** calculateEstimatedWaitTime *)

Inductive WaitTimeError :=
  | NumberAheadNegative
  | ConsultTimeNotPositive.

(** [a < b] on numbers. *)
Definition lt (a b : Q) : bool := negb (Qle_bool b a).

(** [a > b] on numbers. *)
Definition gt (a b : Q) : bool := negb (Qle_bool a b).

(** [Math.max] of two numbers. *)
Definition Math_max (a b : Q) : Q := if Qle_bool a b then b else a.

(** [avgConsultTimeMinutes] has the default value 15 when the caller
    leaves it out.  The product is the exact one.  The source multiplies
    two doubles, which gives the exact product rounded: the two agree when
    the arguments are integers and the arguments and the product are safe
    integers ([isSafeInteger]), the case of a count of patients and a
    number of minutes, and the properties of the estimate are stated for
    that case. *)
Definition calculateEstimatedWaitTime (numberAhead : Q)
    (avgConsultTimeMinutes : option Q) : Outcome WaitTimeError Q :=
  let avgConsultTimeMinutes := default 15 avgConsultTimeMinutes in
  if lt numberAhead 0 then Throws NumberAheadNegative
  else if leq avgConsultTimeMinutes 0 then Throws ConsultTimeNotPositive
  else
    let waitTime := numberAhead * avgConsultTimeMinutes in
    let adjustedWaitTime := Math_max waitTime avgConsultTimeMinutes in
    Returns adjustedWaitTime.

(** ** validateVitals *)

Record Vitals := mkVitals {
  v_temperature : Q;
  v_heartRate : Q;
  v_bloodPressureSystolic : Q;
  v_bloodPressureDiastolic : Q;
  v_painLevel : Q
}.

(** The entries of [warnings], one constructor per template string. *)
Inductive Warning :=
  | TemperatureOutsideRange (t : Q)
  | HeartRateOutsideRange (h : Q)
  | SystolicOutsideRange (s : Q)
  | DiastolicOutsideRange (d : Q)
  | PainLevelOutsideRange (p : Q).

Record VitalsValidation := mkVitalsValidation {
  isValid : bool;
  warnings : list Warning
}.

(** [if (v < lo || v > hi) { warnings.push(w) }] *)
Definition warnUnless (lo hi v : Q) (w : Warning) (warnings : list Warning)
    : list Warning :=
  if lt v lo || gt v hi then warnings ++ [w] else warnings.

Definition validateVitals (vitals : Vitals) : VitalsValidation :=
  let warnings : list Warning := [] in
  let warnings :=
    warnUnless 90 110 (v_temperature vitals)
      (TemperatureOutsideRange (v_temperature vitals)) warnings in
  let warnings :=
    warnUnless 30 200 (v_heartRate vitals)
      (HeartRateOutsideRange (v_heartRate vitals)) warnings in
  let warnings :=
    warnUnless 70 250 (v_bloodPressureSystolic vitals)
      (SystolicOutsideRange (v_bloodPressureSystolic vitals)) warnings in
  let warnings :=
    warnUnless 40 150 (v_bloodPressureDiastolic vitals)
      (DiastolicOutsideRange (v_bloodPressureDiastolic vitals)) warnings in
  let warnings :=
    warnUnless 0 10 (v_painLevel vitals)
      (PainLevelOutsideRange (v_painLevel vitals)) warnings in
  mkVitalsValidation (bool_decide (length warnings = 0%nat)) warnings.

(** The object of vitals that [processCheckIn] builds from the check-in
    data, for [validateVitals] and for [calculateTriageScore]. *)
Definition vitalsOf (input : TriageInput) : Vitals :=
  mkVitals (temperature input) (heartRate input)
    (bloodPressureSystolic input) (bloodPressureDiastolic input)
    (painLevel input).

(** ** Further notions used to state properties of the scorer *)

(** [Number.isSafeInteger] of an integer: a double holds it exactly. *)
Definition isSafeInteger (z : Z) : Prop := (Z.abs z <= 2 ^ 53 - 1)%Z.

(** The vital is inside the closed range [lo..hi]. *)
Definition within (lo hi v : Q) : Prop := lo <= v ∧ v <= hi.

(** The symptom text contains one of the keywords of the set, letter case
    aside. *)
Definition mentions (ks : KeywordSet) (text : string) : bool :=
  hasSymptom ks (toLowerCase text).

(** An input with a different symptom text. *)
Definition withSymptoms (input : TriageInput) (text : string) : TriageInput :=
  mkTriageInput (temperature input) (heartRate input)
    (bloodPressureSystolic input) (bloodPressureDiastolic input)
    (painLevel input) text.

End Triage.


(* ===================================================================== *)
(** * models/Appointment.ts and services/appointment.service.ts *)
(* ===================================================================== *)
Module Appointment.

Local Open Scope Z_scope.

Inductive Status :=
  | scheduled | confirmed | checked_in | in_progress
  | completed | cancelled | no_show.

Global Instance Status_eq_dec : EqDecision Status.
Proof. solve_decision. Defined.

(** The fields of [IAppointment] that scheduling reads.  [scheduledTime]
    is in milliseconds, [duration] in minutes. *)
Record IAppointment := mkAppointment {
  _id : nat;
  patient : nat;
  doctor : nat;
  scheduledTime : Z;
  duration : Z;
  status : Status
}.

Global Instance IAppointment_eq_dec : EqDecision IAppointment.
Proof. solve_decision. Defined.

(** ** AppointmentSchema.statics.findConflictingAppointments *)

(** [$add: ['$scheduledTime', { $multiply: ['$duration', 60000] }]] *)
Definition endOf (a : IAppointment) : Z :=
  scheduledTime a + duration a * 60000.

(** The query document handed to [this.find]. *)
Definition conflictQuery (doctorId : nat) (start end_ : Z)
    (a : IAppointment) : Prop :=
  doctor a = doctorId ∧
  status a ∈ [scheduled; confirmed; checked_in; in_progress] ∧
  ((start ≤ scheduledTime a ∧ scheduledTime a < end_) ∨
   (endOf a < end_ ∧ endOf a > start)).

Global Instance conflictQuery_dec doctorId start end_ a :
  Decision (conflictQuery doctorId start end_ a).
Proof. unfold conflictQuery. apply _. Defined.

(** The static declares three parameters. *)
Definition findConflictingAppointments (db : list IAppointment)
    (doctorId : nat) (start : Z) (duration : Z) : list IAppointment :=
  let end_ := start + duration * 60000 in
  filter (conflictQuery doctorId start end_) db.

(** ** AppointmentService *)

Record AvailabilityCheck := mkAvailabilityCheck {
  available : bool;
  conflicts : list IAppointment;
  suggestedTimes : list Z
}.

(** Local calendar arithmetic of [Date]: [tz] is the offset of local time
    from UTC in milliseconds, taken constant over the three days searched. *)
Definition MS_PER_MINUTE : Z := 60000.
Definition MS_PER_HOUR : Z := 3600000.
Definition MS_PER_DAY : Z := 86400000.

Definition localMidnight (tz t : Z) : Z :=
  (t + tz) `div` MS_PER_DAY * MS_PER_DAY - tz.

(** [slotTime.setDate(slotTime.getDate() + dayOffset);
     slotTime.setHours(hour, minute, 0, 0)] on a copy of [baseTime]. *)
Definition slotAt (tz baseTime dayOffset hour minute : Z) : Z :=
  localMidnight tz baseTime + dayOffset * MS_PER_DAY
  + hour * MS_PER_HOUR + minute * MS_PER_MINUTE.

(** The values the three nested [for] loops give to
    [(dayOffset, hour, minute)], in iteration order. *)
Definition loopIndices : list (Z * Z * Z) :=
  dayOffset ← [0; 1; 2];
  hour ← [9; 10; 11; 12; 13; 14; 15; 16];
  minute ← [0; 30];
  [(dayOffset, hour, minute)].

Definition candidateSlots (tz baseTime : Z) : list Z :=
  (λ '(dayOffset, hour, minute), slotAt tz baseTime dayOffset hour minute)
    <$> loopIndices.

(** The service reads the clock ([new Date()]) once per candidate and
    calls itself through [checkDoctorAvailability].  A computation takes
    the number of clock reads made so far and gives back its result with
    the new count; [None] is a call chain deeper than the fuel. *)
Definition M (A : Type) : Type := nat → option (A * nat).

Global Instance M_ret : MRet M := λ A a n, Some (a, n).
Global Instance M_bind : MBind M := λ A B f m n,
  match m n with
  | Some (a, n') => f a n'
  | None => None
  end.

Definition newDate (clock : nat → Z) : M Z := λ n, Some (clock n, S n).
Definition outOfFuel {A} : M A := λ _, None.

Section Service.
Variable tz : Z.
Variable clock : nat → Z.
Variable db : list IAppointment.

(** The body of the innermost loop of [findNextAvailableSlots], over the
    candidates that remain; [check] is the call
    [this.checkDoctorAvailability(doctorId, slotTime, duration)]. *)
Fixpoint slotLoop (check : Z → M AvailabilityCheck) (slots : list Z)
    (suggestedTimes : list Z) : M (list Z) :=
  match slots with
  | [] => mret suggestedTimes
  | slotTime :: slots' =>
      now ← newDate clock;
      if decide (slotTime ≤ now) then slotLoop check slots' suggestedTimes
      else
        availability ← check slotTime;
        if available availability then
          let suggestedTimes := suggestedTimes ++ [slotTime] in
          if decide (3 ≤ length suggestedTimes)%nat then mret suggestedTimes
          else slotLoop check slots' suggestedTimes
        else slotLoop check slots' suggestedTimes
  end.

(** [findConflictingAppointments] is called with [excludeAppointmentId]
    as a fourth argument, which a function of three parameters drops. *)
Fixpoint checkDoctorAvailability (fuel : nat) (doctorId : nat)
    (startTime duration : Z) (excludeAppointmentId : option nat)
    : M AvailabilityCheck :=
  match fuel with
  | O => outOfFuel
  | S fuel' =>
      let conflicts :=
        findConflictingAppointments db doctorId startTime duration in
      let isAvailable := bool_decide (length conflicts = 0%nat) in
      suggestedTimes ←
        (if isAvailable then mret []
         else
           (* this.findNextAvailableSlots(doctorId, startTime, duration) *)
           slotLoop
             (λ slotTime,
                checkDoctorAvailability fuel' doctorId slotTime duration None)
             (candidateSlots tz startTime) []);
      mret (mkAvailabilityCheck isAvailable conflicts suggestedTimes)
  end.

Definition findNextAvailableSlots (fuel : nat) (doctorId : nat)
    (preferredTime duration : Z) : M (list Z) :=
  let baseTime := preferredTime in
  slotLoop
    (λ slotTime, checkDoctorAvailability fuel doctorId slotTime duration None)
    (candidateSlots tz baseTime) [].
End Service.

(** ** Notions used to state the properties of the scheduler *)

(** The overlap of [[s1, s1+d1)] and [[s2, s2+d2)] in the words of the
    specification, starts in milliseconds and durations in minutes. *)
Definition overlaps (s1 d1 s2 d2 : Z) : Prop :=
  s1 < s2 + d2 * 60000 ∧ s2 < s1 + d1 * 60000.

Definition active (s : Status) : Prop :=
  s ∈ [scheduled; confirmed; checked_in; in_progress].

(** A time of day on the first day of the epoch, in UTC. *)
Definition at_ (hour minute : Z) : Z :=
  hour * MS_PER_HOUR + minute * MS_PER_MINUTE.

(** Doctor 5 is booked 10:00-10:30. *)
Definition tenToHalfPast : IAppointment :=
  mkAppointment 1 7 5 (at_ 10 0) 30 scheduled.

(** Doctor 5 is booked 10:00-11:00 and, inside that hour, 10:15-10:45. *)
Definition tenToEleven : IAppointment :=
  mkAppointment 1 7 5 (at_ 10 0) 60 scheduled.
Definition quarterPastTen : IAppointment :=
  mkAppointment 2 8 5 (at_ 10 15) 30 confirmed.

(** Doctor 5 is booked 11:00-11:30. *)
Definition elevenToHalfPast : IAppointment :=
  mkAppointment 3 7 5 (at_ 11 0) 30 scheduled.

(** The offset of a candidate from local midnight of the preferred date. *)
Definition slotOffset (i : Z * Z * Z) : Z :=
  i.1.1 * MS_PER_DAY + i.1.2 * MS_PER_HOUR + i.2 * MS_PER_MINUTE.

(** A clock that stands still. *)
Definition frozenAt (t : Z) : nat → Z := λ _, t.

(** ** Virtuals and instance methods of AppointmentSchema

    [setMinutes] and [setHours] move the date by whole minutes and hours of
    local time; with a constant offset from UTC that is the same number of
    milliseconds.  The clock reading [new Date()] is [now]. *)

Definition endTime (a : IAppointment) : Z :=
  scheduledTime a + duration a * MS_PER_MINUTE.

Definition isUpcoming (now : Z) (a : IAppointment) : bool :=
  let oneHourFromNow := now + 60 * 60 * 1000 in
  bool_decide (scheduledTime a > now ∧ scheduledTime a ≤ oneHourFromNow).

Definition isOverdue (now : Z) (a : IAppointment) : bool :=
  bool_decide (scheduledTime a < now ∧ status a ∈ [scheduled; confirmed]).

Definition canBeCancelled (now : Z) (a : IAppointment) : bool :=
  let deadline := scheduledTime a - 2 * MS_PER_HOUR in
  bool_decide (now < deadline ∧ status a ∈ [scheduled; confirmed]).

Definition canBeRescheduled (now : Z) (a : IAppointment) : bool :=
  let deadline := scheduledTime a - 1 * MS_PER_HOUR in
  bool_decide (now < deadline ∧ status a ∈ [scheduled; confirmed]).

(** ** AppointmentSchema.statics.findByDoctorAndDateRange *)

Definition rangeQuery (doctorId : nat) (start end_ : Z) (a : IAppointment)
    : Prop :=
  doctor a = doctorId ∧
  (scheduledTime a >= start ∧ scheduledTime a ≤ end_) ∧
  status a ∈ [scheduled; confirmed; checked_in; in_progress].

Global Instance rangeQuery_dec doctorId start end_ a :
  Decision (rangeQuery doctorId start end_ a).
Proof. unfold rangeQuery. apply _. Defined.

(** [sort({ scheduledTime: 1 })] *)
Definition byScheduledTime (a b : IAppointment) : Prop :=
  scheduledTime a ≤ scheduledTime b.

Global Instance byScheduledTime_dec a b : Decision (byScheduledTime a b).
Proof. unfold byScheduledTime. apply _. Defined.

Definition findByDoctorAndDateRange (db : list IAppointment)
    (doctorId : nat) (start end_ : Z) : list IAppointment :=
  merge_sort byScheduledTime (filter (rangeQuery doctorId start end_) db).

(** ** controllers/appointments.controller.ts: checkAvailability

    The handler answers from the conflict query alone; [startTime] and
    [duration] are taken as already parsed. *)
Record AvailabilityData := mkAvailabilityData {
  data_available : bool;
  data_conflicts : list IAppointment
}.

Definition checkAvailability (db : list IAppointment) (doctorId : nat)
    (startDateTime durationNum : Z) : AvailabilityData :=
  let conflictingAppointments :=
    findConflictingAppointments db doctorId startDateTime durationNum in
  let isAvailable := bool_decide (length conflictingAppointments = 0%nat) in
  mkAvailabilityData isAvailable
    (if isAvailable then [] else conflictingAppointments).

(** ** Further notions used to state properties of the scheduler *)

(** [Date.prototype.getHours] and [getMinutes]: the hour and the minute of
    the local time of day. *)
Definition getHours (tz t : Z) : Z :=
  ((t + tz) `mod` MS_PER_DAY) `div` MS_PER_HOUR.

Definition getMinutes (tz t : Z) : Z :=
  ((t + tz) `mod` MS_PER_HOUR) `div` MS_PER_MINUTE.

(** No two different active appointments of one doctor overlap. *)
Definition overlapFree (db : list IAppointment) : Prop :=
  ∀ i j a b,
    db !! i = Some a → db !! j = Some b → i ≠ j →
    doctor a = doctor b → active (status a) → active (status b) →
    ¬ overlaps (scheduledTime a) (duration a) (scheduledTime b) (duration b).

End Appointment.

(* ===================================================================== *)
(** * models/Queue.ts and services/queue.service.ts *)
(* ===================================================================== *)
Module Queue.

Inductive Status := waiting | in_progress | completed | cancelled.

Global Instance Status_eq_dec : EqDecision Status.
Proof. solve_decision. Defined.

Record IQueue := mkQueue {
  _id : nat;
  visit : nat;
  patient : nat;
  doctor : option nat;
  position : nat;
  status : Status;
  priority : Level;
  checkInTime : Z;
  calledTime : option Z;
  consultationStartTime : option Z;
  consultationEndTime : option Z;
  estimatedWaitTime : Z;
  actualWaitTime : option Z;
  assignedRoom : option string;
  notes : option string
}.

(** The fields of a [Staff] document that the queue service queries. *)
Inductive Role := admin | doctor_role | nurse | receptionist.

Global Instance Role_eq_dec : EqDecision Role.
Proof. solve_decision. Defined.

Record IStaff := mkStaff {
  staff_id : nat;
  role : Role;
  isActive : bool
}.

(** ** Mongoose primitives *)

(** An update document: the paths it sets.  A path that is absent
    ([None]) keeps its stored value. *)
Record Update := mkUpdate {
  set_status : option Status;
  set_doctor : option nat;
  set_position : option nat;
  set_calledTime : option Z;
  set_consultationStartTime : option Z;
  set_consultationEndTime : option Z;
  set_assignedRoom : option string;
  set_notes : option string
}.

Definition keep {A} (new : option A) (old : option A) : option A :=
  match new with
  | Some v => Some v
  | None => old
  end.

(** [String.prototype.trim]: the white space and the line terminators
    among the code units below 256 are 9-13, 32 and 160. *)
Definition isWhiteSpace (c : ascii) : bool :=
  let n := nat_of_ascii c in
  (9 <=? n) && (n <=? 13) || (n =? 32) || (n =? 160).

Fixpoint trimStart (s : string) : string :=
  match s with
  | EmptyString => EmptyString
  | String c s' => if isWhiteSpace c then trimStart s' else s
  end.

Fixpoint trimEnd (s : string) : string :=
  match s with
  | EmptyString => EmptyString
  | String c s' =>
      match trimEnd s' with
      | EmptyString => if isWhiteSpace c then EmptyString else String c ""
      | t => String c t
      end
  end.

Definition trim (s : string) : string := trimEnd (trimStart s).

(** A path set by an update or by an assignment goes through the setter of
    the schema: [assignedRoom] and [notes] are declared [trim: true]. *)
Definition applyUpdate (u : Update) (e : IQueue) : IQueue :=
  {| _id := _id e;
     visit := visit e;
     patient := patient e;
     doctor := keep (set_doctor u) (doctor e);
     position := default (position e) (set_position u);
     status := default (status e) (set_status u);
     priority := priority e;
     checkInTime := checkInTime e;
     calledTime := keep (set_calledTime u) (calledTime e);
     consultationStartTime :=
       keep (set_consultationStartTime u) (consultationStartTime e);
     consultationEndTime :=
       keep (set_consultationEndTime u) (consultationEndTime e);
     estimatedWaitTime := estimatedWaitTime e;
     actualWaitTime := actualWaitTime e;
     assignedRoom := keep (trim <$> set_assignedRoom u) (assignedRoom e);
     notes := keep (trim <$> set_notes u) (notes e) |}.

Definition findById (id : nat) (q : list IQueue) : option IQueue :=
  head (filter (λ e, _id e = id) q).

Definition findByIdAndUpdate (id : nat) (u : Update) (q : list IQueue)
    : list IQueue :=
  (λ e, if decide (_id e = id) then applyUpdate u e else e) <$> q.

(** [doc.save()] of a document that was read from the collection. *)
Definition save (d : IQueue) (q : list IQueue) : list IQueue :=
  (λ e, if decide (_id e = _id d) then d else e) <$> q.

(** The identifier given to a new document: one no stored document has. *)
Definition freshId (q : list IQueue) : nat := S (max_list (_id <$> q)).

(** *** Sort specifications

    MongoDB compares the values of a [String] path as strings; a sort key
    [-1] reverses the comparison, and later keys break the ties of earlier
    ones.  Where the keys leave a tie the database may return either
    order; [sort] takes the one stdpp's merge sort gives, and a property
    that depends on the order of ties is stated for documents without
    ties and for every order the database may return ([sortedBy]). *)
Definition descending (c : comparison) : comparison := CompOpp c.

Definition thenBy (c1 c2 : comparison) : comparison :=
  match c1 with
  | Eq => c2
  | _ => c1
  end.

Definition comparePriority (a b : IQueue) : comparison :=
  String.compare (Level_str (priority a)) (Level_str (priority b)).

(** [sort({ priority: -1, checkInTime: 1 })] *)
Definition compareRecalculate (a b : IQueue) : comparison :=
  thenBy (descending (comparePriority a b))
         (Z.compare (checkInTime a) (checkInTime b)).

(** [sort({ priority: -1, position: 1, checkInTime: 1 })] *)
Definition compareCallNext (a b : IQueue) : comparison :=
  thenBy (descending (comparePriority a b))
    (thenBy (Nat.compare (position a) (position b))
            (Z.compare (checkInTime a) (checkInTime b))).

(** [sort({ position: -1 })] *)
Definition comparePositionDesc (a b : IQueue) : comparison :=
  descending (Nat.compare (position a) (position b)).

Definition notAfter (cmp : IQueue → IQueue → comparison) (a b : IQueue)
    : Prop :=
  cmp a b ≠ Gt.

Global Instance notAfter_dec cmp a b : Decision (notAfter cmp a b).
Proof. unfold notAfter. apply _. Defined.

Definition sort (cmp : IQueue → IQueue → comparison) (l : list IQueue)
    : list IQueue :=
  merge_sort (notAfter cmp) l.

(** What the database may return for a sort of the documents [l]: any
    arrangement of them in which no document is after a later one.  [sort]
    is one such arrangement; when no two documents agree on every sort
    key it is the only one. *)
Definition sortedBy (cmp : IQueue → IQueue → comparison)
    (l res : list IQueue) : Prop :=
  res ≡ₚ l ∧ StronglySorted (notAfter cmp) res.

(** [this.find({ status: 'waiting' })] *)
Definition findWaiting (q : list IQueue) : list IQueue :=
  filter (λ e, status e = waiting) q.

(** ** QueueSchema.statics *)

Definition getNextPosition (q : list IQueue) : nat :=
  let lastQueueEntry := head (sort comparePositionDesc (findWaiting q)) in
  (match lastQueueEntry with
   | Some e => position e
   | None => 0
   end) + 1.

(** The update document [{ position: p }]. *)
Definition positionUpdate (p : nat) : Update :=
  mkUpdate None None (Some p) None None None None None.

(** The [for] loop of [recalculatePositions] from index [i] on. *)
Fixpoint assignPositions (i : nat) (waitingPatients : list IQueue)
    (q : list IQueue) : list IQueue :=
  match waitingPatients with
  | [] => q
  | w :: rest =>
      assignPositions (S i) rest
        (findByIdAndUpdate (_id w) (positionUpdate (i + 1)) q)
  end.

Definition recalculatePositions (q : list IQueue) : list IQueue :=
  let waitingPatients := sort compareRecalculate (findWaiting q) in
  assignPositions 0 waitingPatients q.

(** ** QueueService

    An operation that reads the clock ([new Date()]) takes the reading as
    [now]; it returns the new collection with the document the source
    returns, or the error it throws. *)

Inductive Error :=
  | QueueEntryNotFound
  | InvalidStatusTransition (fromStatus toStatus : Status)
  | FailedToUpdateQueueEntry
  | DoctorNotFoundOrInactive
  | NoPatientsWaiting
  | VisitAlreadyInQueue
  | ValidationError.

Inductive Result (A : Type) :=
  | Ok (a : A)
  | Throw (e : Error).
Arguments Ok {A} a.
Arguments Throw {A} e.

Record QueueStatusUpdate := mkQueueStatusUpdate {
  upd_status : Status;
  upd_doctorId : option nat;
  upd_assignedRoom : option string;
  upd_notes : option string
}.

Record NextPatientCall := mkNextPatientCall {
  call_doctorId : nat;
  call_assignedRoom : option string
}.

Definition validTransitions (fromStatus : Status) : list Status :=
  match fromStatus with
  | waiting => [in_progress; cancelled]
  | in_progress => [completed; cancelled; waiting]
  | completed => []
  | cancelled => [waiting]
  end.

Definition isValidStatusTransition (fromStatus toStatus : Status) : bool :=
  bool_decide (toStatus ∈ validTransitions fromStatus).

(** [updateWithTiming]: the spread of [updateData] with the timing paths.
    [doctorId] is not a path of the schema ([doctor] is), so the update
    does not store it. *)
Definition updateWithTiming (now : Z) (queueEntry : IQueue)
    (updateData : QueueStatusUpdate) : Update :=
  let entering (s : Status) :=
    bool_decide (upd_status updateData = s ∧ status queueEntry ≠ s) in
  {| set_status := Some (upd_status updateData);
     set_doctor := None;
     set_position := None;
     set_calledTime := if entering in_progress then Some now else None;
     set_consultationStartTime :=
       if entering in_progress then Some now else None;
     set_consultationEndTime :=
       if entering completed then Some now else None;
     set_assignedRoom := upd_assignedRoom updateData;
     set_notes := upd_notes updateData |}.

(** *** Validators of the schema

    [maxlength] of a string path: a path that is not set passes. *)
Definition maxlength (n : nat) (v : option string) : bool :=
  match v with
  | Some s => String.length s <=? n
  | None => true
  end.

(** The validators that [runValidators: true] runs in an update: those of
    the paths the update sets, of which [assignedRoom] and [notes] can
    fail, on the values the setter made. *)
Definition validateStrings (u : Update) : bool :=
  maxlength 20 (trim <$> set_assignedRoom u)
  && maxlength 1000 (trim <$> set_notes u).

(** The validator of [doctor]: [Staff.findById(doctorId)] is a doctor. *)
Definition validateDoctor (staff : list IStaff) (doctorId : nat) : bool :=
  match head (filter (λ s, staff_id s = doctorId) staff) with
  | Some s => bool_decide (role s = doctor_role)
  | None => false
  end.

(** The validators of the number paths: [position] has [min: 1],
    [estimatedWaitTime] and [actualWaitTime] have [min: 0]. *)
Definition validateNumbers (e : IQueue) : bool :=
  (1 <=? position e) && (0 <=? estimatedWaitTime e)%Z
  && from_option (Z.leb 0) true (actualWaitTime e).

(** The validators of the string paths of a document. *)
Definition validateTexts (e : IQueue) : bool :=
  maxlength 20 (assignedRoom e) && maxlength 1000 (notes e).

(** The validation that [doc.save()] runs first.  Mongoose validates the
    paths of the document that were loaded as well as those that were
    modified (modified paths alone only under [validateModifiedOnly],
    which the source does not set); the validator of [doctor] passes a
    document without a doctor. *)
Definition validateSave (staff : list IStaff) (d : IQueue) : bool :=
  from_option (validateDoctor staff) true (doctor d)
  && validateNumbers d && validateTexts d.

Definition updateQueueStatus (now : Z) (queueId : nat)
    (updateData : QueueStatusUpdate) (q : list IQueue)
    : Result (list IQueue * IQueue) :=
  match findById queueId q with
  | None => Throw QueueEntryNotFound
  | Some queueEntry =>
      if negb (isValidStatusTransition (status queueEntry)
                 (upd_status updateData)) then
        Throw (InvalidStatusTransition (status queueEntry)
                 (upd_status updateData))
      else
        let updateWithTiming := updateWithTiming now queueEntry updateData in
        (* findByIdAndUpdate(..., { new: true, runValidators: true }) *)
        if negb (validateStrings updateWithTiming) then Throw ValidationError
        else
          let q1 := findByIdAndUpdate queueId updateWithTiming q in
          match findById queueId q1 with
          | None => Throw FailedToUpdateQueueEntry
          | Some updatedQueue =>
              let q2 :=
                if decide (upd_status updateData = waiting)
                then recalculatePositions q1 else q1 in
              Ok (q2, updatedQueue)
          end
  end.

(** [Staff.findOne({ _id: doctorId, role: 'doctor', isActive: true })] *)
Definition findActiveDoctor (doctorId : nat) (staff : list IStaff)
    : option IStaff :=
  head (filter (λ s, staff_id s = doctorId ∧ role s = doctor_role ∧
                     isActive s = true) staff).

(** [if (assignedRoom)]: a room that is present and not the empty string. *)
Definition truthy (s : option string) : bool :=
  match s with
  | Some r => negb (String.eqb r "")
  | None => false
  end.

(** The assignments [callNextPatient] makes to the entry it selected:
    status, doctor, called time, start of consultation and, when a room is
    given, the room. *)
Definition callAssignments (now : Z) (callData : NextPatientCall) : Update :=
  let assignedRoom := call_assignedRoom callData in
  mkUpdate (Some in_progress) (Some (call_doctorId callData)) None (Some now)
    (Some now) None (if truthy assignedRoom then assignedRoom else None) None.

Definition callNextPatient (staff : list IStaff) (now : Z)
    (callData : NextPatientCall) (q : list IQueue)
    : Result (list IQueue * IQueue) :=
  let doctorId := call_doctorId callData in
  match findActiveDoctor doctorId staff with
  | None => Throw DoctorNotFoundOrInactive
  | Some _ =>
      match head (sort compareCallNext (findWaiting q)) with
      | None => Throw NoPatientsWaiting
      | Some nextPatient =>
          let assignments := callAssignments now callData in
          let nextPatient := applyUpdate assignments nextPatient in
          (* nextPatient.save() *)
          if negb (validateSave staff nextPatient)
          then Throw ValidationError
          else
            let q1 := save nextPatient q in
            Ok (recalculatePositions q1, nextPatient)
      end
  end.

Definition addToQueue (now : Z) (visitId patientId : nat) (priority : Level)
    (estimatedWaitTime : Z) (q : list IQueue)
    : Result (list IQueue * IQueue) :=
  match head (filter (λ e, visit e = visitId) q) with
  | Some _ => Throw VisitAlreadyInQueue
  | None =>
      let nextPosition := getNextPosition q in
      let queueEntry :=
        {| _id := freshId q;
           visit := visitId;
           patient := patientId;
           doctor := None;
           position := nextPosition;
           status := waiting;
           priority := priority;
           checkInTime := now;
           calledTime := None;
           consultationStartTime := None;
           consultationEndTime := None;
           estimatedWaitTime := estimatedWaitTime;
           actualWaitTime := None;
           assignedRoom := None;
           notes := None |} in
      (* queueEntry.save(): the new document has no doctor, room or
         notes, which leaves the validators of the number paths *)
      if negb (validateNumbers queueEntry) then Throw ValidationError
      else Ok (q ++ [queueEntry], queueEntry)
  end.

(** The update of [removeFromQueue] is made with [{ new: true }] alone:
    the setter of [notes] runs, its validator does not. *)
Definition removeFromQueue (queueId : nat) (reason : string)
    (q : list IQueue) : Result (list IQueue * IQueue) :=
  let q1 :=
    findByIdAndUpdate queueId
      (mkUpdate (Some cancelled) None None None None None None (Some reason))
      q in
  match findById queueId q1 with
  | None => Throw QueueEntryNotFound
  | Some queueEntry => Ok (recalculatePositions q1, queueEntry)
  end.

(** [QueueService.recalculatePositions]: the new collection and
    [updatedCount]. *)
Definition recalculatePositionsService (q : list IQueue)
    : list IQueue * nat :=
  let q1 := recalculatePositions q in
  (q1, length (findWaiting q1)).

(** ** Sequences of operations *)

Inductive Op :=
  | OpAddToQueue (visitId patientId : nat) (priority : Level)
      (estimatedWaitTime : Z)
  | OpUpdateQueueStatus (queueId : nat) (updateData : QueueStatusUpdate)
  | OpCallNextPatient (callData : NextPatientCall)
  | OpRemoveFromQueue (queueId : nat) (reason : string)
  | OpRecalculatePositions.

Definition perform (staff : list IStaff) (now : Z) (op : Op)
    (q : list IQueue) : Result (list IQueue) :=
  let collection (r : Result (list IQueue * IQueue)) :=
    match r with
    | Ok (q', _) => Ok q'
    | Throw e => Throw e
    end in
  match op with
  | OpAddToQueue v p pr w => collection (addToQueue now v p pr w q)
  | OpUpdateQueueStatus id u => collection (updateQueueStatus now id u q)
  | OpCallNextPatient c => collection (callNextPatient staff now c q)
  | OpRemoveFromQueue id r => collection (removeFromQueue id r q)
  | OpRecalculatePositions => Ok (fst (recalculatePositionsService q))
  end.

(** A request that throws leaves the collection as it was. *)
Definition step (staff : list IStaff) (q : list IQueue) (req : Z * Op)
    : list IQueue :=
  match perform staff (fst req) (snd req) q with
  | Ok q' => q'
  | Throw _ => q
  end.

Definition run (staff : list IStaff) (reqs : list (Z * Op))
    (q : list IQueue) : list IQueue :=
  foldl (step staff) q reqs.

(** ** Notions used to state the properties of the queue *)

(** The positions of the waiting entries are exactly 1..N, each once. *)
Definition positionsContiguous (q : list IQueue) : Prop :=
  position <$> findWaiting q ≡ₚ seq 1 (length (findWaiting q)).

(** Reading the waiting entries by increasing position gives them in the
    order [before]. *)
Definition orderedBy (before : IQueue → IQueue → Prop) (q : list IQueue)
    : Prop :=
  ∀ a b, a ∈ findWaiting q → b ∈ findWaiting q →
         position a < position b → before a b.

(** The order of the specification: priority high before medium before
    low, then [checkInTime] ascending. *)
Definition priorityRank (l : Level) : nat :=
  match l with
  | high => 3
  | medium => 2
  | low => 1
  end.

Definition specBefore (a b : IQueue) : Prop :=
  priorityRank (priority b) < priorityRank (priority a)
  ∨ (priority a = priority b ∧ (checkInTime a ≤ checkInTime b)%Z).

(** The position invariant of the specification. *)
Definition positionInvariant (q : list IQueue) : Prop :=
  positionsContiguous q ∧ orderedBy specBefore q.

(** Within one priority, earlier check-in first. *)
Definition arrivalOrder (a b : IQueue) : Prop :=
  priority a = priority b → (checkInTime a ≤ checkInTime b)%Z.

(** The requests after which the service calls
    [Queue.recalculatePositions]. *)
Definition recalculates (op : Op) : bool :=
  match op with
  | OpAddToQueue _ _ _ _ => false
  | OpUpdateQueueStatus _ u => bool_decide (upd_status u = waiting)
  | OpCallNextPatient _ => true
  | OpRemoveFromQueue _ _ => true
  | OpRecalculatePositions => true
  end.

(** What the loop of [recalculatePositions], started at index [i] over
    [waitingPatients], makes of a stored document: the document whose
    [_id] is found at index [k] gets position [i + k + 1]. *)
Definition renumber (i : nat) (waitingPatients : list IQueue) (e : IQueue)
    : IQueue :=
  match list_find (λ w, _id w = _id e) waitingPatients with
  | Some (k, _) => applyUpdate (positionUpdate (i + k + 1)) e
  | None => e
  end.

(** The rank of a priority in the order of its stored strings. *)
Definition stringRank (l : Level) : nat :=
  match l with
  | high => 0
  | low => 1
  | medium => 2
  end.

(** ** Example collections *)

(** Doctor 9 is on duty. *)
Definition onDuty : list IStaff := [mkStaff 9 doctor_role true].

Definition statusOnly (s : Status) : QueueStatusUpdate :=
  mkQueueStatusUpdate s None None None.

(** Three patients check in within one minute, with priorities high, low
    and medium in that order. *)
Definition threeCheckIns : list (Z * Op) :=
  [(0, OpAddToQueue 11 21 high 15);
   (20000, OpAddToQueue 12 22 low 15);
   (40000, OpAddToQueue 13 23 medium 30)]%Z.

Definition threeArrivals : list IQueue := run onDuty threeCheckIns [].

(** Two patients check in and the first is moved to in-progress by a
    status update. *)
Definition firstSeen : list (Z * Op) :=
  [(0, OpAddToQueue 11 21 low 15);
   (20000, OpAddToQueue 12 22 low 15);
   (60000, OpUpdateQueueStatus 1 (statusOnly in_progress))]%Z.

(** A patient checks in, is called by doctor 9 into room R1, and the
    consultation is completed. *)
Definition called : list IQueue :=
  run onDuty
    [(0, OpAddToQueue 11 21 low 15);
     (60000, OpCallNextPatient (mkNextPatientCall 9 (Some "R1")))]%Z [].

Definition served : list IQueue :=
  run onDuty [(900000%Z, OpUpdateQueueStatus 1 (statusOnly completed))]
    called.

(** ** QueueSchema.statics.getCurrentQueue and QueueService.getDoctorQueue *)

(** The string stored in the database for a status. *)
Definition Status_str (s : Status) : string :=
  match s with
  | waiting => "waiting"
  | in_progress => "in-progress"
  | completed => "completed"
  | cancelled => "cancelled"
  end.

Definition compareStatus (a b : IQueue) : comparison :=
  String.compare (Status_str (status a)) (Status_str (status b)).

(** [sort({ status: -1, priority: -1, position: 1 })] *)
Definition compareCurrentQueue (a b : IQueue) : comparison :=
  thenBy (descending (compareStatus a b))
    (thenBy (descending (comparePriority a b))
            (Nat.compare (position a) (position b))).

(** [status: { $in: ['waiting', 'in-progress'] }] *)
Definition findActive (q : list IQueue) : list IQueue :=
  filter (λ e, status e ∈ [waiting; in_progress]) q.

Definition getCurrentQueue (q : list IQueue) : list IQueue :=
  sort compareCurrentQueue (findActive q).

Definition getDoctorQueue (doctorId : nat) (q : list IQueue) : list IQueue :=
  sort compareCurrentQueue
    (filter (λ e, doctor e = Some doctorId
                  ∧ status e ∈ [waiting; in_progress]) q).

(** ** Further notions used to state properties of the queue *)

(** The fields of an entry that say whose it is and when it was made. *)
Definition identity (e : IQueue)
    : nat * nat * nat * Level * Z * Z * option Z :=
  (_id e, visit e, patient e, priority e, checkInTime e,
   estimatedWaitTime e, actualWaitTime e).


(** Every field of an entry but its position. *)
Definition apartFromPosition (e : IQueue) :=
  (identity e, doctor e, status e, calledTime e, consultationStartTime e,
   consultationEndTime e, assignedRoom e, notes e).

(** The requests that remove an entry from the queue. *)
Definition isRemoval (op : Op) : bool :=
  match op with
  | OpRemoveFromQueue _ _ => true
  | _ => false
  end.

(** The rank of a status in the order of its stored strings. *)
Definition statusRank (s : Status) : nat :=
  match s with
  | cancelled => 0
  | completed => 1
  | in_progress => 2
  | waiting => 3
  end.

(** The order in which [recalculatePositions] and [getCurrentQueue] put
    two priorities: that of their stored strings, reversed. *)
Definition storedBefore (a b : Level) : Prop :=
  stringRank b < stringRank a.

End Queue.

(* ===================================================================== *)
(** * services/appointment.service.ts: creating and listing appointments *)
(* ===================================================================== *)
Module AppointmentService.
Import Appointment.

Local Open Scope Z_scope.

Inductive ServiceError :=
  | PatientNotFound
  | DoctorNotFoundOrInactive
  | SchedulingConflict (conflicts : nat)
  | NotInTheFuture
  | OutsideBusinessHours
  | LessThanOneHourAhead
  | DurationOutOfBounds
  | NegativeSkip.

(** The fields of [CreateAppointmentData] that scheduling reads;
    [scheduledTime] is the ISO string already parsed to a date. *)
Record CreateAppointmentData := mkCreateAppointmentData {
  patientId : nat;
  doctorId : nat;
  new_scheduledTime : Z;
  new_duration : Z
}.

(** ** validateAppointmentTime *)
Definition validateAppointmentTime (tz now scheduledTime duration : Z)
    : Outcome ServiceError unit :=
  if decide (scheduledTime ≤ now) then Throws NotInTheFuture
  else
    let hour := getHours tz scheduledTime in
    if decide (hour < 9 ∨ hour >= 17) then Throws OutsideBusinessHours
    else
      let minAdvanceNotice := 60 * 60 * 1000 in
      if decide (scheduledTime - now < minAdvanceNotice)
      then Throws LessThanOneHourAhead
      else if decide (duration < 15 ∨ duration > 120)
      then Throws DurationOutOfBounds
      else Returns ().

(** The identifier given to a new appointment. *)
Definition newAppointmentId (db : list IAppointment) : nat :=
  S (max_list (_id <$> db)).

(** ** createAppointment

    [patients] holds the identifiers of the Patient collection and [staff]
    is the Staff collection.  [Returns] carries the collection with the
    document handed to [appointment.save()] and that document; the schema
    validation that [save] runs on the free-text fields is not part of the
    model. *)
Definition createAppointment (patients : list nat) (staff : list Queue.IStaff)
    (tz now : Z) (data : CreateAppointmentData) (db : list IAppointment)
    : Outcome ServiceError (list IAppointment * IAppointment) :=
  if decide (patientId data ∈ patients) then
    match Queue.findActiveDoctor (doctorId data) staff with
    | None => Throws DoctorNotFoundOrInactive
    | Some _ =>
        let scheduledDateTime := new_scheduledTime data in
        let conflicts :=
          findConflictingAppointments db (doctorId data) scheduledDateTime
            (new_duration data) in
        if decide (0 < length conflicts)%nat
        then Throws (SchedulingConflict (length conflicts))
        else
          match validateAppointmentTime tz now scheduledDateTime
                  (new_duration data) with
          | Throws e => Throws e
          | Returns _ =>
              let appointment :=
                mkAppointment (newAppointmentId db) (patientId data) (doctorId data)
                  scheduledDateTime (new_duration data) scheduled in
              Returns (db ++ [appointment], appointment)
          end
    end
  else Throws PatientNotFound.

(** ** getAppointments *)

Record Filters := mkFilters {
  startDate : option Z;
  endDate : option Z;
  f_status : option Status;
  f_doctorId : option nat;
  f_patientId : option nat
}.

(** The filter object the function builds: the date range applies only
    when both ends are given. *)
Definition matchesFilter (filters : Filters) (a : IAppointment) : Prop :=
  (match startDate filters, endDate filters with
   | Some s, Some e => scheduledTime a >= s ∧ scheduledTime a ≤ e
   | _, _ => True
   end)
  ∧ (match f_status filters with Some s => status a = s | None => True end)
  ∧ (match f_doctorId filters with Some d => doctor a = d | None => True end)
  ∧ (match f_patientId filters with
     | Some p => patient a = p
     | None => True
     end).

Global Instance matchesFilter_dec filters a :
  Decision (matchesFilter filters a).
Proof.
  unfold matchesFilter.
  destruct (startDate filters), (endDate filters), (f_status filters),
    (f_doctorId filters), (f_patientId filters); apply _.
Defined.

(** A JavaScript number that is a count of pages: [Math.ceil(total / limit)]
    is [Infinity] or [NaN] when [limit] is 0. *)
Inductive PageCount :=
  | Pages (n : nat)
  | Infinity
  | NaN.

Definition ceilDiv (total limit : nat) : PageCount :=
  match limit with
  | O => match total with O => NaN | S _ => Infinity end
  | S _ => Pages ((total + limit - 1) / limit)
  end.

Record AppointmentPage := mkAppointmentPage {
  appointments : list IAppointment;
  total : nat;
  page_ : nat;
  pages : PageCount
}.

(** [.skip(skip).limit(limit)]: the database refuses a negative skip, and
    a limit of 0 is no limit.  Every page request is a query of its own,
    and the database may order appointments with the same start time
    differently from one query to the next; the model takes the order of
    stdpp's merge sort every time, which is the order of the database when
    the matching appointments have different start times. *)
Definition getAppointments (filters : Filters) (page limit : nat)
    (db : list IAppointment) : Outcome ServiceError AppointmentPage :=
  let skip := (Z.of_nat page - 1) * Z.of_nat limit in
  let matching := filter (matchesFilter filters) db in
  let sorted := merge_sort byScheduledTime matching in
  if decide (skip < 0) then Throws NegativeSkip
  else
    let skipped := drop (Z.to_nat skip) sorted in
    let appointments :=
      match limit with
      | O => skipped
      | S _ => take limit skipped
      end in
    Returns (mkAppointmentPage appointments (length matching) page
               (ceilDiv (length matching) limit)).

(** ** Notions used to state properties of the booking service *)

(** The calendar after a request served at the clock reading that comes
    with it: a refused request leaves the calendar as it was. *)
Definition book (patients : list nat) (staff : list Queue.IStaff) (tz : Z)
    (db : list IAppointment) (request : Z * CreateAppointmentData)
    : list IAppointment :=
  match createAppointment patients staff tz request.1 request.2 db with
  | Returns (db', _) => db'
  | Throws _ => db
  end.

Definition bookAll (patients : list nat) (staff : list Queue.IStaff) (tz : Z)
    (requests : list (Z * CreateAppointmentData)) (db : list IAppointment)
    : list IAppointment :=
  foldl (book patients staff tz) db requests.

(** The appointments of a page request, none when it is refused. *)
Definition pageOf (filters : Filters) (limit : nat) (db : list IAppointment)
    (page : nat) : list IAppointment :=
  match getAppointments filters page limit db with
  | Returns r => appointments r
  | Throws _ => []
  end.

End AppointmentService.

(* ===================================================================== *)
(** * Properties of the triage scorer *)
(* ===================================================================== *)
Module TriageProps.
Import Triage.
Local Open Scope Q_scope.

(** ** Comparisons as propositions *)

Lemma geq_true a b : geq a b = true ↔ b <= a.
Proof. unfold geq. apply Qle_bool_iff. Qed.

Lemma geq_false a b : geq a b = false ↔ a < b.
Proof.
  unfold geq. destruct (Qle_bool b a) eqn:E.
  - apply Qle_bool_iff in E. split; [congruence | intros; lra].
  - split; [intros _ | done]. apply Qnot_le_lt. intros H.
    apply Qle_bool_iff in H. congruence.
Qed.

Lemma leq_true a b : leq a b = true ↔ a <= b.
Proof. unfold leq. apply Qle_bool_iff. Qed.

Lemma leq_false a b : leq a b = false ↔ b < a.
Proof.
  unfold leq. destruct (Qle_bool a b) eqn:E.
  - apply Qle_bool_iff in E. split; [congruence | intros; lra].
  - split; [intros _ | done]. apply Qnot_le_lt. intros H.
    apply Qle_bool_iff in H. congruence.
Qed.

(** Turns the boolean tests of a branch into linear facts. *)
Ltac bools :=
  repeat match goal with
  | H : _ || _ = true |- _ => apply orb_true_iff in H; destruct H
  | H : _ || _ = false |- _ => apply orb_false_iff in H; destruct H
  | H : geq _ _ = true |- _ => apply geq_true in H
  | H : geq _ _ = false |- _ => apply geq_false in H
  | H : leq _ _ = true |- _ => apply leq_true in H
  | H : leq _ _ = false |- _ => apply leq_false in H
  end.

Ltac step_cases :=
  repeat case_match; simpl in *; try lia; bools.

(** ** Each block adds its own points to the running score *)

Lemma scoreTemperature_fst input acc :
  fst (scoreTemperature input acc)
  = (fst acc + pointsOf scoreTemperature input)%Z.
Proof. unfold pointsOf, scoreTemperature, add. step_cases. Qed.

Lemma scoreHeartRate_fst input acc :
  fst (scoreHeartRate input acc) = (fst acc + pointsOf scoreHeartRate input)%Z.
Proof. unfold pointsOf, scoreHeartRate, add. step_cases. Qed.

Lemma scoreBloodPressure_fst input acc :
  fst (scoreBloodPressure input acc)
  = (fst acc + pointsOf scoreBloodPressure input)%Z.
Proof. unfold pointsOf, scoreBloodPressure, add. step_cases. Qed.

Lemma scorePain_fst input acc :
  fst (scorePain input acc) = (fst acc + pointsOf scorePain input)%Z.
Proof. unfold pointsOf, scorePain, add. step_cases. Qed.

Lemma scoreSymptoms_fst input acc :
  fst (scoreSymptoms input acc) = (fst acc + pointsOf scoreSymptoms input)%Z.
Proof. unfold pointsOf, scoreSymptoms, add. step_cases. Qed.

Lemma score_decomposition input :
  score (calculateTriageScore input)
  = (pointsOf scoreTemperature input + pointsOf scoreHeartRate input
     + pointsOf scoreBloodPressure input + pointsOf scorePain input
     + pointsOf scoreSymptoms input)%Z.
Proof.
  unfold calculateTriageScore, Math_round. cbn [score].
  rewrite scoreSymptoms_fst, scorePain_fst, scoreBloodPressure_fst,
    scoreHeartRate_fst, scoreTemperature_fst. simpl. lia.
Qed.

(** ** The point values a block can contribute *)

Lemma temperature_points input :
  pointsOf scoreTemperature input ∈ [0; 10; 20; 30]%Z.
Proof.
  unfold pointsOf, scoreTemperature, add. repeat case_match; simpl; set_solver.
Qed.

Lemma heartRate_points input :
  pointsOf scoreHeartRate input ∈ [0; 5; 15; 25]%Z.
Proof.
  unfold pointsOf, scoreHeartRate, add. repeat case_match; simpl; set_solver.
Qed.

Lemma bloodPressure_points input :
  pointsOf scoreBloodPressure input ∈ [0; 10; 25; 40]%Z.
Proof.
  unfold pointsOf, scoreBloodPressure, add. repeat case_match; simpl; set_solver.
Qed.

Lemma pain_points input :
  pointsOf scorePain input ∈ [0; 3; 10; 20]%Z.
Proof.
  unfold pointsOf, scorePain, add. repeat case_match; simpl; set_solver.
Qed.

Lemma symptoms_points input :
  pointsOf scoreSymptoms input ∈ [0; 25; 40]%Z.
Proof.
  unfold pointsOf, scoreSymptoms, add. repeat case_match; simpl; set_solver.
Qed.

(** ** Each block records at most one factor *)

Lemma scoreTemperature_factors input acc :
  (length (snd (scoreTemperature input acc)) <= S (length (snd acc)))%nat.
Proof.
  unfold scoreTemperature, add. repeat case_match; cbn;
    rewrite ?length_app; cbn; lia.
Qed.

Lemma scoreHeartRate_factors input acc :
  (length (snd (scoreHeartRate input acc)) <= S (length (snd acc)))%nat.
Proof.
  unfold scoreHeartRate, add. repeat case_match; cbn;
    rewrite ?length_app; cbn; lia.
Qed.

Lemma scoreBloodPressure_factors input acc :
  (length (snd (scoreBloodPressure input acc)) <= S (length (snd acc)))%nat.
Proof.
  unfold scoreBloodPressure, add. repeat case_match; cbn;
    rewrite ?length_app; cbn; lia.
Qed.

Lemma scorePain_factors input acc :
  (length (snd (scorePain input acc)) <= S (length (snd acc)))%nat.
Proof.
  unfold scorePain, add. repeat case_match; cbn;
    rewrite ?length_app; cbn; lia.
Qed.

Lemma scoreSymptoms_factors input acc :
  (length (snd (scoreSymptoms input acc)) <= S (length (snd acc)))%nat.
Proof.
  unfold scoreSymptoms, add. repeat case_match; cbn;
    rewrite ?length_app; cbn; lia.
Qed.

Lemma factors_at_most_five input :
  (length (factors (calculateTriageScore input)) <= 5)%nat.
Proof.
  unfold calculateTriageScore. cbn [factors].
  pose proof (scoreTemperature_factors input (0%Z, [])) as H1.
  pose proof (scoreHeartRate_factors input
                (scoreTemperature input (0%Z, []))) as H2.
  pose proof (scoreBloodPressure_factors input
                (scoreHeartRate input (scoreTemperature input (0%Z, []))))
    as H3.
  pose proof (scorePain_factors input
                (scoreBloodPressure input
                   (scoreHeartRate input (scoreTemperature input (0%Z, [])))))
    as H4.
  pose proof (scoreSymptoms_factors input
                (scorePain input
                   (scoreBloodPressure input
                      (scoreHeartRate input
                         (scoreTemperature input (0%Z, []))))))
    as H5.
  cbn [snd length] in H1. lia.
Qed.

(** C10.  The score is the sum of the contributions of the five factors;
    the temperature block contributes 0, 10, 20 or 30, the heart-rate block
    0, 5, 15 or 25, the blood-pressure block 0, 10, 25 or 40, the pain
    block 0, 3, 10 or 20 and the symptom block 0, 25 or 40 (critical and
    serious keywords never both), so the score is an integer between 0 and
    155 = 30 + 25 + 40 + 20 + 40 for every input, with at most five
    factors recorded. *)
Theorem triage_score_bounds input :
  let r := calculateTriageScore input in
  score r = (pointsOf scoreTemperature input + pointsOf scoreHeartRate input
     + pointsOf scoreBloodPressure input + pointsOf scorePain input
     + pointsOf scoreSymptoms input)%Z
  ∧ pointsOf scoreTemperature input ∈ [0; 10; 20; 30]%Z
  ∧ pointsOf scoreHeartRate input ∈ [0; 5; 15; 25]%Z
  ∧ pointsOf scoreBloodPressure input ∈ [0; 10; 25; 40]%Z
  ∧ pointsOf scorePain input ∈ [0; 3; 10; 20]%Z
  ∧ pointsOf scoreSymptoms input ∈ [0; 25; 40]%Z
  ∧ (0 <= score r <= 155)%Z
  ∧ (length (factors r) <= 5)%nat.
Proof.
  pose proof (temperature_points input) as Ht.
  pose proof (heartRate_points input) as Hh.
  pose proof (bloodPressure_points input) as Hb.
  pose proof (pain_points input) as Hp.
  pose proof (symptoms_points input) as Hs.
  pose proof (factors_at_most_five input) as Hf.
  cbv zeta. rewrite score_decomposition. repeat split; try done.
  all: set_unfold; lia.
Qed.

(** ** Monotonicity of each block *)

Lemma temperature_monotone i i' :
  away 98.6 98.6 (temperature i) (temperature i') →
  (pointsOf scoreTemperature i <= pointsOf scoreTemperature i')%Z.
Proof.
  unfold away, pointsOf, scoreTemperature, in_band, add; simpl. intros H.
  step_cases; exfalso; intuition lra.
Qed.

Lemma heartRate_monotone i i' :
  away 60 100 (heartRate i) (heartRate i') →
  (pointsOf scoreHeartRate i <= pointsOf scoreHeartRate i')%Z.
Proof.
  unfold away, pointsOf, scoreHeartRate, in_band, add; simpl. intros H.
  step_cases; exfalso; intuition lra.
Qed.

Lemma pain_monotone i i' :
  painLevel i <= painLevel i' →
  (pointsOf scorePain i <= pointsOf scorePain i')%Z.
Proof.
  unfold pointsOf, scorePain, add; simpl. intros H.
  step_cases; exfalso; lra.
Qed.

Lemma bloodPressure_monotone i i' :
  Qabs (bloodPressureSystolic i - 120)
    <= Qabs (bloodPressureSystolic i' - 120) →
  Qabs (bloodPressureDiastolic i - 80)
    <= Qabs (bloodPressureDiastolic i' - 80) →
  (pointsOf scoreBloodPressure i <= pointsOf scoreBloodPressure i')%Z.
Proof.
  unfold pointsOf, scoreBloodPressure, add, Math_abs. cbv zeta.
  unfold TRIAGE_RULES.bloodPressure.systolicCritical,
    TRIAGE_RULES.bloodPressure.diastolicCritical,
    TRIAGE_RULES.bloodPressure.systolicSerious,
    TRIAGE_RULES.bloodPressure.diastolicSerious,
    TRIAGE_RULES.bloodPressure.systolicModerate,
    TRIAGE_RULES.bloodPressure.diastolicModerate.
  generalize (Qabs (bloodPressureSystolic i - 120))
    (Qabs (bloodPressureSystolic i' - 120))
    (Qabs (bloodPressureDiastolic i - 80))
    (Qabs (bloodPressureDiastolic i' - 80)).
  intros s s' d d' Hs Hd. step_cases; exfalso; lra.
Qed.

Lemma symptoms_same i i' :
  symptoms i = symptoms i' →
  pointsOf scoreSymptoms i = pointsOf scoreSymptoms i'.
Proof. unfold pointsOf, scoreSymptoms. by intros ->. Qed.

(** C9, as the code has it.  When every vital either stays or moves
    further from normal on the side of normal where it already is
    (temperature around 98.6, heart rate outside 60..100, or leaving that
    range from inside it), the absolute systolic and diastolic deviations
    from 120/80 do not shrink, the pain level does not fall and the symptom
    text is the same, the score does not decrease.  Moving one vital with
    the others fixed is the special case where the other hypotheses hold
    by equality. *)
Theorem triage_monotone_same_side i i' :
  away 98.6 98.6 (temperature i) (temperature i') →
  away 60 100 (heartRate i) (heartRate i') →
  Qabs (bloodPressureSystolic i - 120)
    <= Qabs (bloodPressureSystolic i' - 120) →
  Qabs (bloodPressureDiastolic i - 80)
    <= Qabs (bloodPressureDiastolic i' - 80) →
  painLevel i <= painLevel i' →
  symptoms i = symptoms i' →
  (score (calculateTriageScore i) <= score (calculateTriageScore i'))%Z.
Proof.
  intros Ht Hh Hs Hd Hp Hy. rewrite !score_decomposition.
  pose proof (temperature_monotone _ _ Ht).
  pose proof (heartRate_monotone _ _ Hh).
  pose proof (bloodPressure_monotone _ _ Hs Hd).
  pose proof (pain_monotone _ _ Hp).
  pose proof (symptoms_same _ _ Hy). lia.
Qed.

(** The theorem at work: every vital of [worse] is further from normal
    than that of [unwell], on the same side. *)
Lemma triage_monotone_same_side_witness :
  away 98.6 98.6 (temperature unwell) (temperature worse)
  ∧ away 60 100 (heartRate unwell) (heartRate worse)
  ∧ (score (calculateTriageScore unwell)
     <= score (calculateTriageScore worse))%Z.
Proof.
  assert (Ht : away 98.6 98.6 (temperature unwell) (temperature worse)).
  { right; left. split; by vm_compute. }
  assert (Hh : away 60 100 (heartRate unwell) (heartRate worse)).
  { right; left. split; by vm_compute. }
  split; [exact Ht | split; [exact Hh |]].
  apply (triage_monotone_same_side unwell worse Ht Hh);
    first [reflexivity | by vm_compute].
Defined.

(** C9, as stated, fails: 97.1 degrees deviates more from 98.6 than 100
    degrees does, every other input is the same, and the score drops
    from 10 to 0. *)
Lemma triage_not_monotone_across_sides :
  Qabs (temperature feverish - 98.6) < Qabs (temperature chilled - 98.6)
  ∧ heartRate chilled = heartRate feverish
  ∧ bloodPressureSystolic chilled = bloodPressureSystolic feverish
  ∧ bloodPressureDiastolic chilled = bloodPressureDiastolic feverish
  ∧ painLevel chilled = painLevel feverish
  ∧ symptoms chilled = symptoms feverish
  ∧ score (calculateTriageScore feverish) = 10%Z
  ∧ score (calculateTriageScore chilled) = 0%Z.
Proof. repeat split; by vm_compute. Qed.

(** The scenarios of the specification. *)
Example triage_scenario_high :
  let r := calculateTriageScore
             (mkTriageInput 104.5 130 180 110 9
                "chest pain and difficulty breathing") in
  level r = high ∧ (60 <= score r)%Z.
Proof. by vm_compute. Qed.

Example triage_scenario_low :
  let r := calculateTriageScore
             (mkTriageInput 98.6 72 120 80 2 "routine check-up") in
  level r = low ∧ (score r < 30)%Z.
Proof. by vm_compute. Qed.

End TriageProps.

(* ===================================================================== *)
(** * Properties of the appointment scheduler *)
(* ===================================================================== *)
Module AppointmentProps.
Import Appointment.
Local Open Scope Z_scope.

(** ** Conflict detection *)

(** What the query selects. *)
Lemma findConflictingAppointments_spec db doctorId start dur a :
  a ∈ findConflictingAppointments db doctorId start dur ↔
  a ∈ db ∧ doctor a = doctorId ∧ active (status a) ∧
  ((start ≤ scheduledTime a < start + dur * 60000) ∨
   (start < endOf a < start + dur * 60000)).
Proof.
  unfold findConflictingAppointments, conflictQuery, active.
  rewrite list_elem_of_filter. intuition lia.
Qed.

(** Every appointment the query returns does overlap the requested
    interval, provided it has a positive duration. *)
Lemma findConflictingAppointments_sound db doctorId start dur a :
  0 < duration a →
  a ∈ findConflictingAppointments db doctorId start dur →
  a ∈ db ∧ doctor a = doctorId ∧ active (status a) ∧
  overlaps start dur (scheduledTime a) (duration a).
Proof.
  rewrite findConflictingAppointments_spec. unfold overlaps, endOf.
  intuition lia.
Qed.

(** An overlapping appointment is missed exactly when it starts before the
    requested interval and ends at or after its end. *)
Lemma findConflictingAppointments_missed db doctorId start dur a :
  a ∈ db → doctor a = doctorId → active (status a) →
  overlaps start dur (scheduledTime a) (duration a) →
  a ∉ findConflictingAppointments db doctorId start dur ↔
  scheduledTime a < start ∧ start + dur * 60000 ≤ endOf a.
Proof.
  intros Hin Hd Ha [Ho1 Ho2]. rewrite findConflictingAppointments_spec.
  unfold endOf in *. intuition lia.
Qed.

(** The scenario of the specification: 10:00-10:30 is booked, and 10:15
    for 30 minutes is asked for. *)
Example findConflictingAppointments_scenario :
  findConflictingAppointments [tenToHalfPast] 5 (at_ 10 15) 30
  = [tenToHalfPast].
Proof. by vm_compute. Qed.

(** C3.  An active appointment of the doctor that contains the requested
    interval overlaps it but is not returned: with 10:00-11:00 booked, the
    check for 10:15-10:45 finds no conflict. *)
Theorem findConflictingAppointments_misses_containing :
  doctor tenToEleven = 5%nat
  ∧ active (status tenToEleven)
  ∧ overlaps (at_ 10 15) 30 (scheduledTime tenToEleven) (duration tenToEleven)
  ∧ findConflictingAppointments [tenToEleven] 5 (at_ 10 15) 30 = [].
Proof.
  split; [done|]. split; [unfold active; set_solver|].
  split; by vm_compute.
Qed.

(** An active appointment of positive duration is always among the
    conflicts of its own time and duration. *)
Lemma findConflictingAppointments_self db a :
  a ∈ db → active (status a) → 0 < duration a →
  a ∈ findConflictingAppointments db (doctor a) (scheduledTime a)
        (duration a).
Proof.
  intros Hin Ha Hd. apply findConflictingAppointments_spec.
  repeat split; [done | done |]. left. lia.
Qed.

(** ** The slot search *)

Section SlotSearch.
Variable tz : Z.
Variable clock : nat → Z.
Variable db : list IAppointment.

(** One iteration of the loop. *)
Lemma slotLoop_cons check slotTime slots suggestedTimes n :
  slotLoop clock check (slotTime :: slots) suggestedTimes n =
  if decide (slotTime ≤ clock n)
  then slotLoop clock check slots suggestedTimes (S n)
  else match check slotTime (S n) with
       | None => None
       | Some (availability, n') =>
           if available availability then
             if decide (3 ≤ length (suggestedTimes ++ [slotTime]))%nat
             then Some (suggestedTimes ++ [slotTime], n')
             else slotLoop clock check slots
                    (suggestedTimes ++ [slotTime]) n'
           else slotLoop clock check slots suggestedTimes n'
       end.
Proof.
  cbn [slotLoop]. unfold mbind, M_bind, newDate.
  destruct (decide (slotTime ≤ clock n)); [done|].
  destruct (check slotTime (S n)) as [[a n']|]; [|done].
  destruct (available a); [|done].
  by destruct (decide (3 ≤ length (suggestedTimes ++ [slotTime]))%nat).
Qed.

(** A check with an empty conflict list answers at once. *)
Lemma checkDoctorAvailability_free fuel doctorId startTime dur exclude n :
  findConflictingAppointments db doctorId startTime dur = [] →
  checkDoctorAvailability tz clock db (S fuel) doctorId startTime dur
    exclude n
  = Some (mkAvailabilityCheck true [] [], n).
Proof. intros E. cbn [checkDoctorAvailability]. by rewrite E. Qed.

(** A check with conflicts runs the search from its own start time. *)
Lemma checkDoctorAvailability_busy fuel doctorId startTime dur exclude n :
  findConflictingAppointments db doctorId startTime dur ≠ [] →
  checkDoctorAvailability tz clock db (S fuel) doctorId startTime dur
    exclude n
  = match findNextAvailableSlots tz clock db fuel doctorId startTime dur n
    with
    | Some (suggestedTimes, n') =>
        Some (mkAvailabilityCheck false
                (findConflictingAppointments db doctorId startTime dur)
                suggestedTimes, n')
    | None => None
    end.
Proof.
  intros E. cbn [checkDoctorAvailability]. unfold findNextAvailableSlots.
  destruct (findConflictingAppointments db doctorId startTime dur)
    as [|c cs]; [done|].
  rewrite bool_decide_false by done. unfold mbind, M_bind, mret, M_ret.
  by destruct (slotLoop _ _ _ _ _) as [[? ?]|].
Qed.

(** More fuel does not change an answer. *)
Lemma slotLoop_mono check check' slots :
  (∀ s n r, check s n = Some r → check' s n = Some r) →
  ∀ suggestedTimes n r,
    slotLoop clock check slots suggestedTimes n = Some r →
    slotLoop clock check' slots suggestedTimes n = Some r.
Proof.
  intros Hc. induction slots as [|s slots IH]; intros acc n r; [done|].
  rewrite !slotLoop_cons. destruct (decide (s ≤ clock n)); [apply IH|].
  destruct (check s (S n)) as [[a n']|] eqn:E; [|done].
  rewrite (Hc _ _ _ E). repeat case_match; auto.
Qed.

Lemma checkDoctorAvailability_fuel_mono fuel :
  ∀ doctorId startTime dur exclude n r,
    checkDoctorAvailability tz clock db fuel doctorId startTime dur
      exclude n = Some r →
    checkDoctorAvailability tz clock db (S fuel) doctorId startTime dur
      exclude n = Some r.
Proof.
  induction fuel as [|fuel IH]; intros doctorId startTime dur exclude n r;
    [done|].
  destruct (decide (findConflictingAppointments db doctorId startTime dur
                    = [])) as [E|E].
  - by rewrite !checkDoctorAvailability_free.
  - rewrite !checkDoctorAvailability_busy by done.
    unfold findNextAvailableSlots.
    destruct (slotLoop clock _ _ [] n) as [[s n']|] eqn:El; [|done].
    intros <-. eapply slotLoop_mono in El; [by rewrite El|].
    intros. by apply IH.
Qed.
End SlotSearch.


(** The [excludeAppointmentId] of a check has no influence on it. *)
Lemma checkDoctorAvailability_exclude tz clock db fuel doctorId startTime dur
    exclude n :
  checkDoctorAvailability tz clock db fuel doctorId startTime dur exclude n
  = checkDoctorAvailability tz clock db fuel doctorId startTime dur None n.
Proof. by destruct fuel. Qed.

(** C4.  Both halves fail on the code.  With 10:00-11:00 and 10:15-10:45
    booked for doctor 5, the check on the hour returns the half hour inside
    it, but the check on the half hour does not return the hour.  And the
    availability check of the 11:00-11:30 appointment's own time, with its
    own id as [excludeAppointmentId], lists that appointment among the
    conflicts (the clock stands at 8:00; 9:00, 9:30 and 10:00 are free, so
    the check returns). *)
Theorem conflict_check_asymmetric_and_keeps_excluded :
  (quarterPastTen ∈
     findConflictingAppointments [tenToEleven; quarterPastTen] 5
       (scheduledTime tenToEleven) (duration tenToEleven)
   ∧ tenToEleven ∉
       findConflictingAppointments [tenToEleven; quarterPastTen] 5
         (scheduledTime quarterPastTen) (duration quarterPastTen))
  ∧ checkDoctorAvailability 0 (frozenAt (at_ 8 0)) [elevenToHalfPast] 2 5
      (scheduledTime elevenToHalfPast) (duration elevenToHalfPast)
      (Some (_id elevenToHalfPast)) 0%nat
    = Some (mkAvailabilityCheck false [elevenToHalfPast]
              [at_ 9 0; at_ 9 30; at_ 10 0], 3%nat).
Proof.
  split; [split|].
  - apply (bool_decide_unpack _). by vm_compute.
  - apply (bool_decide_unpack _). by vm_compute.
  - by vm_compute.
Qed.

(** ** What the search returns when it returns *)

Section SlotSearchResult.
Variable tz : Z.
Variable clock : nat → Z.
Variable db : list IAppointment.

(** The loop appends to [suggestedTimes] a subsequence of the candidates
    it was given; each appended slot was later than a clock reading and
    was reported available; and it stops at three. *)
Lemma slotLoop_result check slots :
  ∀ suggestedTimes n res n',
    slotLoop clock check slots suggestedTimes n = Some (res, n') →
    ∃ picked,
      res = suggestedTimes ++ picked
      ∧ picked `sublist_of` slots
      ∧ ((length suggestedTimes < 3)%nat → (length res ≤ 3)%nat)
      ∧ Forall (λ s, ∃ k a m, clock k < s ∧ check s (S k) = Some (a, m)
                             ∧ available a = true) picked.
Proof.
  induction slots as [|s slots IH]; intros acc n res n'.
  - cbn. intros [= <- <-]. exists []. rewrite app_nil_r.
    repeat split; [done | lia | constructor].
  - rewrite slotLoop_cons. destruct (decide (s ≤ clock n)) as [Hs|Hs].
    { intros (picked & -> & Hsub & Hlen & Hall)%IH.
      exists picked. repeat split; [by constructor | done | done]. }
    destruct (check s (S n)) as [[a m]|] eqn:Ec; [|done].
    destruct (available a) eqn:Ea.
    + destruct (decide (3 ≤ length (acc ++ [s]))%nat) as [H3|H3].
      * intros [= <- <-]. exists [s]. repeat split.
        -- constructor. apply sublist_nil_l.
        -- rewrite length_app in *. cbn in *. lia.
        -- constructor; [|constructor]. exists n, a, m.
           repeat split; [lia | done | done].
      * intros (picked & -> & Hsub & Hlen & Hall)%IH.
        exists (s :: picked). rewrite <- app_assoc. repeat split.
        -- by constructor.
        -- intros _. rewrite <- app_assoc in Hlen. cbn in Hlen.
           apply Hlen. lia.
        -- constructor; [|done]. exists n, a, m.
           repeat split; [lia | done | done].
    + intros (picked & -> & Hsub & Hlen & Hall)%IH.
      exists picked. repeat split; [by constructor | done | done].
Qed.

(** An answer of [checkDoctorAvailability] carries the conflicts found,
    and [available] says that there were none. *)
Lemma checkDoctorAvailability_answer fuel doctorId startTime dur exclude
    n a m :
  checkDoctorAvailability tz clock db fuel doctorId startTime dur exclude n
    = Some (a, m) →
  conflicts a = findConflictingAppointments db doctorId startTime dur
  ∧ (available a = true ↔ conflicts a = []).
Proof.
  destruct fuel as [|fuel]; [done|]. cbn [checkDoctorAvailability].
  unfold mbind, M_bind, mret, M_ret.
  destruct (findConflictingAppointments db doctorId startTime dur)
    as [|c cs] eqn:E.
  - rewrite bool_decide_true by done. intros [= <- <-]. by split.
  - rewrite bool_decide_false by done.
    destruct (slotLoop _ _ _ _ _) as [[s n']|]; [|done].
    intros [= <- <-]. cbn. by split.
Qed.

(** The candidates are in chronological order. *)
Lemma candidateSlots_increasing baseTime :
  StronglySorted Z.lt (candidateSlots tz baseTime).
Proof.
  unfold candidateSlots.
  apply (StronglySorted_fmap _ (λ i j, slotOffset i < slotOffset j) Z.lt).
  - intros [[d h] m] [[d' h'] m']. unfold slotAt, slotOffset. cbn. lia.
  - apply (bool_decide_unpack _). by vm_compute.
Qed.

Lemma StronglySorted_sublist (l1 l2 : list Z) :
  l1 `sublist_of` l2 → StronglySorted Z.lt l2 → StronglySorted Z.lt l1.
Proof.
  induction 1 as [|x l1 l2 Hs IH|x l1 l2 Hs IH]; [done| |].
  - intros [Hl2 Hx]%StronglySorted_inv. constructor; [by apply IH|].
    rewrite Forall_forall in *. intros y Hy. apply Hx.
    by eapply elem_of_sublist.
  - intros [Hl2 Hx]%StronglySorted_inv. by apply IH.
Qed.

(** If the search returns, it returns at most three of the candidate
    slots of the three days from the preferred date, in chronological
    order, each later than a reading of the clock and each without a
    conflict in the sense of [findConflictingAppointments]. *)
Lemma findNextAvailableSlots_result fuel doctorId preferredTime dur n
    res n' :
  findNextAvailableSlots tz clock db fuel doctorId preferredTime dur n
    = Some (res, n') →
  (length res ≤ 3)%nat
  ∧ res `sublist_of` candidateSlots tz preferredTime
  ∧ StronglySorted Z.lt res
  ∧ Forall (λ s, (∃ k, clock k < s)
                 ∧ findConflictingAppointments db doctorId s dur = []) res.
Proof.
  unfold findNextAvailableSlots.
  intros (picked & -> & Hsub & Hlen & Hall)%slotLoop_result.
  cbn [app length] in *. split; [apply Hlen; lia|]. split; [done|].
  split; [exact (StronglySorted_sublist _ _ Hsub
                   (candidateSlots_increasing _))|].
  eapply Forall_impl; [exact Hall|]. cbv beta.
  intros s (k & a & m & Hk & Hc & Ha). split; [by exists k|].
  apply checkDoctorAvailability_answer in Hc as [<- Hav]. by apply Hav.
Qed.
End SlotSearchResult.

(** ** A search whose first candidate is busy

    Whatever the calendar, the time zone and the clock: when the 9:00
    candidate of the preferred date has a conflict and the clock has not
    reached it, the search does not return. *)

Lemma localMidnight_slotAt tz baseTime hour minute :
  0 ≤ hour * MS_PER_HOUR + minute * MS_PER_MINUTE < MS_PER_DAY →
  localMidnight tz (slotAt tz baseTime 0 hour minute)
  = localMidnight tz baseTime.
Proof.
  intros Hoff. unfold slotAt, localMidnight.
  set (k := (baseTime + tz) `div` MS_PER_DAY).
  replace (k * MS_PER_DAY - tz + 0 * MS_PER_DAY + hour * MS_PER_HOUR
           + minute * MS_PER_MINUTE + tz)
    with (k * MS_PER_DAY + (hour * MS_PER_HOUR + minute * MS_PER_MINUTE))
    by lia.
  rewrite Z.div_add_l by done. rewrite (Z.div_small _ _ Hoff). f_equal. lia.
Qed.

Lemma candidateSlots_head tz baseTime :
  ∃ rest, candidateSlots tz baseTime = slotAt tz baseTime 0 9 0 :: rest.
Proof. eexists. reflexivity. Qed.

Lemma first_slot_busy tz clock db doctorId dur first :
  findConflictingAppointments db doctorId first dur ≠ [] →
  (∀ k, clock k < first) →
  ∀ fuel baseTime n,
    slotAt tz baseTime 0 9 0 = first →
    findNextAvailableSlots tz clock db fuel doctorId baseTime dur n = None.
Proof.
  intros Hbusy Hearly fuel.
  induction fuel as [|fuel IH]; intros baseTime n Hfirst;
    unfold findNextAvailableSlots;
    destruct (candidateSlots_head tz baseTime) as [rest ->];
    rewrite Hfirst, slotLoop_cons,
      decide_False by (specialize (Hearly n); lia).
  - done.
  - rewrite checkDoctorAvailability_busy by done.
    rewrite IH; [done|]. rewrite <- Hfirst at 2. unfold slotAt at 1.
    rewrite <- Hfirst, localMidnight_slotAt by done. done.
Qed.

(** ** A search that meets a booked slot

    Doctor 5 is booked 10:00-10:30 and the clock has not reached 9:00 of
    that day.  The search started from any time of that day finds 9:00 and
    9:30 free and then asks [checkDoctorAvailability] about 10:00, which
    starts the same search again. *)
Section BookedSlot.
Variable clock : nat → Z.
Hypothesis early : ∀ k, clock k < at_ 9 0.

Lemma too_early k slotTime : at_ 9 0 ≤ slotTime → ¬ slotTime ≤ clock k.
Proof. specialize (early k). lia. Qed.

Lemma search_from_booked_day fuel :
  ∀ baseTime n,
    candidateSlots 0 baseTime = candidateSlots 0 (at_ 10 0) →
    findNextAvailableSlots 0 clock [tenToHalfPast] fuel 5 baseTime 30 n
    = None.
Proof.
  induction fuel as [|fuel IH]; intros baseTime n Hc;
    unfold findNextAvailableSlots; rewrite Hc;
    set (cs := candidateSlots 0 (at_ 10 0)); vm_compute in cs; subst cs;
    rewrite slotLoop_cons, decide_False by (by apply too_early).
  - done.
  - rewrite checkDoctorAvailability_free by (by vm_compute).
    cbn [available app length]. rewrite decide_False by lia.
    rewrite slotLoop_cons, decide_False by (by apply too_early).
    rewrite checkDoctorAvailability_free by (by vm_compute).
    cbn [available app length]. rewrite decide_False by lia.
    rewrite slotLoop_cons, decide_False by (by apply too_early).
    rewrite checkDoctorAvailability_busy by (by vm_compute).
    change 36000000 with (at_ 10 0). by rewrite IH.
Qed.

Lemma check_of_booked_slot fuel n exclude :
  checkDoctorAvailability 0 clock [tenToHalfPast] fuel 5 (at_ 10 15) 30
    exclude n = None.
Proof.
  destruct fuel as [|fuel]; [done|].
  rewrite checkDoctorAvailability_busy by (by vm_compute).
  by rewrite search_from_booked_day.
Qed.
End BookedSlot.

(** C8.  With doctor 5 booked 10:00-10:30 and the clock standing at 8:00
    of that day, neither the slot search for 10:15 nor the availability
    check that surfaces it returns, whatever depth of calls is allowed:
    the candidate 10:00 is busy, and checking it restarts the search. *)
Theorem slot_search_never_returns :
  ∀ fuel n,
    findNextAvailableSlots 0 (frozenAt (at_ 8 0)) [tenToHalfPast] fuel 5
      (at_ 10 15) 30 n = None
    ∧ checkDoctorAvailability 0 (frozenAt (at_ 8 0)) [tenToHalfPast] fuel 5
        (at_ 10 15) 30 None n = None.
Proof.
  intros fuel n. split.
  - apply search_from_booked_day; by vm_compute.
  - apply check_of_booked_slot. intros k. by vm_compute.
Qed.

(** With an empty calendar the same search returns the first three slots
    of the day. *)
Example slot_search_empty_calendar :
  findNextAvailableSlots 0 (frozenAt (at_ 8 0)) [] 1 5 (at_ 10 15) 30 0%nat
  = Some ([at_ 9 0; at_ 9 30; at_ 10 0], 3%nat).
Proof. by vm_compute. Qed.

(** Once the clock is past the booked slot the check answers, and its
    suggestions skip the slots that are over. *)
Example check_after_booked_slot :
  checkDoctorAvailability 0 (frozenAt (at_ 10 5)) [tenToHalfPast] 2 5
    (at_ 10 15) 30 None 0%nat
  = Some (mkAvailabilityCheck false [tenToHalfPast]
            [at_ 10 30; at_ 11 0; at_ 11 30], 6%nat).
Proof. by vm_compute. Qed.

End AppointmentProps.

(* ===================================================================== *)
(** * Properties of the queue coordinator *)
(* ===================================================================== *)
Module QueueProps.
Import Queue.

(** ** The sort orders *)

(** Comparing two stored priorities compares their string ranks:
    "high" < "low" < "medium". *)
Lemma comparePriority_stringRank a b :
  comparePriority a b
  = Nat.compare (stringRank (priority a)) (stringRank (priority b)).
Proof. unfold comparePriority. by destruct (priority a), (priority b). Qed.

Lemma notAfter_compareRecalculate a b :
  notAfter compareRecalculate a b ↔
  stringRank (priority b) < stringRank (priority a)
  ∨ (stringRank (priority a) = stringRank (priority b)
     ∧ (checkInTime a ≤ checkInTime b)%Z).
Proof.
  unfold notAfter, compareRecalculate, thenBy, descending.
  rewrite comparePriority_stringRank.
  destruct (Nat.compare_spec (stringRank (priority a))
              (stringRank (priority b))); cbn;
    [rewrite Z.compare_gt_iff | |]; intuition (congruence || lia).
Qed.

Lemma notAfter_compareCallNext a b :
  notAfter compareCallNext a b ↔
  stringRank (priority b) < stringRank (priority a)
  ∨ (stringRank (priority a) = stringRank (priority b)
     ∧ (position a < position b
        ∨ (position a = position b
           ∧ (checkInTime a ≤ checkInTime b)%Z))).
Proof.
  unfold notAfter, compareCallNext, thenBy, descending.
  rewrite comparePriority_stringRank.
  destruct (Nat.compare_spec (stringRank (priority a))
              (stringRank (priority b))); cbn;
    [destruct (Nat.compare_spec (position a) (position b));
       [rewrite Z.compare_gt_iff | |] | |];
    intuition (congruence || lia).
Qed.

Lemma notAfter_comparePositionDesc a b :
  notAfter comparePositionDesc a b ↔ position b ≤ position a.
Proof.
  unfold notAfter, comparePositionDesc, descending.
  destruct (Nat.compare_spec (position a) (position b)); cbn;
    intuition (congruence || lia).
Qed.

Global Instance compareRecalculate_total : Total (notAfter compareRecalculate).
Proof. intros a b. rewrite !notAfter_compareRecalculate. lia. Qed.

Global Instance compareRecalculate_trans :
  Transitive (notAfter compareRecalculate).
Proof. intros a b c. rewrite !notAfter_compareRecalculate. lia. Qed.

Global Instance compareCallNext_total : Total (notAfter compareCallNext).
Proof. intros a b. rewrite !notAfter_compareCallNext. lia. Qed.

Global Instance compareCallNext_trans : Transitive (notAfter compareCallNext).
Proof. intros a b c. rewrite !notAfter_compareCallNext. lia. Qed.

Global Instance comparePositionDesc_total :
  Total (notAfter comparePositionDesc).
Proof. intros a b. rewrite !notAfter_comparePositionDesc. lia. Qed.

Global Instance comparePositionDesc_trans :
  Transitive (notAfter comparePositionDesc).
Proof. intros a b c. rewrite !notAfter_comparePositionDesc. lia. Qed.

(** [sort] returns its argument rearranged and in order. *)
Lemma sort_Permutation cmp l : sort cmp l ≡ₚ l.
Proof. apply merge_sort_Permutation. Qed.

Lemma sort_StronglySorted cmp l :
  Total (notAfter cmp) → Transitive (notAfter cmp) →
  StronglySorted (notAfter cmp) (sort cmp l).
Proof. intros. by apply StronglySorted_merge_sort. Qed.

(** The first document of a sorted result comes before all the others. *)
Lemma head_sort_least cmp l e :
  Total (notAfter cmp) → Transitive (notAfter cmp) →
  head (sort cmp l) = Some e →
  e ∈ l ∧ ∀ w, w ∈ l → notAfter cmp e w.
Proof.
  intros Htot Htr Hhd.
  pose proof (sort_StronglySorted cmp l Htot Htr) as Hs.
  pose proof (sort_Permutation cmp l) as Hp.
  destruct (sort cmp l) as [|x xs]; [done|]. injection Hhd as ->.
  apply StronglySorted_inv in Hs as [_ Hall]. rewrite Forall_forall in Hall.
  split; [rewrite <- Hp; left|].
  intros w Hw. rewrite <- Hp in Hw. apply elem_of_cons in Hw as [->|Hw].
  - destruct (Htot e e); done.
  - by apply Hall.
Qed.

Lemma head_sort_None cmp l : head (sort cmp l) = None ↔ l = [].
Proof.
  pose proof (sort_Permutation cmp l) as Hp. split.
  - intros H. destruct (sort cmp l); [|done].
    by apply Permutation_nil_l in Hp.
  - intros ->. done.
Qed.

Lemma StronglySorted_lookup {A} (R : relation A) l i j x y :
  StronglySorted R l → l !! i = Some x → l !! j = Some y → i < j → R x y.
Proof.
  intros Hs. revert i j. induction Hs as [|z l Hs IH Hall]; intros i j.
  - done.
  - destruct i as [|i], j as [|j]; cbn; try lia.
    + intros [= ->] Hy _. rewrite Forall_forall in Hall. apply Hall.
      by eapply list_elem_of_lookup_2.
    + intros Hx Hy Hlt. apply (IH i j); [done | done | lia].
Qed.


(** ** Stored documents under updates *)

Lemma applyUpdate_positionUpdate_fields p e :
  let e' := applyUpdate (positionUpdate p) e in
  _id e' = _id e ∧ status e' = status e ∧ priority e' = priority e
  ∧ checkInTime e' = checkInTime e ∧ position e' = p.
Proof. done. Qed.

Lemma renumber_fields i ws e :
  _id (renumber i ws e) = _id e ∧ status (renumber i ws e) = status e
  ∧ priority (renumber i ws e) = priority e
  ∧ checkInTime (renumber i ws e) = checkInTime e.
Proof. unfold renumber. by repeat case_match. Qed.

Lemma filter_fmap_preserved {A} (P : A → Prop) `{!∀ x, Decision (P x)}
    (f : A → A) (l : list A) :
  (∀ x, P (f x) ↔ P x) → filter P (f <$> l) = f <$> filter P l.
Proof.
  intros Hf. induction l as [|x l IH]; [done|]. csimpl.
  rewrite !filter_cons. destruct (decide (P x)) as [Hx|Hx].
  - rewrite decide_True by by apply Hf. csimpl. by rewrite IH.
  - rewrite decide_False by by rewrite Hf. done.
Qed.

(** The loop of [recalculatePositions] renumbers the documents whose
    identifiers it is given and touches nothing else. *)
Lemma assignPositions_renumber ws :
  ∀ i q, NoDup (_id <$> ws) → assignPositions i ws q = renumber i ws <$> q.
Proof.
  induction ws as [|w ws IH]; intros i q Hnd.
  - cbn. rewrite <- (list_fmap_id q) at 1. by apply list_fmap_ext.
  - cbn [assignPositions]. apply NoDup_cons in Hnd as [Hw Hnd].
    rewrite IH by done. unfold findByIdAndUpdate.
    rewrite <- list_fmap_compose. apply list_fmap_ext. intros _ e _. cbn.
    unfold renumber. cbn [list_find].
    destruct (decide (_id e = _id w)) as [E|E].
    + rewrite decide_True by done. cbn.
      assert (list_find (λ w', _id w' = _id e) ws = None) as ->.
      { apply list_find_None, Forall_forall. intros w' Hw' E'.
        apply Hw. rewrite <- E, <- E'. by apply list_elem_of_fmap_2. }
      by rewrite Nat.add_0_r.
    + rewrite decide_False by done.
      destruct (list_find _ ws) as [[k w']|]; cbn; [|done].
      do 2 f_equal. unfold positionUpdate. do 2 f_equal. lia.
Qed.

(** In a list without repeated identifiers, a document is found at its own
    index. *)
Lemma list_find_own_index (ws : list IQueue) k w :
  NoDup (_id <$> ws) → ws !! k = Some w →
  list_find (λ w', _id w' = _id w) ws = Some (k, w).
Proof.
  intros Hnd Hk. apply list_find_Some. repeat split; [done|].
  intros j y Hj Hlt E.
  assert (j = k); [|lia].
  eapply (NoDup_lookup _ _ _ (_id w) Hnd); rewrite list_lookup_fmap.
  - by rewrite Hj, <- E.
  - by rewrite Hk.
Qed.

Lemma renumber_position i (ws : list IQueue) k w :
  NoDup (_id <$> ws) → ws !! k = Some w →
  position (renumber i ws w) = i + k + 1.
Proof.
  intros Hnd Hk. unfold renumber.
  by rewrite (list_find_own_index ws k w).
Qed.


(** ** Position recalculation *)

Lemma NoDup_fmap_filter {A B} (f : A → B) (P : A → Prop)
    `{!∀ x, Decision (P x)} (l : list A) :
  NoDup (f <$> l) → NoDup (f <$> filter P l).
Proof.
  induction l as [|x l IH]; [done|]. csimpl.
  intros [Hx Hl]%NoDup_cons. rewrite filter_cons.
  destruct (decide (P x)); [|by apply IH]. csimpl.
  apply NoDup_cons. split; [|by apply IH].
  intros (y & E & Hy%list_elem_of_filter)%list_elem_of_fmap.
  apply Hx. rewrite E. apply list_elem_of_fmap_2. tauto.
Qed.

Lemma sorted_waiting_NoDup q :
  NoDup (_id <$> q) →
  NoDup (_id <$> sort compareRecalculate (findWaiting q)).
Proof.
  intros Hnd. rewrite sort_Permutation. by apply NoDup_fmap_filter.
Qed.

(** Recalculation rewrites the collection document by document. *)
Lemma recalculatePositions_renumber q :
  NoDup (_id <$> q) →
  recalculatePositions q
  = renumber 0 (sort compareRecalculate (findWaiting q)) <$> q.
Proof.
  intros Hnd. unfold recalculatePositions.
  by apply assignPositions_renumber, sorted_waiting_NoDup.
Qed.

(** It selects the waiting documents: the others are left as they are,
    and a waiting one keeps everything but its position. *)
Lemma recalculatePositions_other q e :
  NoDup (_id <$> q) → e ∈ q → status e ≠ waiting →
  renumber 0 (sort compareRecalculate (findWaiting q)) e = e.
Proof.
  intros Hnd He Hs. unfold renumber.
  destruct (list_find _ _) as [[k w]|] eqn:E; [|done]. exfalso.
  apply list_find_Some in E as (Hk & Hid & _).
  apply list_elem_of_lookup_2 in Hk. rewrite sort_Permutation in Hk.
  apply list_elem_of_filter in Hk as [Hw Hin].
  assert (w = e); [|congruence].
  apply list_elem_of_lookup_1 in Hin as [i Hi].
  apply list_elem_of_lookup_1 in He as [j Hj].
  assert (i = j); [|congruence].
  eapply (NoDup_lookup _ _ _ (_id e) Hnd); rewrite list_lookup_fmap.
  - by rewrite Hi, <- Hid.
  - by rewrite Hj.
Qed.

Lemma recalculatePositions_ids q :
  NoDup (_id <$> q) → _id <$> recalculatePositions q = _id <$> q.
Proof.
  intros Hnd. rewrite recalculatePositions_renumber by done.
  rewrite <- list_fmap_compose. apply list_fmap_ext. intros _ e _.
  apply renumber_fields.
Qed.

Lemma findWaiting_recalculatePositions q :
  NoDup (_id <$> q) →
  findWaiting (recalculatePositions q)
  = renumber 0 (sort compareRecalculate (findWaiting q)) <$> findWaiting q.
Proof.
  intros Hnd. rewrite recalculatePositions_renumber by done.
  unfold findWaiting at 1. apply filter_fmap_preserved.
  intros e. by destruct (renumber_fields 0
    (sort compareRecalculate (findWaiting q)) e) as (_ & -> & _).
Qed.

(** The documents of the sorted waiting list get positions 1, 2, ... in
    that order. *)
Lemma renumber_sorted_positions (ws : list IQueue) :
  NoDup (_id <$> ws) →
  position <$> (renumber 0 ws <$> ws) = seq 1 (length ws).
Proof.
  intros Hnd. apply list_eq. intros k.
  rewrite !list_lookup_fmap.
  destruct (ws !! k) as [w|] eqn:Hk; cbn.
  - rewrite (renumber_position 0 ws k w) by done.
    rewrite lookup_seq_lt by (by eapply lookup_lt_Some). f_equal. lia.
  - rewrite lookup_seq_ge; [done|]. by apply lookup_ge_None.
Qed.

(** After recalculation the positions of the waiting entries are exactly
    1..N. *)
Lemma recalculatePositions_contiguous q :
  NoDup (_id <$> q) → positionsContiguous (recalculatePositions q).
Proof.
  intros Hnd. unfold positionsContiguous.
  rewrite findWaiting_recalculatePositions by done.
  set (ws := sort compareRecalculate (findWaiting q)).
  rewrite length_fmap.
  assert (Hp : ws ≡ₚ findWaiting q) by apply sort_Permutation.
  rewrite <- Hp. rewrite renumber_sorted_positions.
  - done.
  - by apply sorted_waiting_NoDup.
Qed.

(** After recalculation, reading the waiting entries by position gives
    them in the order of the sort. *)
Lemma recalculatePositions_sorted q :
  NoDup (_id <$> q) →
  orderedBy (notAfter compareRecalculate) (recalculatePositions q).
Proof.
  intros Hnd a' b'. rewrite findWaiting_recalculatePositions by done.
  set (ws := sort compareRecalculate (findWaiting q)).
  assert (Hp : ws ≡ₚ findWaiting q) by apply sort_Permutation.
  assert (Hws : NoDup (_id <$> ws)) by by apply sorted_waiting_NoDup.
  intros (a & -> & Ha)%list_elem_of_fmap (b & -> & Hb)%list_elem_of_fmap.
  rewrite <- Hp in Ha, Hb.
  apply list_elem_of_lookup_1 in Ha as [i Hi].
  apply list_elem_of_lookup_1 in Hb as [j Hj].
  rewrite (renumber_position 0 ws i a), (renumber_position 0 ws j b) by done.
  intros Hlt.
  assert (notAfter compareRecalculate a b) as Hab.
  { eapply (StronglySorted_lookup _ ws i j); [|done|done|lia].
    apply sort_StronglySorted; apply _. }
  apply notAfter_compareRecalculate in Hab.
  apply notAfter_compareRecalculate.
  destruct (renumber_fields 0 ws a) as (_ & _ & -> & ->).
  by destruct (renumber_fields 0 ws b) as (_ & _ & -> & ->).
Qed.


(** ** Identifiers under the operations of the service *)

Lemma findByIdAndUpdate_ids id u q :
  _id <$> findByIdAndUpdate id u q = _id <$> q.
Proof.
  unfold findByIdAndUpdate. rewrite <- list_fmap_compose.
  apply list_fmap_ext. intros _ e _. cbn. by case_decide.
Qed.

Lemma save_ids d q : _id <$> save d q = _id <$> q.
Proof.
  unfold save. rewrite <- list_fmap_compose.
  apply list_fmap_ext. intros _ e _. cbn. by case_decide.
Qed.

Lemma freshId_fresh q : freshId q ∉ _id <$> q.
Proof.
  intros H%max_list_elem_of_le. unfold freshId in H. lia.
Qed.

(** A request that recalculates ends with [recalculatePositions] on a
    collection with the identifiers it started from. *)
Lemma perform_recalculates staff now op q q' :
  recalculates op = true → perform staff now op q = Ok q' →
  ∃ q1, _id <$> q1 = _id <$> q ∧ q' = recalculatePositions q1.
Proof.
  destruct op as [v p pr w|id u|c|id r|]; cbn; [done| | | |].
  - intros Hw%bool_decide_eq_true. unfold updateQueueStatus.
    repeat case_match; simplify_eq; try done; intros ?; simplify_eq;
      eexists; (split; [apply findByIdAndUpdate_ids | done]).
  - intros _. unfold callNextPatient.
    repeat case_match; simplify_eq; try done; intros ?; simplify_eq;
      eexists; (split; [apply save_ids | done]).
  - intros _. unfold removeFromQueue.
    repeat case_match; simplify_eq; try done; intros ?; simplify_eq;
      eexists; (split; [apply findByIdAndUpdate_ids | done]).
  - intros _ [= <-]. by exists q.
Qed.

(** No request makes two documents share an identifier. *)
Lemma perform_NoDup staff now op q q' :
  NoDup (_id <$> q) → perform staff now op q = Ok q' → NoDup (_id <$> q').
Proof.
  intros Hnd. destruct (recalculates op) eqn:Hr.
  - intros (q1 & Hids & ->)%perform_recalculates; [|done].
    rewrite recalculatePositions_ids; by rewrite Hids.
  - destruct op as [v p pr w|id u|c|id r|]; try done; cbn.
    + clear Hr. unfold addToQueue.
      destruct (head (filter _ q)); [done|].
      destruct (validateNumbers _); [|done]. cbn. intros [= <-].
      rewrite fmap_app. apply NoDup_app. split; [done|]. split.
      * intros x Hx [->|[]%elem_of_nil]%elem_of_cons. cbn in Hx.
        by apply freshId_fresh in Hx.
      * apply NoDup_singleton.
    + apply bool_decide_eq_false in Hr. unfold updateQueueStatus.
      repeat case_match; simplify_eq; try done; intros ?; simplify_eq;
        by rewrite findByIdAndUpdate_ids.
Qed.

Lemma step_NoDup staff q req :
  NoDup (_id <$> q) → NoDup (_id <$> step staff q req).
Proof.
  intros Hnd. unfold step.
  destruct (perform staff req.1 req.2 q) as [q'|] eqn:E; [|done].
  by eapply perform_NoDup.
Qed.

Lemma run_NoDup staff reqs :
  ∀ q, NoDup (_id <$> q) → NoDup (_id <$> run staff reqs q).
Proof.
  unfold run. induction reqs as [|req reqs IH]; intros q Hnd; [done|].
  cbn. by apply IH, step_NoDup.
Qed.


(** ** The position invariant *)

Lemma orderedBy_arrivalOrder q :
  orderedBy (notAfter compareRecalculate) q → orderedBy arrivalOrder q.
Proof.
  intros Ho a b Ha Hb Hlt Hp.
  specialize (Ho a b Ha Hb Hlt). apply notAfter_compareRecalculate in Ho.
  rewrite Hp in Ho. lia.
Qed.

(** From a collection without repeated identifiers and after any sequence
    of requests, a request that the service follows with a recalculation
    (call next, remove, explicit recalculation, status update into
    waiting) and that succeeds leaves the waiting entries with exactly the
    positions 1..N and, within one priority, in order of check-in time. *)
Lemma recalculating_requests_restore_positions staff reqs q0 now op q' :
  NoDup (_id <$> q0) →
  recalculates op = true →
  perform staff now op (run staff reqs q0) = Ok q' →
  positionsContiguous q' ∧ orderedBy arrivalOrder q'.
Proof.
  intros Hnd Hr Hp.
  apply perform_recalculates in Hp as (q1 & Hids & ->); [|done].
  assert (NoDup (_id <$> q1)) by (rewrite Hids; by apply run_NoDup).
  split.
  - by apply recalculatePositions_contiguous.
  - by apply orderedBy_arrivalOrder, recalculatePositions_sorted.
Qed.

Lemma recalculating_requests_restore_positions_witness :
  NoDup (_id <$> ([] : list IQueue))
  ∧ recalculates OpRecalculatePositions = true
  ∧ perform onDuty 60000 OpRecalculatePositions (run onDuty threeCheckIns [])
    = Ok (recalculatePositions threeArrivals)
  ∧ positionsContiguous (recalculatePositions threeArrivals)
  ∧ orderedBy arrivalOrder (recalculatePositions threeArrivals).
Proof.
  split; [constructor|]. split; [reflexivity|]. split; [reflexivity|].
  apply (recalculating_requests_restore_positions onDuty threeCheckIns []
           60000 OpRecalculatePositions (recalculatePositions threeArrivals));
    [constructor | reflexivity | reflexivity].
Defined.

(** Insertion: the new entry gets the largest waiting position plus one,
    so it keeps the positions 1..N when they were so, but it is not sorted
    in. *)
Lemma getNextPosition_max q :
  getNextPosition q = max_list (position <$> findWaiting q) + 1.
Proof.
  unfold getNextPosition.
  destruct (head (sort comparePositionDesc (findWaiting q))) as [e|] eqn:He.
  - apply head_sort_least in He as [Hin Hleast]; [|apply _..].
    f_equal. apply Nat.le_antisymm.
    + by apply max_list_elem_of_le, list_elem_of_fmap_2.
    + assert (position <$> findWaiting q ≠ []) as Hne.
      { intros Hnil%fmap_nil_inv. rewrite Hnil in Hin.
        by apply elem_of_nil in Hin. }
      apply max_list_elem_of, list_elem_of_fmap in Hne as (w & -> & Hw).
      by apply notAfter_comparePositionDesc, Hleast.
  - apply head_sort_None in He. by rewrite He.
Qed.

Lemma max_list_seq j n :
  max_list (seq (S j) n) = match n with 0 => 0 | S _ => j + n end.
Proof.
  revert j. induction n as [|n IH]; intros j; [done|].
  cbn [seq max_list max_list_with]. rewrite IH. unfold id.
  destruct n; lia.
Qed.

Lemma addToQueue_contiguous now visitId patientId pr wait q q' queueEntry :
  positionsContiguous q →
  addToQueue now visitId patientId pr wait q = Ok (q', queueEntry) →
  position queueEntry = length (findWaiting q) + 1
  ∧ positionsContiguous q'.
Proof.
  unfold positionsContiguous, addToQueue. intros Hc.
  destruct (head (filter _ q)); [done|].
  destruct (validateNumbers _); [|done]. cbn [negb].
  intros [= <- <-]. cbn [position].
  assert (getNextPosition q = length (findWaiting q) + 1) as Hn.
  { rewrite getNextPosition_max, Hc, max_list_seq.
    destruct (length (findWaiting q)); lia. }
  split; [done|].
  unfold findWaiting in *. set (l := filter _ q) in *.
  rewrite filter_app. fold l.
  rewrite filter_cons_True, filter_nil by reflexivity.
  rewrite fmap_app, length_app, Hc. cbn [fmap list_fmap position length].
  rewrite Hn, (Nat.add_1_r (length l)), seq_S. done.
Qed.

(** Insertion gives the new entry the last position without sorting it
    in: after the three check-ins the low-priority entry is ahead of the
    medium-priority one. *)
Example addToQueue_does_not_sort :
  (λ e, (priority e, position e)) <$> threeArrivals
  = [(high, 1); (low, 2); (medium, 3)].
Proof. by vm_compute. Qed.

(** C1.  Recalculation numbers the three arrivals medium 1, low 2,
    high 3: the priorities are compared as the strings they are stored
    as. *)
Theorem recalculatePositions_three_arrivals :
  (λ e, (priority e, checkInTime e, status e)) <$> threeArrivals
  = [(high, 0%Z, waiting); (low, 20000%Z, waiting);
     (medium, 40000%Z, waiting)]
  ∧ (λ e, (priority e, position e)) <$> recalculatePositions threeArrivals
    = [(high, 3); (low, 2); (medium, 1)].
Proof. split; by vm_compute. Qed.


(** ** Looking documents up *)

(** *** Positions under requests that do not recalculate *)

(** An update that takes its entry out of waiting, or touches an entry that
    was not waiting, removes at most one position from the waiting ones. *)
Lemma findWaiting_leave id u st (q : list IQueue) :
  set_status u = Some st → st ≠ waiting → set_position u = None →
  position <$> findWaiting (findByIdAndUpdate id u q)
  `sublist_of` position <$> findWaiting q.
Proof.
  intros Hs Hst Hp. unfold findWaiting, findByIdAndUpdate.
  induction q as [|x q IH]; [done|]. csimpl. rewrite !filter_cons.
  destruct (decide (_id x = id)) as [E|E].
  - rewrite decide_False by (cbn; by rewrite Hs).
    destruct (decide (status x = waiting)); [by apply sublist_cons|done].
  - destruct (decide (status x = waiting)); [by apply sublist_skip|done].
Qed.

(** No request gives two waiting entries the same position. *)
Lemma perform_positions_distinct staff now op q q' :
  NoDup (_id <$> q) → NoDup (position <$> findWaiting q) →
  perform staff now op q = Ok q' →
  NoDup (position <$> findWaiting q').
Proof.
  intros Hnd Hpos Hp. destruct (recalculates op) eqn:Hr.
  - apply perform_recalculates in Hp as (q1 & Hids & ->); [|done].
    assert (NoDup (_id <$> q1)) as Hnd1 by (by rewrite Hids).
    pose proof (recalculatePositions_contiguous q1 Hnd1) as Hc.
    unfold positionsContiguous in Hc. rewrite Hc. apply NoDup_seq.
  - destruct op as [v p pr w|id u|c|id r|]; try done; cbn in Hp.
    + clear Hr. revert Hp. unfold addToQueue.
      destruct (head (filter _ q)); [done|].
      destruct (validateNumbers _); [|done]. cbn [negb]. intros [= <-].
      unfold findWaiting in *. rewrite filter_app.
      rewrite filter_cons_True, filter_nil by reflexivity.
      rewrite fmap_app. apply NoDup_app. split; [done|].
      split; [|apply NoDup_singleton].
      intros x Hx ->%list_elem_of_singleton. cbn in Hx.
      apply max_list_elem_of_le in Hx.
      fold (findWaiting q) in Hx. rewrite getNextPosition_max in Hx. lia.
    + apply bool_decide_eq_false in Hr. revert Hp. unfold updateQueueStatus.
      destruct (findById id q) as [e|]; [|done]. cbv zeta.
      destruct (negb (isValidStatusTransition _ _)); [done|].
      destruct (negb (validateStrings _)); [done|].
      destruct (findById id (findByIdAndUpdate _ _ _)); [|done].
      rewrite decide_False by done. intros [= <-].
      eapply sublist_NoDup; [exact Hpos|].
      by apply (findWaiting_leave id _ (upd_status u)).
Qed.

Lemma run_positions_distinct staff reqs :
  ∀ q, NoDup (_id <$> q) → NoDup (position <$> findWaiting q) →
       NoDup (position <$> findWaiting (run staff reqs q)).
Proof.
  unfold run. induction reqs as [|req reqs IH]; intros q Hnd Hpos; [done|].
  cbn [foldl]. apply IH; [by apply step_NoDup|]. unfold step.
  destruct (perform staff req.1 req.2 q) as [q'|] eqn:E; [|done].
  by eapply perform_positions_distinct.
Qed.

(** C2.  The positions of the waiting entries are not always 1..N in
    priority order: a status update that takes an entry out of waiting
    does not renumber, and an insertion does not sort the new entry in.
    Two patients check in and wait at positions 1 and 2.  When the first
    is moved to in-progress (or cancelled) by a status update, the other
    keeps position 2, so the positions are not 1..N; when the first leaves
    the waiting list by a call or a removal instead, the other gets
    position 1.  And a medium-priority patient who checks in after a
    low-priority one waits at position 2 behind it, until a recalculation
    moves the medium entry to position 1. *)
Theorem status_update_out_of_waiting_leaves_gap :
  let arrived :=
    run onDuty
      [(0, OpAddToQueue 11 21 low 15); (20000, OpAddToQueue 12 22 low 15)]%Z
      [] in
  let after (op : Op) := run onDuty [(60000%Z, op)] arrived in
  let lowThenMedium :=
    run onDuty
      [(0, OpAddToQueue 11 21 low 15); (20000, OpAddToQueue 12 22 medium 15)]%Z
      [] in
  position <$> findWaiting arrived = [1; 2]
  ∧ position <$> findWaiting
      (after (OpUpdateQueueStatus 1 (statusOnly in_progress))) = [2]
  ∧ position <$> findWaiting
      (after (OpUpdateQueueStatus 1 (statusOnly cancelled))) = [2]
  ∧ ¬ positionInvariant
        (after (OpUpdateQueueStatus 1 (statusOnly in_progress)))
  ∧ position <$> findWaiting
      (after (OpCallNextPatient (mkNextPatientCall 9 None))) = [1]
  ∧ position <$> findWaiting
      (after (OpRemoveFromQueue 1 "Manual removal")) = [1]
  ∧ (λ e, (priority e, position e)) <$> findWaiting lowThenMedium
    = [(low, 1); (medium, 2)]
  ∧ (λ e, (priority e, position e)) <$> findWaiting
      (run onDuty [(60000%Z, OpRecalculatePositions)] lowThenMedium)
    = [(low, 2); (medium, 1)].
Proof.
  cbv zeta. repeat split; try by vm_compute.
  intros [Hc _]. unfold positionsContiguous in Hc.
  vm_compute in Hc. by apply Permutation_singleton_inj in Hc.
Qed.

Lemma filter_empty_iff {A} (P : A → Prop) `{!∀ x, Decision (P x)}
    (l : list A) :
  filter P l = [] ↔ ∀ x, x ∈ l → ¬ P x.
Proof.
  split.
  - intros Hf x Hx Hp. by eapply filter_nil_not_elem_of.
  - induction l as [|x l IH]; [done|]. intros Hn.
    rewrite filter_cons_False by (apply Hn; left).
    apply IH. intros y Hy. apply Hn. by right.
Qed.

Lemma head_filter_elem_of {A} (P : A → Prop) `{!∀ x, Decision (P x)}
    (l : list A) x :
  head (filter P l) = Some x → x ∈ l ∧ P x.
Proof.
  intros Hx%head_Some_elem_of. apply list_elem_of_filter in Hx. tauto.
Qed.

Lemma findActiveDoctor_None doctorId staff :
  findActiveDoctor doctorId staff = None ↔
  ∀ s, s ∈ staff →
       ¬ (staff_id s = doctorId ∧ role s = doctor_role ∧ isActive s = true).
Proof. unfold findActiveDoctor. by rewrite head_None, filter_empty_iff. Qed.


Lemma findById_Some id q e : findById id q = Some e → e ∈ q ∧ _id e = id.
Proof.
  unfold findById. intros He.
  by apply (head_filter_elem_of (λ e, _id e = id)) in He.
Qed.

(** The document read back after an update by identifier is the stored
    one with the update applied. *)
Lemma findById_findByIdAndUpdate id u q :
  findById id (findByIdAndUpdate id u q) = applyUpdate u <$> findById id q.
Proof.
  unfold findById, findByIdAndUpdate.
  induction q as [|x q IH]; [done|]. csimpl. rewrite !filter_cons.
  destruct (decide (_id x = id)) as [E|E].
  - by rewrite decide_True.
  - by rewrite decide_False.
Qed.

(** ** callNextPatient *)

(** The update [callNextPatient] makes to the entry it selected. *)
Lemma callNextPatient_cases staff now callData q :
  match callNextPatient staff now callData q with
  | Throw e =>
      (e = DoctorNotFoundOrInactive
       ∧ findActiveDoctor (call_doctorId callData) staff = None)
      ∨ (e = NoPatientsWaiting
         ∧ is_Some (findActiveDoctor (call_doctorId callData) staff)
         ∧ findWaiting q = [])
      ∨ (e = ValidationError
         ∧ is_Some (findActiveDoctor (call_doctorId callData) staff)
         ∧ ∃ nextPatient,
             nextPatient ∈ findWaiting q
             ∧ validateSave staff
                 (applyUpdate (callAssignments now callData) nextPatient)
               = false)
  | Ok (q', called) =>
      is_Some (findActiveDoctor (call_doctorId callData) staff)
      ∧ validateSave staff called = true
      ∧ ∃ nextPatient,
          nextPatient ∈ findWaiting q
          ∧ (∀ w, w ∈ findWaiting q → notAfter compareCallNext nextPatient w)
          ∧ called = applyUpdate (callAssignments now callData) nextPatient
          ∧ q' = recalculatePositions (save called q)
  end.
Proof.
  unfold callNextPatient. cbv zeta.
  destruct (findActiveDoctor _ staff) as [d|] eqn:Hd; [|by left].
  destruct (head (sort compareCallNext (findWaiting q))) as [e|] eqn:He.
  - apply head_sort_least in He as [Hin Hleast]; [|apply _..].
    destruct (validateSave staff
                (applyUpdate (callAssignments now callData) e)) eqn:Hv;
      cbn [negb].
    + split; [by eexists|]. split; [done|]. exists e. by repeat split.
    + right; right. split; [done|]. split; [by eexists|]. by exists e.
  - right; left. apply head_sort_None in He. by repeat split; [eexists|].
Qed.

(** C5.  With the three arrivals waiting (high at position 1, low at 2,
    medium at 3), doctor 9 calling next gets the medium-priority entry:
    the sort key [priority: -1] puts the string "medium" first.  The
    high-priority entry stays waiting. *)
Theorem callNextPatient_passes_over_high_priority :
  ∃ q' called,
    callNextPatient onDuty 60000 (mkNextPatientCall 9 None) threeArrivals
    = Ok (q', called)
    ∧ priority called = medium
    ∧ status called = in_progress
    ∧ (λ e, (priority e, status e, position e)) <$> q'
      = [(high, waiting, 2); (low, waiting, 1); (medium, in_progress, 3)].
Proof. eexists _, _. split; [by vm_compute|]. by vm_compute. Qed.


(** ** Status transitions *)


(** The string validators see the room and the notes of the request,
    trimmed. *)
Lemma validateStrings_updateWithTiming now queueEntry updateData :
  validateStrings (updateWithTiming now queueEntry updateData)
  = maxlength 20 (trim <$> upd_assignedRoom updateData)
    && maxlength 1000 (trim <$> upd_notes updateData).
Proof. done. Qed.

(** [updateQueueStatus] on a stored entry succeeds exactly on those
    transitions when the request passes validation; otherwise it throws
    the invalid-transition error or, after it, the validation error. *)
Lemma updateQueueStatus_accepts now queueId updateData q queueEntry :
  findById queueId q = Some queueEntry →
  match updateQueueStatus now queueId updateData q with
  | Ok (_, updatedQueue) =>
      isValidStatusTransition (status queueEntry) (upd_status updateData)
      = true
      ∧ validateStrings (updateWithTiming now queueEntry updateData) = true
      ∧ status updatedQueue = upd_status updateData
  | Throw e =>
      (isValidStatusTransition (status queueEntry) (upd_status updateData)
       = false
       ∧ e = InvalidStatusTransition (status queueEntry)
               (upd_status updateData))
      ∨ (isValidStatusTransition (status queueEntry) (upd_status updateData)
         = true
         ∧ validateStrings (updateWithTiming now queueEntry updateData)
           = false
         ∧ e = ValidationError)
  end.
Proof.
  intros Hf. unfold updateQueueStatus. rewrite Hf. cbv zeta.
  destruct (isValidStatusTransition _ _); cbn [negb]; [|by left].
  destruct (validateStrings _); cbn [negb]; [|by right].
  rewrite findById_findByIdAndUpdate, Hf. cbn. done.
Qed.

(** The result of an allowed transition that passes validation. *)
Lemma updateQueueStatus_ok now queueId updateData q queueEntry :
  findById queueId q = Some queueEntry →
  isValidStatusTransition (status queueEntry) (upd_status updateData) = true →
  validateStrings (updateWithTiming now queueEntry updateData) = true →
  updateQueueStatus now queueId updateData q
  = Ok ((if decide (upd_status updateData = waiting)
         then recalculatePositions else id)
          (findByIdAndUpdate queueId
             (updateWithTiming now queueEntry updateData) q),
        applyUpdate (updateWithTiming now queueEntry updateData) queueEntry).
Proof.
  intros Hf Hv Hs. unfold updateQueueStatus. cbv zeta.
  rewrite Hf, Hv, Hs. cbn [negb].
  rewrite findById_findByIdAndUpdate, Hf. cbn. by case_decide.
Qed.


(** waiting, then in-progress, then completed always succeeds. *)
Lemma updateQueueStatus_waiting_to_completed now1 now2 queueId u1 u2 q e :
  findById queueId q = Some e → status e = waiting →
  upd_status u1 = in_progress → upd_status u2 = completed →
  validateStrings (updateWithTiming now1 e u1) = true →
  validateStrings (updateWithTiming now2 e u2) = true →
  ∃ q1 e1 q2 e2,
    updateQueueStatus now1 queueId u1 q = Ok (q1, e1)
    ∧ updateQueueStatus now2 queueId u2 q1 = Ok (q2, e2)
    ∧ status e1 = in_progress ∧ status e2 = completed.
Proof.
  intros Hf Hs H1 H2 Hv1 Hv2.
  set (e1 := applyUpdate (updateWithTiming now1 e u1) e).
  set (q1 := findByIdAndUpdate queueId (updateWithTiming now1 e u1) q).
  assert (Hf1 : findById queueId q1 = Some e1).
  { unfold q1. by rewrite findById_findByIdAndUpdate, Hf. }
  assert (Hs1 : status e1 = in_progress) by (by cbn).
  exists q1, e1. eexists _, _. split; [|split; [|split]].
  - rewrite (updateQueueStatus_ok now1 queueId u1 q e Hf)
      by (done || by rewrite Hs, H1).
    by rewrite H1, decide_False.
  - by rewrite (updateQueueStatus_ok now2 queueId u2 q1 e1 Hf1)
      by (done || by rewrite Hs1, H2).
  - done.
  - by cbn.
Qed.

(** C6.  [removeFromQueue] does not consult the transition table.  The
    entry of [served] is completed; [isValidStatusTransition] refuses
    completed to cancelled and [updateQueueStatus] throws on it; yet
    [removeFromQueue] succeeds and stores the entry as cancelled. *)
Theorem removeFromQueue_cancels_completed :
  (status <$> findById 1 served) = Some completed
  ∧ isValidStatusTransition completed cancelled = false
  ∧ updateQueueStatus 960000 1 (statusOnly cancelled) served
    = Throw (InvalidStatusTransition completed cancelled)
  ∧ ∃ q' removedEntry,
      removeFromQueue 1 "Manual removal" served = Ok (q', removedEntry)
      ∧ status removedEntry = cancelled
      ∧ (status <$> findById 1 q') = Some cancelled.
Proof.
  split; [by vm_compute|]. split; [by vm_compute|]. split; [by vm_compute|].
  eexists _, _. split; [by vm_compute|]. by vm_compute.
Qed.

(** ** Side effects of a status update *)




End QueueProps.

(* ===================================================================== *)
(** * Wait times, vitals validation and further properties of the scorer *)
(* ===================================================================== *)
Module TriageUtilProps.
Import Triage TriageProps.
Local Open Scope Q_scope.

Lemma lt_true a b : lt a b = true ↔ a < b.
Proof. unfold lt. rewrite negb_true_iff. apply (geq_false a b). Qed.

Lemma lt_false a b : lt a b = false ↔ b <= a.
Proof. unfold lt. rewrite negb_false_iff. apply (geq_true a b). Qed.

Lemma gt_true a b : gt a b = true ↔ b < a.
Proof. unfold gt. rewrite negb_true_iff. apply (leq_false a b). Qed.

Lemma gt_false a b : gt a b = false ↔ a <= b.
Proof. unfold gt. rewrite negb_false_iff. apply (leq_true a b). Qed.

(** ** calculateEstimatedWaitTime *)

Lemma calculateEstimatedWaitTime_integers (n : Z) (avg : option Z) :
  let c := default 15%Z avg in
  calculateEstimatedWaitTime (inject_Z n) (inject_Z <$> avg)
  = if (n <? 0)%Z then Throws NumberAheadNegative
    else if (c <=? 0)%Z then Throws ConsultTimeNotPositive
    else Returns (inject_Z (Z.max (n * c) c)).
Proof.
  cbv zeta. unfold calculateEstimatedWaitTime, lt, leq, Math_max.
  assert (default 15 (inject_Z <$> avg) = inject_Z (default 15%Z avg)) as ->
    by (by destruct avg).
  set (c := default 15%Z avg).
  change (inject_Z n * inject_Z c) with (inject_Z (n * c)).
  unfold Qle_bool. cbn [Qnum Qden inject_Z]. rewrite !Z.mul_1_r.
  destruct (Z.ltb_spec n 0) as [Hn|Hn].
  - rewrite (proj2 (Z.leb_gt 0 n)) by lia. done.
  - rewrite (proj2 (Z.leb_le 0 n)) by lia. cbn [negb].
    destruct (Z.leb_spec c 0) as [Hc|Hc]; [done|].
    destruct (Z.leb_spec (n * c) c) as [H|H]; f_equal; f_equal; lia.
Qed.

(** X1.  For a count of patients and a number of minutes (integers that,
    like their product, are safe integers, so that the product of the
    source is the exact one) the estimate throws on a negative count, then
    on a consultation time that is not positive, and otherwise returns the
    larger of the product and one consultation time. *)
Theorem wait_time_outcome (n : Z) (avg : option Z) :
  let c := default 15%Z avg in
  isSafeInteger n → isSafeInteger c → isSafeInteger (n * c) →
  calculateEstimatedWaitTime (inject_Z n) (inject_Z <$> avg)
  = if (n <? 0)%Z then Throws NumberAheadNegative
    else if (c <=? 0)%Z then Throws ConsultTimeNotPositive
    else Returns (inject_Z (Z.max (n * c) c)).
Proof. intros c _ _ _. apply calculateEstimatedWaitTime_integers. Qed.

(** The example of the unit test: four patients ahead at 15 minutes. *)
Lemma wait_time_outcome_witness :
  calculateEstimatedWaitTime 4 (Some 15) = Returns 60.
Proof.
  apply (wait_time_outcome 4 (Some 15%Z));
    unfold isSafeInteger; by vm_compute.
Defined.

(** X2.  For counts of patients and a number of minutes (integers that,
    like their products, are safe integers, so that the products of the
    source are the exact ones), among calls that return the estimate does
    not decrease when more patients are ahead; with nobody or one patient
    ahead it is one consultation time, and from one patient ahead on it is
    the product. *)
Theorem wait_time_monotone (n n' : Z) (avg : option Z) w w' :
  let c := default 15%Z avg in
  isSafeInteger n → isSafeInteger n' → isSafeInteger c →
  isSafeInteger (n * c) → isSafeInteger (n' * c) →
  calculateEstimatedWaitTime (inject_Z n) (inject_Z <$> avg) = Returns w →
  calculateEstimatedWaitTime (inject_Z n') (inject_Z <$> avg) = Returns w' →
  (n <= n')%Z →
  w <= w'
  ∧ ((n <= 1)%Z → w = inject_Z c)
  ∧ ((1 <= n)%Z → w = inject_Z (n * c)).
Proof.
  intros c _ _ _ _ _. rewrite !calculateEstimatedWaitTime_integers.
  fold c.
  destruct (Z.ltb_spec n 0) as [Hn|Hn]; [done|].
  destruct (Z.ltb_spec n' 0) as [Hn'|Hn']; [done|].
  destruct (Z.leb_spec c 0) as [Hc|Hc]; [done|].
  intros [= <-] [= <-] Hle.
  split; [|split].
  - rewrite <- Zle_Qle. nia.
  - intros H1. f_equal. nia.
  - intros H1. f_equal. nia.
Qed.

(** The examples of the specification: nobody ahead is quoted 15 minutes,
    four ahead 60. *)
Lemma wait_time_monotone_witness :
  (15 : Q) <= 60
  ∧ ((0 <= 1)%Z → (15 : Q) = inject_Z 15)
  ∧ ((1 <= 0)%Z → (15 : Q) = inject_Z (0 * 15)).
Proof.
  apply (wait_time_monotone 0 4 (Some 15%Z) 15 60);
    unfold isSafeInteger; by vm_compute.
Defined.


(** ** validateVitals *)

Lemma warnUnless_cases lo hi v w ws :
  (within lo hi v ∧ warnUnless lo hi v w ws = ws)
  ∨ (¬ within lo hi v ∧ warnUnless lo hi v w ws = ws ++ [w]).
Proof.
  unfold warnUnless, within.
  destruct (lt v lo) eqn:E1; cbn.
  - apply lt_true in E1. right. split; [lra | done].
  - apply lt_false in E1. destruct (gt v hi) eqn:E2.
    + apply gt_true in E2. right. split; [lra | done].
    + apply gt_false in E2. by left.
Qed.

Lemma warnUnless_nil lo hi v w ws :
  warnUnless lo hi v w ws = [] ↔ ws = [] ∧ within lo hi v.
Proof.
  destruct (warnUnless_cases lo hi v w ws) as [[H ->]|[H ->]].
  - tauto.
  - split; [intros []%app_eq_nil; done | tauto].
Qed.

Lemma warnUnless_length lo hi v w ws :
  (length (warnUnless lo hi v w ws) <= S (length ws))%nat.
Proof.
  destruct (warnUnless_cases lo hi v w ws) as [[H ->]|[H ->]];
    rewrite ?length_app; cbn; lia.
Qed.

Lemma validateVitals_cases vitals :
  let r := validateVitals vitals in
  (isValid r = true ↔ warnings r = [])
  ∧ (warnings r = [] ↔
     within 90 110 (v_temperature vitals)
     ∧ within 30 200 (v_heartRate vitals)
     ∧ within 70 250 (v_bloodPressureSystolic vitals)
     ∧ within 40 150 (v_bloodPressureDiastolic vitals)
     ∧ within 0 10 (v_painLevel vitals))
  ∧ (length (warnings r) <= 5)%nat.
Proof.
  cbv zeta. unfold validateVitals. cbn [isValid warnings].
  split; [|split].
  - rewrite bool_decide_eq_true. apply length_zero_iff_nil.
  - rewrite !warnUnless_nil. tauto.
  - repeat (etrans; [apply warnUnless_length|]; apply le_n_S). cbn. lia.
Qed.

(** X3.  [validateVitals] accepts exactly the vitals that lie in the closed
    ranges 90..110, 30..200, 70..250, 40..150 and 0..10 (the bounds
    themselves are accepted); it is valid exactly when it has no warning,
    and it never has more than five. *)
Theorem validateVitals_accepts_closed_ranges vitals :
  let r := validateVitals vitals in
  (isValid r = true ↔ warnings r = [])
  ∧ (isValid r = true ↔
     within 90 110 (v_temperature vitals)
     ∧ within 30 200 (v_heartRate vitals)
     ∧ within 70 250 (v_bloodPressureSystolic vitals)
     ∧ within 40 150 (v_bloodPressureDiastolic vitals)
     ∧ within 0 10 (v_painLevel vitals))
  ∧ (length (warnings r) <= 5)%nat.
Proof.
  destruct (validateVitals_cases vitals) as (H1 & H2 & H3). cbv zeta in *.
  split; [done|]. split; [by rewrite H1|done].
Qed.


(** ** Vitals that validation flags, seen by the scorer *)

Lemma within_dec lo hi v : {within lo hi v} + {¬ within lo hi v}.
Proof.
  unfold within.
  destruct (Qlt_le_dec v lo) as [?|Hlo]; [right; lra|].
  destruct (Qlt_le_dec hi v) as [?|Hhi]; [right; lra|]. by left.
Qed.

Lemma not_within lo hi v : ¬ within lo hi v → v < lo ∨ hi < v.
Proof.
  unfold within. intros H.
  destruct (Qlt_le_dec v lo) as [?|Hlo]; [by left|].
  destruct (Qlt_le_dec hi v) as [?|Hhi]; [by right|]. tauto.
Qed.

Lemma Qabs_far c x : c <= x ∨ x <= - c → c <= Qabs x.
Proof.
  intros [H|H].
  - apply (Qle_trans _ x); [exact H | apply Qle_Qabs].
  - rewrite <- Qabs_opp. apply (Qle_trans _ (- x)); [lra | apply Qle_Qabs].
Qed.

Lemma flagged_temperature i :
  ¬ within 90 110 (temperature i) → pointsOf scoreTemperature i = 30%Z.
Proof.
  intros H%not_within. unfold pointsOf, scoreTemperature, in_band, add.
  step_cases; exfalso; lra.
Qed.

Lemma flagged_heartRate i :
  ¬ within 30 200 (heartRate i) → pointsOf scoreHeartRate i = 25%Z.
Proof.
  intros H%not_within. unfold pointsOf, scoreHeartRate, in_band, add.
  step_cases; exfalso; lra.
Qed.

Lemma flagged_bloodPressure i :
  ¬ within 70 250 (bloodPressureSystolic i)
  ∨ ¬ within 40 150 (bloodPressureDiastolic i) →
  pointsOf scoreBloodPressure i = 40%Z.
Proof.
  intros H.
  assert (40 <= Qabs (bloodPressureSystolic i - 120)
          ∨ 30 <= Qabs (bloodPressureDiastolic i - 80)) as Hfar.
  { destruct H as [H%not_within|H%not_within];
      [left|right]; apply Qabs_far; lra. }
  revert Hfar.
  unfold pointsOf, scoreBloodPressure, add, Math_abs. cbv zeta.
  unfold TRIAGE_RULES.bloodPressure.systolicCritical,
    TRIAGE_RULES.bloodPressure.diastolicCritical,
    TRIAGE_RULES.bloodPressure.systolicSerious,
    TRIAGE_RULES.bloodPressure.diastolicSerious,
    TRIAGE_RULES.bloodPressure.systolicModerate,
    TRIAGE_RULES.bloodPressure.diastolicModerate.
  generalize (Qabs (bloodPressureSystolic i - 120))
    (Qabs (bloodPressureDiastolic i - 80)).
  intros s d Hfar. step_cases; exfalso; unfold inject_Z in *;
    destruct Hfar; lra.
Qed.

Lemma flagged_pain i : 10 < painLevel i → pointsOf scorePain i = 20%Z.
Proof.
  intros H. unfold pointsOf, scorePain, add. step_cases; exfalso; lra.
Qed.

(** X4.  A vital that [validateVitals] flags is scored in its top tier: a
    temperature outside 90..110 adds 30, a heart rate outside 30..200 adds
    25, a systolic pressure outside 70..250 or a diastolic one outside
    40..150 adds 40, and a pain level above 10 adds 20; only a negative
    pain level is flagged and adds nothing.  So an input that validation
    rejects and whose pain level is not negative scores at least 20. *)
Theorem flagged_vitals_score_top_tier i :
  (¬ within 90 110 (temperature i) → pointsOf scoreTemperature i = 30%Z)
  ∧ (¬ within 30 200 (heartRate i) → pointsOf scoreHeartRate i = 25%Z)
  ∧ (¬ within 70 250 (bloodPressureSystolic i)
     ∨ ¬ within 40 150 (bloodPressureDiastolic i) →
     pointsOf scoreBloodPressure i = 40%Z)
  ∧ (10 < painLevel i → pointsOf scorePain i = 20%Z)
  ∧ (painLevel i < 0 → pointsOf scorePain i = 0%Z)
  ∧ (isValid (validateVitals (vitalsOf i)) = false → 0 <= painLevel i →
     (20 <= score (calculateTriageScore i))%Z).
Proof.
  split; [apply flagged_temperature|]. split; [apply flagged_heartRate|].
  split; [apply flagged_bloodPressure|]. split; [apply flagged_pain|].
  split.
  { intros H. unfold pointsOf, scorePain, add. step_cases; exfalso; lra. }
  intros Hinv Hpain.
  assert (¬ (within 90 110 (temperature i)
             ∧ within 30 200 (heartRate i)
             ∧ within 70 250 (bloodPressureSystolic i)
             ∧ within 40 150 (bloodPressureDiastolic i)
             ∧ within 0 10 (painLevel i))) as Hflag.
  { intros Hall.
    destruct (validateVitals_cases (vitalsOf i)) as (H1 & H2 & _).
    cbv zeta in H1, H2. apply H2, H1 in Hall. congruence. }
  rewrite score_decomposition.
  pose proof (temperature_points i) as Ht.
  pose proof (heartRate_points i) as Hh.
  pose proof (bloodPressure_points i) as Hb.
  pose proof (pain_points i) as Hp.
  pose proof (symptoms_points i) as Hs.
  set_unfold.
  destruct (within_dec 90 110 (temperature i)) as [W1|W1];
    [|rewrite (flagged_temperature i W1); lia].
  destruct (within_dec 30 200 (heartRate i)) as [W2|W2];
    [|rewrite (flagged_heartRate i W2); lia].
  destruct (within_dec 70 250 (bloodPressureSystolic i)) as [W3|W3];
    [|rewrite (flagged_bloodPressure i (or_introl W3)); lia].
  destruct (within_dec 40 150 (bloodPressureDiastolic i)) as [W4|W4];
    [|rewrite (flagged_bloodPressure i (or_intror W4)); lia].
  destruct (within_dec 0 10 (painLevel i)) as [W5|W5]; [tauto|].
  apply not_within in W5 as [W5|W5]; [lra|].
  rewrite (flagged_pain i W5). lia.
Qed.

(** ** Levels and contributing factors *)

Ltac count_points :=
  match goal with
  | |- context [length (filter ?P ?l)] =>
      let n := eval vm_compute in (length (filter P l)) in
      change (length (filter P l)) with n
  end;
  cbn [fst snd]; rewrite ?length_app; cbn [length]; lia.

Lemma scoreTemperature_factor i acc :
  length (snd (scoreTemperature i acc))
  = (length (snd acc)
     + length (filter (λ p, p ≠ 0%Z) [pointsOf scoreTemperature i]))%nat.
Proof.
  unfold pointsOf, scoreTemperature, add.
  repeat case_match; count_points.
Qed.

Lemma scoreHeartRate_factor i acc :
  length (snd (scoreHeartRate i acc))
  = (length (snd acc)
     + length (filter (λ p, p ≠ 0%Z) [pointsOf scoreHeartRate i]))%nat.
Proof.
  unfold pointsOf, scoreHeartRate, add.
  repeat case_match; count_points.
Qed.

Lemma scoreBloodPressure_factor i acc :
  length (snd (scoreBloodPressure i acc))
  = (length (snd acc)
     + length (filter (λ p, p ≠ 0%Z) [pointsOf scoreBloodPressure i]))%nat.
Proof.
  unfold pointsOf, scoreBloodPressure, add.
  repeat case_match; count_points.
Qed.

Lemma scorePain_factor i acc :
  length (snd (scorePain i acc))
  = (length (snd acc)
     + length (filter (λ p, p ≠ 0%Z) [pointsOf scorePain i]))%nat.
Proof.
  unfold pointsOf, scorePain, add.
  repeat case_match; count_points.
Qed.

Lemma scoreSymptoms_factor i acc :
  length (snd (scoreSymptoms i acc))
  = (length (snd acc)
     + length (filter (λ p, p ≠ 0%Z) [pointsOf scoreSymptoms i]))%nat.
Proof.
  unfold pointsOf, scoreSymptoms, add.
  repeat case_match; count_points.
Qed.

Lemma factors_count i :
  length (factors (calculateTriageScore i))
  = length (filter (λ p, p ≠ 0%Z)
      [pointsOf scoreTemperature i; pointsOf scoreHeartRate i;
       pointsOf scoreBloodPressure i; pointsOf scorePain i;
       pointsOf scoreSymptoms i]).
Proof.
  unfold calculateTriageScore. cbn [factors].
  rewrite scoreSymptoms_factor, scorePain_factor, scoreBloodPressure_factor,
    scoreHeartRate_factor, scoreTemperature_factor.
  change [pointsOf scoreTemperature i; pointsOf scoreHeartRate i;
          pointsOf scoreBloodPressure i; pointsOf scorePain i;
          pointsOf scoreSymptoms i]
    with ([pointsOf scoreTemperature i] ++ [pointsOf scoreHeartRate i]
          ++ [pointsOf scoreBloodPressure i] ++ [pointsOf scorePain i]
          ++ [pointsOf scoreSymptoms i]).
  rewrite !filter_app, !length_app. cbn [length snd]. lia.
Qed.

Lemma level_cases i :
  let r := calculateTriageScore i in
  (level r = high ↔ (60 <= score r)%Z)
  ∧ (level r = medium ↔ (30 <= score r < 60)%Z)
  ∧ (level r = low ↔ (score r < 30)%Z).
Proof.
  cbv zeta. unfold calculateTriageScore, Math_round. cbn [level score].
  unfold TRIAGE_RULES.thresholds.high, TRIAGE_RULES.thresholds.medium.
  repeat case_match; repeat split; intros; try done; try lia.
Qed.

(** X5.  The level is read off the score alone: high from 60, medium from
    30 to 59, low below 30.  The result lists one factor for each block that
    contributed points, so there is no factor exactly when the score is 0,
    a medium level has at least one factor and a high level at least two:
    no single finding, however extreme, makes a patient high priority. *)
Theorem level_thresholds_and_factor_count i :
  let r := calculateTriageScore i in
  (level r = high ↔ (60 <= score r)%Z)
  ∧ (level r = medium ↔ (30 <= score r < 60)%Z)
  ∧ (level r = low ↔ (score r < 30)%Z)
  ∧ (factors r = [] ↔ score r = 0%Z)
  ∧ (level r = medium → (1 <= length (factors r))%nat)
  ∧ (level r = high → (2 <= length (factors r))%nat).
Proof.
  cbv zeta. destruct (level_cases i) as (Hh & Hm & Hl). cbv zeta in *.
  split; [done|]. split; [done|]. split; [done|].
  rewrite <- length_zero_iff_nil, Hh, Hm, factors_count, score_decomposition.
  pose proof (temperature_points i) as Ht.
  pose proof (heartRate_points i) as Hr.
  pose proof (bloodPressure_points i) as Hb.
  pose proof (pain_points i) as Hp.
  pose proof (symptoms_points i) as Hs.
  revert Ht Hr Hb Hp Hs.
  generalize (pointsOf scoreTemperature i) (pointsOf scoreHeartRate i)
    (pointsOf scoreBloodPressure i) (pointsOf scorePain i)
    (pointsOf scoreSymptoms i).
  intros t h b p s Ht Hr Hb Hp Hs. set_unfold.
  destruct_or!; subst;
    match goal with
    | |- context [length (filter ?P ?l)] =>
        let n := eval vm_compute in (length (filter P l)) in
        change (length (filter P l)) with n
    end; lia.
Qed.

(** ** Symptom keywords *)

Lemma append_nil s : ("" +:+ s)%string = s.
Proof. reflexivity. Qed.

Lemma append_cons c s t : (String c s +:+ t)%string = String c (s +:+ t).
Proof. reflexivity. Qed.

Lemma append_assoc s t u : ((s +:+ t) +:+ u)%string = (s +:+ t +:+ u)%string.
Proof.
  induction s as [|c s IH]; [done|]. by rewrite !append_cons, IH.
Qed.

Lemma prefix_spec sub s :
  String.prefix sub s = true ↔ ∃ post, s = (sub +:+ post)%string.
Proof.
  revert s. induction sub as [|c sub IH]; intros s.
  - destruct s; cbn; (split; [intros _; by eexists|done]).
  - destruct s as [|c' s]; cbn; [split; [done|by intros [? ?]]|].
    destruct (Ascii.ascii_dec c c') as [->|Hc].
    + rewrite IH. split; intros [post H]; exists post;
        rewrite append_cons in *; congruence.
    + split; [done|]. intros [post H]. rewrite append_cons in H. congruence.
Qed.

Lemma includes_spec s sub :
  includes s sub = true
  ↔ ∃ pre post, s = (pre +:+ sub +:+ post)%string.
Proof.
  induction s as [|c s IH]; cbn [includes];
    rewrite orb_true_iff, prefix_spec.
  - split.
    + intros [[post H]|?]; [|done]. by exists EmptyString, post.
    + intros (pre & post & H). left. exists post.
      destruct pre; [done|discriminate].
  - rewrite IH. split.
    + intros [[post H]|(pre & post & H)].
      * by exists EmptyString, post.
      * exists (String c pre), post. by rewrite append_cons, H.
    + intros (pre & post & H). destruct pre as [|c' pre].
      * left. by exists post.
      * right. exists pre, post. rewrite append_cons in H. congruence.
Qed.

Lemma toLowerCase_app s t :
  toLowerCase (s +:+ t) = (toLowerCase s +:+ toLowerCase t)%string.
Proof.
  induction s as [|c s IH]; [done|].
  rewrite append_cons. cbn [toLowerCase]. by rewrite append_cons, IH.
Qed.

Lemma hasSymptom_spec ks lowered :
  hasSymptom ks lowered = true
  ↔ ∃ k pre post, k ∈ keywords ks
      ∧ lowered = (pre +:+ toLowerCase k +:+ post)%string.
Proof.
  unfold hasSymptom, some. rewrite existsb_exists. split.
  - intros (k & Hk%list_elem_of_In & (pre & post & H)%includes_spec).
    by exists k, pre, post.
  - intros (k & pre & post & Hk & H). exists k.
    split; [by apply list_elem_of_In|]. apply includes_spec. eauto.
Qed.

Lemma mentions_spec ks text :
  mentions ks text = true
  ↔ ∃ k pre post, k ∈ keywords ks
      ∧ toLowerCase text = (pre +:+ toLowerCase k +:+ post)%string.
Proof. unfold mentions. by rewrite hasSymptom_spec. Qed.

Lemma mentions_word ks k pre word post :
  k ∈ keywords ks → toLowerCase word = toLowerCase k →
  mentions ks (pre +:+ word +:+ post) = true.
Proof.
  intros Hk Hw. apply mentions_spec.
  exists k, (toLowerCase pre), (toLowerCase post).
  by rewrite !toLowerCase_app, Hw.
Qed.

Lemma mentions_context ks pre text post :
  mentions ks text = true → mentions ks (pre +:+ text +:+ post) = true.
Proof.
  rewrite !mentions_spec. intros (k & a & b & Hk & H).
  exists k, (toLowerCase pre +:+ a)%string, (b +:+ toLowerCase post)%string.
  split; [done|]. by rewrite !toLowerCase_app, H, !append_assoc.
Qed.

Lemma symptom_points i :
  pointsOf scoreSymptoms i
  = (if mentions TRIAGE_RULES.symptoms.critical (symptoms i) then 40
     else if mentions TRIAGE_RULES.symptoms.serious (symptoms i) then 25
     else 0)%Z.
Proof.
  unfold pointsOf, scoreSymptoms, mentions, add. cbv zeta.
  by repeat case_match.
Qed.

Lemma other_points_nonneg i :
  (0 <= pointsOf scoreTemperature i + pointsOf scoreHeartRate i
        + pointsOf scoreBloodPressure i + pointsOf scorePain i)%Z.
Proof.
  pose proof (temperature_points i) as Ht.
  pose proof (heartRate_points i) as Hr.
  pose proof (bloodPressure_points i) as Hb.
  pose proof (pain_points i) as Hp.
  set_unfold. lia.
Qed.

(** X6.  A symptom text that contains a keyword of the critical list as a
    substring, in any letter case and with any text around it, adds 40
    points whatever else it contains, so the patient is never low
    priority; a keyword of the serious list adds 25, or 40 when a critical
    keyword occurs as well: the two never add up. *)
Theorem symptom_keyword_anywhere i k pre word post :
  symptoms i = (pre +:+ word +:+ post)%string →
  toLowerCase word = toLowerCase k →
  (k ∈ keywords TRIAGE_RULES.symptoms.critical →
   pointsOf scoreSymptoms i = 40%Z
   ∧ (40 <= score (calculateTriageScore i))%Z
   ∧ level (calculateTriageScore i) ≠ low)
  ∧ (k ∈ keywords TRIAGE_RULES.symptoms.serious →
     (pointsOf scoreSymptoms i = 25%Z ∨ pointsOf scoreSymptoms i = 40%Z)
     ∧ (25 <= score (calculateTriageScore i))%Z).
Proof.
  intros Htext Hword.
  pose proof (other_points_nonneg i) as Hother.
  destruct (level_cases i) as (_ & _ & Hlow). cbv zeta in Hlow.
  rewrite Hlow, score_decomposition, symptom_points, Htext.
  split; intros Hk.
  - rewrite (mentions_word _ k) by done. lia.
  - rewrite (mentions_word TRIAGE_RULES.symptoms.serious k) by done.
    case_match; lia.
Qed.

(** The theorem at work: a capitalised keyword inside a sentence. *)
Lemma symptom_keyword_anywhere_witness :
  pointsOf scoreSymptoms
    (mkTriageInput 98.6 80 120 80 0 "no Chest Pain today") = 40%Z.
Proof.
  apply (symptom_keyword_anywhere
           (mkTriageInput 98.6 80 120 80 0 "no Chest Pain today")
           "chest pain" "no " "Chest Pain" " today");
    [reflexivity | reflexivity | by vm_compute; set_solver].
Defined.

Lemma withSymptoms_vitals i text :
  pointsOf scoreTemperature (withSymptoms i text)
  = pointsOf scoreTemperature i
  ∧ pointsOf scoreHeartRate (withSymptoms i text) = pointsOf scoreHeartRate i
  ∧ pointsOf scoreBloodPressure (withSymptoms i text)
    = pointsOf scoreBloodPressure i
  ∧ pointsOf scorePain (withSymptoms i text) = pointsOf scorePain i.
Proof. done. Qed.

Lemma withSymptoms_lowered i text text' :
  toLowerCase text = toLowerCase text' →
  calculateTriageScore (withSymptoms i text)
  = calculateTriageScore (withSymptoms i text').
Proof.
  intros H. unfold calculateTriageScore, scoreSymptoms.
  cbn [symptoms withSymptoms]. rewrite H. reflexivity.
Qed.

(** X7.  On texts of code units below 256 (the strings of this model, on
    which [toLowerCase] is that of the source), the scorer reads the
    symptom text without regard to letter case: two texts with the same
    lower-case form give the same result for the same vitals.  And it only
    looks for keywords: writing more around a description never lowers the
    score, so a negated keyword counts as much as the keyword. *)
Theorem symptom_text_case_and_context i text text' pre post :
  (toLowerCase text = toLowerCase text' →
   calculateTriageScore (withSymptoms i text)
   = calculateTriageScore (withSymptoms i text'))
  ∧ (score (calculateTriageScore (withSymptoms i text))
     <= score (calculateTriageScore
                 (withSymptoms i (pre +:+ text +:+ post))))%Z.
Proof.
  split; [apply withSymptoms_lowered|].
  rewrite !score_decomposition, !symptom_points.
  destruct (withSymptoms_vitals i text) as (-> & -> & -> & ->).
  destruct (withSymptoms_vitals i (pre +:+ text +:+ post))
    as (-> & -> & -> & ->).
  cbn [symptoms withSymptoms].
  pose proof (mentions_context TRIAGE_RULES.symptoms.critical pre text post).
  pose proof (mentions_context TRIAGE_RULES.symptoms.serious pre text post).
  repeat case_match; try lia; naive_solver.
Qed.

End TriageUtilProps.

(* ===================================================================== *)
(** * Further properties of the appointment model *)
(* ===================================================================== *)
Module AppointmentModelProps.
Import Appointment AppointmentProps.
Local Open Scope Z_scope.

(** ** The conflict query on appointments no longer than the request *)

Lemma findConflictingAppointments_found db doctorId start dur a :
  a ∈ db → doctor a = doctorId → active (status a) →
  overlaps start dur (scheduledTime a) (duration a) →
  duration a ≤ dur →
  a ∈ findConflictingAppointments db doctorId start dur.
Proof.
  intros Hin Hd Ha Ho Hle.
  destruct (decide (a ∈ findConflictingAppointments db doctorId start dur))
    as [|Hn]; [done|].
  apply findConflictingAppointments_missed in Hn; [|done..].
  unfold endOf in Hn. lia.
Qed.

Lemma closed_not_active s :
  s ∈ [completed; cancelled; no_show] → ¬ active s.
Proof.
  unfold active. rewrite !elem_of_cons, !elem_of_nil.
  destruct s; intuition congruence.
Qed.

Lemma findConflictingAppointments_skips db doctorId start dur a :
  doctor a ≠ doctorId ∨ ¬ active (status a) →
  a ∉ findConflictingAppointments db doctorId start dur.
Proof. rewrite findConflictingAppointments_spec. tauto. Qed.

(** X8.  What the conflict query gets right.  An appointment of positive
    duration that it returns is an active appointment of the doctor that
    overlaps the requested interval; an appointment of another doctor, or
    one that is completed, cancelled or a no-show, is never returned; and
    an active overlapping appointment of the doctor that is no longer than
    the requested duration is always returned.  So with one appointment
    length the query is exact. *)
Theorem conflict_query_exact_up_to_duration db doctorId start dur a :
  a ∈ db → 0 < duration a →
  (a ∈ findConflictingAppointments db doctorId start dur →
   doctor a = doctorId ∧ active (status a)
   ∧ overlaps start dur (scheduledTime a) (duration a))
  ∧ (doctor a ≠ doctorId ∨ status a ∈ [completed; cancelled; no_show] →
     a ∉ findConflictingAppointments db doctorId start dur)
  ∧ (duration a ≤ dur →
     (a ∈ findConflictingAppointments db doctorId start dur
      ↔ doctor a = doctorId ∧ active (status a)
        ∧ overlaps start dur (scheduledTime a) (duration a))).
Proof.
  intros Hin Hpos. split; [|split].
  - intros H. by apply findConflictingAppointments_sound in H as (_ & ?).
  - intros H. apply findConflictingAppointments_skips.
    destruct H as [H|H]; [by left|right]. by apply closed_not_active.
  - intros Hle. split.
    + intros H. by apply findConflictingAppointments_sound in H as (_ & ?).
    + intros (Hd & Ha & Ho). by apply findConflictingAppointments_found.
Qed.

(** The theorem at work: 10:00-10:30 is booked and 10:15 for 30 minutes
    is asked for. *)
Lemma conflict_query_exact_up_to_duration_witness :
  tenToHalfPast ∈ findConflictingAppointments [tenToHalfPast] 5 (at_ 10 15) 30
  ↔ doctor tenToHalfPast = 5%nat ∧ active (status tenToHalfPast)
    ∧ overlaps (at_ 10 15) 30 (scheduledTime tenToHalfPast)
        (duration tenToHalfPast).
Proof.
  apply (conflict_query_exact_up_to_duration [tenToHalfPast] 5 (at_ 10 15) 30
           tenToHalfPast); [set_solver | by vm_compute | by vm_compute].
Defined.

(** ** The time windows of an appointment *)

Lemma window_cases now a :
  (isUpcoming now a = true ↔ now < scheduledTime a ≤ now + MS_PER_HOUR)
  ∧ (isOverdue now a = true
     ↔ scheduledTime a < now ∧ status a ∈ [scheduled; confirmed])
  ∧ (canBeCancelled now a = true
     ↔ now + 2 * MS_PER_HOUR < scheduledTime a
       ∧ status a ∈ [scheduled; confirmed])
  ∧ (canBeRescheduled now a = true
     ↔ now + MS_PER_HOUR < scheduledTime a
       ∧ status a ∈ [scheduled; confirmed]).
Proof.
  unfold isUpcoming, isOverdue, canBeCancelled, canBeRescheduled.
  cbv zeta. rewrite !bool_decide_eq_true. unfold MS_PER_HOUR.
  repeat split; try tauto; lia.
Qed.

(** X9.  The four time tests of an appointment, read at one clock time,
    fit together: whatever may still be cancelled may also be rescheduled;
    an appointment that is upcoming (within the hour) or overdue can be
    neither, and is never both; and past the status scheduled or confirmed
    an appointment can be neither cancelled nor rescheduled nor overdue. *)
Theorem appointment_windows_nest now a :
  (canBeCancelled now a = true → canBeRescheduled now a = true)
  ∧ (isUpcoming now a = true →
     canBeRescheduled now a = false ∧ canBeCancelled now a = false
     ∧ isOverdue now a = false)
  ∧ (isOverdue now a = true →
     canBeRescheduled now a = false ∧ canBeCancelled now a = false)
  ∧ (status a ∉ [scheduled; confirmed] →
     canBeCancelled now a = false ∧ canBeRescheduled now a = false
     ∧ isOverdue now a = false).
Proof.
  destruct (window_cases now a) as (Hu & Ho & Hc & Hr).
  rewrite <- !not_true_iff_false, Hu, Ho, Hc, Hr. unfold MS_PER_HOUR.
  repeat split; try tauto; try lia; intros; intros [? ?]; try done; lia.
Qed.

End AppointmentModelProps.

Module DateRangeProps.
Import Appointment AppointmentProps.
Local Open Scope Z_scope.

(** ** findByDoctorAndDateRange *)

Global Instance byScheduledTime_trans : Transitive byScheduledTime.
Proof. unfold byScheduledTime. intros a b c. lia. Qed.

Global Instance byScheduledTime_total : Total byScheduledTime.
Proof. unfold byScheduledTime. intros a b. lia. Qed.

Lemma merge_sort_byScheduledTime l :
  StronglySorted byScheduledTime (merge_sort byScheduledTime l).
Proof. apply StronglySorted_merge_sort; apply _. Qed.

Lemma findByDoctorAndDateRange_spec db doctorId start end_ a :
  a ∈ findByDoctorAndDateRange db doctorId start end_
  ↔ a ∈ db ∧ doctor a = doctorId ∧ start ≤ scheduledTime a ≤ end_
    ∧ active (status a).
Proof.
  unfold findByDoctorAndDateRange. rewrite merge_sort_Permutation.
  rewrite list_elem_of_filter. unfold rangeQuery, active. intuition lia.
Qed.

Lemma findByDoctorAndDateRange_sorted db doctorId start end_ :
  StronglySorted byScheduledTime
    (findByDoctorAndDateRange db doctorId start end_).
Proof. apply merge_sort_byScheduledTime. Qed.

(** X10.  [findByDoctorAndDateRange] returns exactly the active
    appointments of the doctor that start in the closed range, each as
    often as it is stored, in the order of their start times; the range is
    closed at both ends, so an empty range gives nothing, and an
    appointment that the conflict query returns for a request and that
    starts no earlier than the request is in the range of that request. *)
Theorem findByDoctorAndDateRange_sorted_selection db doctorId start end_ :
  let found := findByDoctorAndDateRange db doctorId start end_ in
  (∀ a, a ∈ found
        ↔ a ∈ db ∧ doctor a = doctorId ∧ start ≤ scheduledTime a ≤ end_
          ∧ status a ∈ [scheduled; confirmed; checked_in; in_progress])
  ∧ found ≡ₚ filter (rangeQuery doctorId start end_) db
  ∧ (∀ i j a b, found !! i = Some a → found !! j = Some b → (i < j)%nat →
       scheduledTime a ≤ scheduledTime b)
  ∧ (end_ < start → found = [])
  ∧ (∀ a dur, a ∈ findConflictingAppointments db doctorId start dur →
       start ≤ scheduledTime a → 0 ≤ duration a →
       a ∈ findByDoctorAndDateRange db doctorId start
             (start + dur * 60000)).
Proof.
  cbv zeta. split; [|split; [|split; [|split]]].
  - intros a. apply findByDoctorAndDateRange_spec.
  - apply merge_sort_Permutation.
  - intros i j a b Hi Hj Hij.
    exact (QueueProps.StronglySorted_lookup _ _ _ _ _ _
             (findByDoctorAndDateRange_sorted db doctorId start end_)
             Hi Hj Hij).
  - intros Hempty.
    destruct (findByDoctorAndDateRange db doctorId start end_)
      as [|a l] eqn:E; [done|].
    assert (a ∈ findByDoctorAndDateRange db doctorId start end_) as Ha
      by (rewrite E; left).
    apply findByDoctorAndDateRange_spec in Ha. lia.
  - intros a dur Ha Hs Hd.
    apply findConflictingAppointments_spec in Ha.
    apply findByDoctorAndDateRange_spec. unfold endOf in Ha.
    intuition lia.
Qed.

End DateRangeProps.

Module SlotSearchProps.
Import Appointment AppointmentProps.
Local Open Scope Z_scope.

(** ** The candidates of the slot search *)

Lemma candidateSlots_spec tz baseTime s :
  s ∈ candidateSlots tz baseTime
  ↔ ∃ dayOffset hour minute,
      (dayOffset, hour, minute) ∈ loopIndices
      ∧ s = slotAt tz baseTime dayOffset hour minute.
Proof.
  unfold candidateSlots. rewrite list_elem_of_fmap. split.
  - intros ([[d h] m] & -> & Hi). by exists d, h, m.
  - intros (d & h & m & Hi & ->). by exists (d, h, m).
Qed.

Lemma loopIndices_spec dayOffset hour minute :
  (dayOffset, hour, minute) ∈ loopIndices
  ↔ 0 ≤ dayOffset ≤ 2 ∧ 9 ≤ hour ≤ 16 ∧ (minute = 0 ∨ minute = 30).
Proof.
  split.
  - intros H. apply list_elem_of_In in H. vm_compute in H.
    repeat (destruct H as [[= <- <- <-]|H]; [lia|]). done.
  - intros (Hd & Hh & Hm).
    assert (dayOffset = 0 ∨ dayOffset = 1 ∨ dayOffset = 2) as Hd' by lia.
    assert (hour = 9 ∨ hour = 10 ∨ hour = 11 ∨ hour = 12 ∨ hour = 13
            ∨ hour = 14 ∨ hour = 15 ∨ hour = 16) as Hh' by lia.
    clear Hd Hh. destruct_or!; subst;
      apply (bool_decide_unpack _); vm_compute; exact I.
Qed.

Lemma slotAt_clock tz baseTime dayOffset hour minute :
  0 ≤ hour < 24 → 0 ≤ minute < 60 →
  getHours tz (slotAt tz baseTime dayOffset hour minute) = hour
  ∧ getMinutes tz (slotAt tz baseTime dayOffset hour minute) = minute
  ∧ localMidnight tz (slotAt tz baseTime dayOffset hour minute)
    = localMidnight tz baseTime + dayOffset * MS_PER_DAY.
Proof.
  intros Hh Hm.
  unfold getHours, getMinutes, slotAt, localMidnight, MS_PER_DAY,
    MS_PER_HOUR, MS_PER_MINUTE.
  set (k := (baseTime + tz) `div` 86400000).
  replace (k * 86400000 - tz + dayOffset * 86400000 + hour * 3600000
           + minute * 60000 + tz)
    with ((k + dayOffset) * 86400000 + (hour * 3600000 + minute * 60000))
    by lia.
  rewrite Z.div_add_l by done.
  rewrite (Z.div_small (hour * 3600000 + minute * 60000)) by lia.
  split; [|split; [|lia]].
  - rewrite Z.add_comm, Z.mod_add by done.
    rewrite Z.mod_small by lia.
    rewrite Z.add_comm, Z.div_add by done.
    rewrite Z.div_small by lia. lia.
  - replace ((k + dayOffset) * 86400000 + (hour * 3600000 + minute * 60000))
      with (minute * 60000 + ((k + dayOffset) * 24 + hour) * 3600000)
      by lia.
    rewrite Z.mod_add by done. rewrite Z.mod_small by lia.
    by rewrite Z.div_mul.
Qed.

(** On a host whose local time is at the one offset [tz] from UTC, the
    start times the search returns are on the hour or the half hour, from
    9:00 to 16:30 local time, on the day of the preferred time or one of
    the two days after it. *)
Lemma findNextAvailableSlots_business_hours tz clock db fuel doctorId
    preferredTime dur n res n' :
  findNextAvailableSlots tz clock db fuel doctorId preferredTime dur n
    = Some (res, n') →
  (length res ≤ 3)%nat
  ∧ StronglySorted Z.lt res
  ∧ Forall (λ s,
      9 ≤ getHours tz s ≤ 16
      ∧ (getMinutes tz s = 0 ∨ getMinutes tz s = 30)
      ∧ localMidnight tz preferredTime ≤ localMidnight tz s
        ≤ localMidnight tz preferredTime + 2 * MS_PER_DAY
      ∧ (∃ k, clock k < s)
      ∧ findConflictingAppointments db doctorId s dur = []) res.
Proof.
  intros (Hlen & Hsub & Hsorted & Hall)%findNextAvailableSlots_result.
  split; [done|]. split; [done|].
  rewrite Forall_forall in *. intros s Hs.
  destruct (Hall s Hs) as [Hclock Hfree].
  assert (s ∈ candidateSlots tz preferredTime) as Hc
    by (by eapply elem_of_sublist).
  apply candidateSlots_spec in Hc as (d & h & m & Hi & ->).
  apply loopIndices_spec in Hi as (Hd & Hh & Hm).
  destruct (slotAt_clock tz preferredTime d h m) as (-> & -> & ->);
    [lia | lia |].
  unfold MS_PER_DAY. repeat split; try done; lia.
Qed.

(** *** The clock readings of a search

    A computation reads the clock at consecutive indices from the one it
    is started with. *)

Lemma slotLoop_readings clock check slots :
  (∀ s m a m', check s m = Some (a, m') → (m ≤ m')%nat) →
  ∀ suggestedTimes n res n',
    slotLoop clock check slots suggestedTimes n = Some (res, n') →
    (n ≤ n')%nat
    ∧ ∃ picked,
        res = suggestedTimes ++ picked
        ∧ Forall (λ s, ∃ k, (n ≤ k < n')%nat ∧ clock k < s) picked.
Proof.
  intros Hcheck. induction slots as [|s slots IH]; intros acc n res n'.
  - cbn. intros [= <- <-]. split; [done|]. exists [].
    by rewrite app_nil_r.
  - rewrite slotLoop_cons. destruct (decide (s ≤ clock n)) as [Hs|Hs].
    { intros (Hle & picked & -> & Hall)%IH. split; [lia|].
      exists picked. split; [done|].
      eapply Forall_impl; [exact Hall|]. cbv beta.
      intros x (k & Hk & Hx). exists k. split; [lia|done]. }
    destruct (check s (S n)) as [[a m]|] eqn:Ec; [|done].
    pose proof (Hcheck _ _ _ _ Ec) as Hm.
    destruct (available a).
    + destruct (decide (3 ≤ length (acc ++ [s]))%nat).
      * intros [= <- <-]. split; [lia|]. exists [s]. split; [done|].
        constructor; [|constructor]. exists n. split; lia.
      * intros (Hle & picked & -> & Hall)%IH. split; [lia|].
        exists (s :: picked). rewrite <- app_assoc. split; [done|].
        constructor; [exists n; split; lia|].
        eapply Forall_impl; [exact Hall|]. cbv beta.
        intros x (k & Hk & Hx). exists k. split; [lia|done].
    + intros (Hle & picked & -> & Hall)%IH. split; [lia|].
      exists picked. split; [done|].
      eapply Forall_impl; [exact Hall|]. cbv beta.
      intros x (k & Hk & Hx). exists k. split; [lia|done].
Qed.

Lemma checkDoctorAvailability_readings tz clock db fuel :
  ∀ doctorId startTime dur exclude n a m,
    checkDoctorAvailability tz clock db fuel doctorId startTime dur exclude n
      = Some (a, m) →
    (n ≤ m)%nat.
Proof.
  induction fuel as [|fuel IH]; intros doctorId startTime dur exclude n a m;
    [done|].
  destruct (decide (findConflictingAppointments db doctorId startTime dur
                    = [])) as [E|E].
  - rewrite checkDoctorAvailability_free by done. by intros [= <- <-].
  - rewrite checkDoctorAvailability_busy by done.
    unfold findNextAvailableSlots.
    destruct (slotLoop clock _ _ [] n) as [[res n']|] eqn:El; [|done].
    intros [= <- <-].
    apply slotLoop_readings in El as [Hle _]; [done|].
    intros s k a' k'. apply IH.
Qed.

Lemma findNextAvailableSlots_readings tz clock db fuel doctorId
    preferredTime dur n res n' :
  findNextAvailableSlots tz clock db fuel doctorId preferredTime dur n
    = Some (res, n') →
  Forall (λ s, ∃ k, (n ≤ k < n')%nat ∧ clock k < s) res.
Proof.
  unfold findNextAvailableSlots.
  intros (_ & picked & -> & Hall)%slotLoop_readings; [done|].
  intros s k a k'. apply checkDoctorAvailability_readings.
Qed.

(** X11.  Whatever the search returns: at most three start times, in
    strictly chronological order, each later than a reading of the clock
    that this very search took (the readings of a search started at
    reading [n] and finished at reading [n'] are those from [n] up to,
    not including, [n']), and each free of conflicts for the requested
    duration in the sense of the conflict query. *)
Theorem suggested_slots_future_and_free tz clock db fuel doctorId
    preferredTime dur n res n' :
  findNextAvailableSlots tz clock db fuel doctorId preferredTime dur n
    = Some (res, n') →
  (length res ≤ 3)%nat
  ∧ StronglySorted Z.lt res
  ∧ Forall (λ s,
      (∃ k, (n ≤ k < n')%nat ∧ clock k < s)
      ∧ findConflictingAppointments db doctorId s dur = []) res.
Proof.
  intros Hres.
  pose proof (findNextAvailableSlots_readings _ _ _ _ _ _ _ _ _ _ Hres)
    as Hread.
  apply findNextAvailableSlots_result in Hres
    as (Hlen & Hsub & Hsorted & Hall).
  split; [done|]. split; [done|].
  rewrite Forall_forall in *. intros s Hs.
  destruct (Hall s Hs) as [_ Hfree].
  split; [by apply Hread|done].
Qed.

(** The theorem at work: an empty calendar at 8:00. *)
Lemma suggested_slots_future_and_free_witness :
  Forall (λ s,
      (∃ k, (0 ≤ k < 3)%nat ∧ frozenAt (at_ 8 0) k < s)
      ∧ findConflictingAppointments [] 5 s 30 = [])
    [at_ 9 0; at_ 9 30; at_ 10 0].
Proof.
  destruct (suggested_slots_future_and_free 0 (frozenAt (at_ 8 0)) [] 1 5
              (at_ 10 15) 30 0%nat [at_ 9 0; at_ 9 30; at_ 10 0] 3%nat)
    as (_ & _ & H); [by vm_compute | exact H].
Defined.

(** ** The availability check of the service and that of the controller *)

(** X12.  When the availability check of the service returns, it agrees
    with the handler of [GET /api/appointments/availability], which asks
    the conflict query alone: the same [available], the same conflicts.
    A free start time is answered without reading the clock and without
    suggestions; a busy one comes with at most three suggestions. *)
Theorem service_check_agrees_with_controller tz clock db fuel doctorId
    startTime dur exclude n a m :
  checkDoctorAvailability tz clock db fuel doctorId startTime dur exclude n
    = Some (a, m) →
  available a = data_available (checkAvailability db doctorId startTime dur)
  ∧ conflicts a
    = data_conflicts (checkAvailability db doctorId startTime dur)
  ∧ conflicts a = findConflictingAppointments db doctorId startTime dur
  ∧ (available a = true → suggestedTimes a = [] ∧ m = n)
  ∧ (length (suggestedTimes a) ≤ 3)%nat.
Proof.
  destruct fuel as [|fuel]; [done|]. unfold checkAvailability. cbv zeta.
  cbn [data_available data_conflicts].
  destruct (decide (findConflictingAppointments db doctorId startTime dur
                    = [])) as [E|E].
  - rewrite checkDoctorAvailability_free by done. intros [= <- <-].
    rewrite E. cbn. rewrite bool_decide_true by done.
    repeat split; lia.
  - rewrite checkDoctorAvailability_busy by done.
    destruct (findNextAvailableSlots _ _ _ _ _ _ _ _) as [[res n']|] eqn:Es;
      [|done].
    intros [= <- <-]. cbn [available conflicts suggestedTimes].
    apply findNextAvailableSlots_result in Es as (Hlen & _).
    rewrite bool_decide_false
      by (by rewrite length_zero_iff_nil).
    done.
Qed.

(** The theorem at work: doctor 5 is booked 10:00-10:30, it is 10:05 and
    10:15 is asked for. *)
Lemma service_check_agrees_with_controller_witness :
  data_available (checkAvailability [tenToHalfPast] 5 (at_ 10 15) 30) = false.
Proof.
  symmetry.
  apply (service_check_agrees_with_controller 0 (frozenAt (at_ 10 5))
           [tenToHalfPast] 2 5 (at_ 10 15) 30 None 0%nat
           (mkAvailabilityCheck false [tenToHalfPast]
              [at_ 10 30; at_ 11 0; at_ 11 30]) 6%nat).
  by vm_compute.
Defined.

(** ** The search while the clock stands still *)

Lemma slotLoop_frozen now check slots :
  ∀ suggested n,
    (length suggested < 3)%nat →
    (∀ s k, s ∈ take (3 - length suggested) (filter (λ s, now < s) slots) →
            check s k = Some (mkAvailabilityCheck true [] [], k)) →
    ∃ n',
      slotLoop (frozenAt now) check slots suggested n
      = Some (suggested
              ++ take (3 - length suggested) (filter (λ s, now < s) slots),
              n').
Proof.
  induction slots as [|s slots IH]; intros acc n Hacc Hfree.
  - exists n. cbn. by rewrite take_nil, app_nil_r.
  - rewrite slotLoop_cons. unfold frozenAt at 1.
    destruct (decide (s ≤ now)) as [Hs|Hs].
    + rewrite filter_cons_False in * by lia. by apply IH.
    + rewrite filter_cons_True in * by lia.
      destruct (3 - length acc)%nat as [|r] eqn:Er; [lia|].
      cbn [take] in *. rewrite (Hfree s (S n)) by left.
      cbn [available].
      destruct (decide (3 ≤ length (acc ++ [s]))%nat) as [H3|H3].
      * exists (S n). rewrite length_app in H3. cbn in H3.
        replace r with 0%nat by lia. by rewrite take_0.
      * rewrite length_app in H3. cbn in H3.
        destruct (IH (acc ++ [s]) (S n)) as [n' ->].
        -- rewrite length_app. cbn. lia.
        -- intros x k Hx. apply Hfree. right.
           rewrite length_app in Hx. cbn in Hx.
           by replace r with (3 - (length acc + 1))%nat by lia.
        -- exists n'. rewrite <- app_assoc, length_app. cbn.
           by replace r with (3 - (length acc + 1))%nat by lia.
Qed.

Lemma findNextAvailableSlots_frozen tz now db fuel doctorId preferredTime
    dur n :
  Forall (λ s, findConflictingAppointments db doctorId s dur = [])
    (take 3 (filter (λ s, now < s) (candidateSlots tz preferredTime))) →
  ∃ n',
    findNextAvailableSlots tz (frozenAt now) db (S fuel) doctorId
      preferredTime dur n
    = Some (take 3 (filter (λ s, now < s) (candidateSlots tz preferredTime)),
            n').
Proof.
  intros Hfree. unfold findNextAvailableSlots.
  apply (slotLoop_frozen now _ (candidateSlots tz preferredTime) [] n);
    [cbn; lia|].
  intros s k Hs. apply checkDoctorAvailability_free.
  rewrite Forall_forall in Hfree. by apply Hfree.
Qed.

(** X13.  While the clock stands still, the search returns as soon as the
    first three candidates that are still ahead are free of conflicts: it
    returns exactly those three (or the fewer that are left in the three
    days).  The availability check of a busy start time then returns them
    as its suggestions. *)
Theorem search_returns_first_three_free tz now db fuel doctorId
    preferredTime dur exclude n :
  let upcoming := filter (λ s, now < s) (candidateSlots tz preferredTime) in
  Forall (λ s, findConflictingAppointments db doctorId s dur = [])
    (take 3 upcoming) →
  (∃ n',
     findNextAvailableSlots tz (frozenAt now) db (S fuel) doctorId
       preferredTime dur n
     = Some (take 3 upcoming, n'))
  ∧ (findConflictingAppointments db doctorId preferredTime dur ≠ [] →
     ∃ n',
       checkDoctorAvailability tz (frozenAt now) db (S (S fuel)) doctorId
         preferredTime dur exclude n
       = Some (mkAvailabilityCheck false
                 (findConflictingAppointments db doctorId preferredTime dur)
                 (take 3 upcoming), n')).
Proof.
  cbv zeta. intros Hfree. split.
  - by apply findNextAvailableSlots_frozen.
  - intros Hbusy. rewrite checkDoctorAvailability_busy by done.
    destruct (findNextAvailableSlots_frozen tz now db fuel doctorId
                preferredTime dur n Hfree) as [n' ->].
    by exists n'.
Qed.

(** The theorem at work: doctor 5 is booked 10:00-10:30 and it is 10:05. *)
Lemma search_returns_first_three_free_witness :
  ∃ n',
    findNextAvailableSlots 0 (frozenAt (at_ 10 5)) [tenToHalfPast] 1 5
      (at_ 10 15) 30 0%nat
    = Some (take 3 (filter (λ s, at_ 10 5 < s)
                      (candidateSlots 0 (at_ 10 15))), n').
Proof.
  apply (search_returns_first_three_free 0 (at_ 10 5) [tenToHalfPast] 0 5
           (at_ 10 15) 30 None 0%nat).
  apply (bool_decide_unpack _). by vm_compute.
Defined.

(** ** The search at a busy candidate *)

Lemma candidateSlots_same_day tz baseTime baseTime' :
  localMidnight tz baseTime = localMidnight tz baseTime' →
  candidateSlots tz baseTime = candidateSlots tz baseTime'.
Proof. intros H. unfold candidateSlots, slotAt. by rewrite H. Qed.

Lemma slotLoop_stuck now check slots :
  ∀ suggested n pre s post,
    filter (λ s, now < s) slots = pre ++ s :: post →
    (length suggested + length pre < 3)%nat →
    (∀ x k, x ∈ pre →
            check x k = None
            ∨ check x k = Some (mkAvailabilityCheck true [] [], k)) →
    (∀ k, check s k = None) →
    slotLoop (frozenAt now) check slots suggested n = None.
Proof.
  induction slots as [|x slots IH]; intros acc n pre s post Hf Hlen Hpre Hs.
  - by destruct pre.
  - rewrite slotLoop_cons. unfold frozenAt at 1.
    destruct (decide (x ≤ now)) as [Hx|Hx].
    + rewrite filter_cons_False in Hf by lia. by eapply IH.
    + rewrite filter_cons_True in Hf by lia.
      destruct pre as [|y pre]; cbn in Hf; injection Hf as <- Hf.
      * by rewrite Hs.
      * destruct (Hpre x (S n)) as [->| ->]; [left | done |].
        cbn [available]. cbn in Hlen.
        rewrite decide_False by (rewrite length_app; cbn; lia).
        eapply IH; [exact Hf | rewrite length_app; cbn; lia | | done].
        intros z k Hz. apply Hpre. by right.
Qed.

Lemma findNextAvailableSlots_stuck tz now db doctorId dur pre s post fuel :
  ∀ baseTime n,
    filter (λ s, now < s) (candidateSlots tz baseTime) = pre ++ s :: post →
    (length pre < 3)%nat →
    Forall (λ x, findConflictingAppointments db doctorId x dur = []) pre →
    findConflictingAppointments db doctorId s dur ≠ [] →
    localMidnight tz s = localMidnight tz baseTime →
    findNextAvailableSlots tz (frozenAt now) db fuel doctorId baseTime dur n
    = None.
Proof.
  induction fuel as [|fuel IH]; intros baseTime n Hf Hlen Hpre Hs Hday;
    unfold findNextAvailableSlots;
    apply (slotLoop_stuck now _ _ [] n pre s post Hf); try done.
  - intros x k _. by left.
  - intros x k Hx. right. apply checkDoctorAvailability_free.
    rewrite Forall_forall in Hpre. by apply Hpre.
  - intros k. rewrite checkDoctorAvailability_busy by done.
    rewrite IH; try done.
    by rewrite (candidateSlots_same_day tz s baseTime).
Qed.

(** X14.  While the clock stands still, the search does not return when
    it meets a candidate with a conflict on the preferred date before it
    has found three free ones: checking that candidate starts the same
    search again.  No depth of calls is enough, and the availability check
    of a busy start time on that date does not return either. *)
Theorem search_never_returns_at_busy_candidate tz now db doctorId
    preferredTime dur i s :
  let upcoming := filter (λ s, now < s) (candidateSlots tz preferredTime) in
  upcoming !! i = Some s → (i < 3)%nat →
  Forall (λ x, findConflictingAppointments db doctorId x dur = [])
    (take i upcoming) →
  findConflictingAppointments db doctorId s dur ≠ [] →
  localMidnight tz s = localMidnight tz preferredTime →
  ∀ fuel n exclude,
    findNextAvailableSlots tz (frozenAt now) db fuel doctorId preferredTime
      dur n = None
    ∧ (findConflictingAppointments db doctorId preferredTime dur ≠ [] →
       checkDoctorAvailability tz (frozenAt now) db fuel doctorId
         preferredTime dur exclude n = None).
Proof.
  cbv zeta. intros Hi Hlt Hfree Hbusy Hday fuel n exclude.
  set (upcoming := filter (λ s, now < s) (candidateSlots tz preferredTime))
    in *.
  pose proof (take_drop_middle _ _ _ Hi) as Hsplit. symmetry in Hsplit.
  assert (length (take i upcoming) < 3)%nat as Hlen
    by (rewrite length_take; lia).
  split.
  - by eapply findNextAvailableSlots_stuck.
  - intros Hstart. destruct fuel as [|fuel]; [done|].
    rewrite checkDoctorAvailability_busy by done.
    by erewrite findNextAvailableSlots_stuck.
Qed.

(** The theorem at work: doctor 5 is booked 10:00-10:30 and it is 8:00;
    9:00 and 9:30 are free and 10:00 is the third candidate. *)
Lemma search_never_returns_at_busy_candidate_witness :
  findNextAvailableSlots 0 (frozenAt (at_ 8 0)) [tenToHalfPast] 7 5
    (at_ 13 0) 30 0%nat = None.
Proof.
  apply (search_never_returns_at_busy_candidate 0 (at_ 8 0) [tenToHalfPast]
           5 (at_ 13 0) 30 2 (at_ 10 0));
    [reflexivity | lia | apply (bool_decide_unpack _); by vm_compute
    | by vm_compute | reflexivity | exact None].
Defined.

End SlotSearchProps.

Module QueueModelProps.
Import Queue QueueProps.

(** ** Sorting documents that an update has touched *)

Lemma list_merge_cons {A} (R : relation A) `{!RelDecision R} x1 l1 x2 l2 :
  list_merge R (x1 :: l1) (x2 :: l2)
  = if decide (R x1 x2) then x1 :: list_merge R l1 (x2 :: l2)
    else x2 :: list_merge R (x1 :: l1) l2.
Proof. done. Qed.

Lemma list_merge_fmap {A} (R : relation A) `{!RelDecision R}
    (f : A → A) :
  (∀ a b, R (f a) (f b) ↔ R a b) →
  ∀ l1 l2, list_merge R (f <$> l1) (f <$> l2) = f <$> list_merge R l1 l2.
Proof.
  intros Hf. induction l1 as [|x1 l1 IH1]; intros l2; [by destruct l2|].
  induction l2 as [|x2 l2 IH2]; [done|].
  rewrite !fmap_cons, !list_merge_cons.
  pose proof (Hf x1 x2) as Hx.
  destruct (decide (R x1 x2)) as [H|H],
    (decide (R (f x1) (f x2))) as [H'|H']; [|tauto|tauto|];
    rewrite fmap_cons; f_equal.
  - exact (IH1 (x2 :: l2)).
  - exact IH2.
Qed.

Lemma merge_list_to_stack_fmap {A} (R : relation A)
    `{!RelDecision R} (f : A → A) :
  (∀ a b, R (f a) (f b) ↔ R a b) →
  ∀ (st : list (option (list A))) (l : list A),
    merge_list_to_stack R ((λ o : option (list A), fmap (M:=list) f <$> o) <$> st) (f <$> l)
    = (λ o : option (list A), fmap (M:=list) f <$> o)
      <$> merge_list_to_stack R st l.
Proof.
  intros Hf. induction st as [|[l'|] st IH]; intros l; [done| |done].
  cbn. by rewrite list_merge_fmap, IH.
Qed.

Lemma merge_stack_fmap {A} (R : relation A) `{!RelDecision R}
    (f : A → A) :
  (∀ a b, R (f a) (f b) ↔ R a b) →
  ∀ st : list (option (list A)),
    merge_stack R ((λ o : option (list A), fmap (M:=list) f <$> o) <$> st) = f <$> merge_stack R st.
Proof.
  intros Hf. induction st as [|[l'|] st IH]; [done| |done].
  cbn. by rewrite IH, list_merge_fmap.
Qed.

Lemma merge_sort_aux_fmap {A} (R : relation A) `{!RelDecision R}
    (f : A → A) :
  (∀ a b, R (f a) (f b) ↔ R a b) →
  ∀ (l : list A) (st : list (option (list A))),
    merge_sort_aux R ((λ o : option (list A), fmap (M:=list) f <$> o) <$> st) (f <$> l)
    = f <$> merge_sort_aux R st l.
Proof.
  intros Hf. induction l as [|x l IH]; intros st.
  - by apply merge_stack_fmap.
  - cbn. rewrite <- IH. f_equal.
    by rewrite <- (merge_list_to_stack_fmap R f Hf st [x]).
Qed.

Lemma sort_fmap cmp (f : IQueue → IQueue) l :
  (∀ a b, cmp (f a) (f b) = cmp a b) →
  sort cmp (f <$> l) = f <$> sort cmp l.
Proof.
  intros Hf. unfold sort, merge_sort.
  assert (∀ a b, notAfter cmp (f a) (f b) ↔ notAfter cmp a b) as Hf'
    by (intros a b; unfold notAfter; by rewrite Hf).
  exact (merge_sort_aux_fmap (notAfter cmp) f Hf' l []).
Qed.

(** ** recalculatePositions *)

Lemma renumber_apartFromPosition i ws e :
  apartFromPosition (renumber i ws e) = apartFromPosition e.
Proof. unfold renumber. by repeat case_match. Qed.

Lemma recalculatePositions_lookup q i e :
  NoDup (_id <$> q) → q !! i = Some e →
  ∃ e', recalculatePositions q !! i = Some e'
        ∧ apartFromPosition e' = apartFromPosition e
        ∧ (status e ≠ waiting → e' = e).
Proof.
  intros Hnd Hi. rewrite recalculatePositions_renumber by done.
  rewrite list_lookup_fmap, Hi. eexists. split; [done|].
  split; [apply renumber_apartFromPosition|].
  intros Hs. apply recalculatePositions_other; [done| |done].
  by eapply list_elem_of_lookup_2.
Qed.

Lemma findWaiting_length_recalculatePositions q :
  NoDup (_id <$> q) →
  length (findWaiting (recalculatePositions q)) = length (findWaiting q).
Proof.
  intros Hnd. by rewrite findWaiting_recalculatePositions, length_fmap.
Qed.

(** X20.  Recalculation writes positions and nothing else: the collection
    keeps its documents in place, a document that is not waiting is left
    exactly as it was, a waiting one keeps every field but its position,
    and the count the service reports is the number of waiting
    documents. *)
Theorem recalculatePositions_only_renumbers q :
  NoDup (_id <$> q) →
  length (recalculatePositions q) = length q
  ∧ (∀ i e, q !! i = Some e →
       ∃ e', recalculatePositions q !! i = Some e'
             ∧ apartFromPosition e' = apartFromPosition e
             ∧ (status e ≠ waiting → e' = e))
  ∧ recalculatePositionsService q
    = (recalculatePositions q, length (findWaiting q)).
Proof.
  intros Hnd. split; [|split].
  - by rewrite recalculatePositions_renumber, length_fmap.
  - intros i e. by apply recalculatePositions_lookup.
  - unfold recalculatePositionsService. cbv zeta.
    by rewrite findWaiting_length_recalculatePositions.
Qed.

(** The theorem at work: the three arrivals of one minute. *)
Lemma recalculatePositions_only_renumbers_witness :
  length (recalculatePositions threeArrivals) = length threeArrivals.
Proof.
  apply (recalculatePositions_only_renumbers threeArrivals).
  apply (bool_decide_unpack _). by vm_compute.
Defined.

Lemma list_find_renumbered i ws (ws' : list IQueue) e :
  list_find (λ w, _id w = _id (renumber i ws e)) (renumber i ws <$> ws')
  = prod_map id (renumber i ws) <$> list_find (λ w, _id w = _id e) ws'.
Proof.
  rewrite list_find_fmap.
  destruct (renumber_fields i ws e) as (-> & _).
  f_equal. apply list_find_ext. intros w. cbn.
  by destruct (renumber_fields i ws w) as (-> & _).
Qed.

Lemma renumber_renumber (ws : list IQueue) e :
  renumber 0 (renumber 0 ws <$> ws) (renumber 0 ws e) = renumber 0 ws e.
Proof.
  unfold renumber at 1. rewrite list_find_renumbered.
  unfold renumber.
  by destruct (list_find (λ w, _id w = _id e) ws) as [[k w]|].
Qed.

Lemma recalculatePositions_idemp q :
  NoDup (_id <$> q) →
  recalculatePositions (recalculatePositions q) = recalculatePositions q.
Proof.
  intros Hnd.
  assert (NoDup (_id <$> recalculatePositions q)) as Hnd'
    by (by rewrite recalculatePositions_ids).
  rewrite (recalculatePositions_renumber (recalculatePositions q)) by done.
  rewrite findWaiting_recalculatePositions by done.
  rewrite sort_fmap.
  2:{ intros a b.
      generalize (sort compareRecalculate (findWaiting q)). intros ws.
      unfold compareRecalculate, comparePriority.
      destruct (renumber_fields 0 ws a) as (_ & _ & -> & ->).
      by destruct (renumber_fields 0 ws b) as (_ & _ & -> & ->). }
  rewrite recalculatePositions_renumber by done.
  rewrite <- list_fmap_compose. apply list_fmap_ext. intros _ e _. cbn.
  apply renumber_renumber.
Qed.

(** *** Sorts without ties

    When no two of the documents agree on every sort key, the order of a
    sort is determined: every arrangement the database may return is the
    one [sort] computes. *)

Lemma sortedBy_unique_on {A} (R : relation A) (l1 l2 : list A) :
  (∀ a b, a ∈ l1 → b ∈ l1 → R a b → R b a → a = b) →
  StronglySorted R l1 → StronglySorted R l2 → l1 ≡ₚ l2 → l1 = l2.
Proof.
  revert l2. induction l1 as [|x l1 IH]; intros l2 Hanti Hs1 Hs2 Hp.
  { by apply Permutation_nil_l in Hp. }
  destruct l2 as [|y l2]; [by apply Permutation_nil_r in Hp|].
  apply StronglySorted_inv in Hs1 as [Hs1 Hx].
  apply StronglySorted_inv in Hs2 as [Hs2 Hy].
  rewrite Forall_forall in Hx, Hy.
  assert (x = y) as <-.
  { assert (x ∈ y :: l2) as Hxy by (rewrite <- Hp; left).
    assert (y ∈ x :: l1) as Hyx by (rewrite Hp; left).
    apply elem_of_cons in Hxy as [->|Hxy]; [done|].
    apply elem_of_cons in Hyx as [->|Hyx]; [done|].
    apply Hanti; [left | by right | by apply Hx | by apply Hy]. }
  f_equal. apply IH; [|done|done|by apply (inj (cons x))].
  intros a b Ha Hb. apply Hanti; by right.
Qed.

Lemma compareRecalculate_Eq a b :
  compareRecalculate a b = Eq →
  priority a = priority b ∧ checkInTime a = checkInTime b.
Proof.
  unfold compareRecalculate, comparePriority, thenBy, descending.
  destruct (priority a), (priority b); cbn; try done;
    by intros ?%Z.compare_eq.
Qed.

Lemma notAfter_compareRecalculate_antisym a b :
  notAfter compareRecalculate a b → notAfter compareRecalculate b a →
  priority a = priority b ∧ checkInTime a = checkInTime b.
Proof.
  intros Hab Hba. apply compareRecalculate_Eq.
  revert Hab Hba.
  unfold notAfter, compareRecalculate, comparePriority, thenBy, descending.
  destruct (priority a), (priority b); cbn; try done;
    rewrite (Z.compare_antisym (checkInTime a) (checkInTime b));
    by destruct (checkInTime a ?= checkInTime b)%Z.
Qed.

Lemma NoDup_fmap_elem_of {A B} (f : A → B) (l : list A) a b :
  NoDup (f <$> l) → a ∈ l → b ∈ l → f a = f b → a = b.
Proof.
  intros Hnd [i Hi]%list_elem_of_lookup [j Hj]%list_elem_of_lookup Hf.
  assert (i = j) as ->; [|congruence].
  eapply (NoDup_lookup _ _ _ _ Hnd); rewrite list_lookup_fmap.
  - by rewrite Hi.
  - by rewrite Hj, Hf.
Qed.

Lemma sortedBy_compareRecalculate_unique (l ws : list IQueue) :
  NoDup ((λ e, (priority e, checkInTime e)) <$> l) →
  sortedBy compareRecalculate l ws →
  ws = sort compareRecalculate l.
Proof.
  intros Hnd [Hp Hs].
  apply (sortedBy_unique_on (notAfter compareRecalculate)); [|done|..].
  - intros a b Ha Hb Hab Hba. rewrite Hp in Ha, Hb.
    destruct (notAfter_compareRecalculate_antisym a b Hab Hba) as [Hpr Ht].
    apply (NoDup_fmap_elem_of _ _ _ _ Hnd Ha Hb). cbn. by rewrite Hpr, Ht.
  - apply sort_StronglySorted; apply _.
  - by rewrite Hp, sort_Permutation.
Qed.

Lemma sortKeys_recalculatePositions q :
  NoDup (_id <$> q) →
  (λ e, (priority e, checkInTime e)) <$> findWaiting (recalculatePositions q)
  = (λ e, (priority e, checkInTime e)) <$> findWaiting q.
Proof.
  intros Hnd. rewrite findWaiting_recalculatePositions by done.
  rewrite <- list_fmap_compose. apply list_fmap_ext. intros _ e _. cbn.
  generalize (sort compareRecalculate (findWaiting q)). intros ws.
  by destruct (renumber_fields 0 ws e) as (_ & _ & -> & ->).
Qed.

(** X21.  Recalculating twice is recalculating once.  For a collection
    in which no two waiting entries have both the same priority and the
    same check-in time, whatever order the database returns for the sort
    of the first run ([ws]) and for that of the second ([ws']): the first
    run gives the positions of [recalculatePositions], and the second run
    writes them again, so it changes nothing. *)
Theorem recalculatePositions_idempotent q ws ws' :
  NoDup (_id <$> q) →
  NoDup ((λ e, (priority e, checkInTime e)) <$> findWaiting q) →
  sortedBy compareRecalculate (findWaiting q) ws →
  sortedBy compareRecalculate (findWaiting (assignPositions 0 ws q)) ws' →
  assignPositions 0 ws q = recalculatePositions q
  ∧ assignPositions 0 ws' (assignPositions 0 ws q) = assignPositions 0 ws q
  ∧ recalculatePositions (recalculatePositions q) = recalculatePositions q
  ∧ fst (recalculatePositionsService (fst (recalculatePositionsService q)))
    = fst (recalculatePositionsService q).
Proof.
  intros Hnd Hties Hws Hws'.
  apply sortedBy_compareRecalculate_unique in Hws as ->; [|done].
  fold (recalculatePositions q) in Hws' |- *.
  apply sortedBy_compareRecalculate_unique in Hws' as ->;
    [|by rewrite sortKeys_recalculatePositions].
  fold (recalculatePositions (recalculatePositions q)). cbn [fst].
  unfold recalculatePositionsService. cbn [fst].
  by rewrite recalculatePositions_idemp.
Qed.

(** The theorem at work: the three arrivals of one minute, whose sort
    puts the medium entry first, then the low one, then the high one. *)
Lemma recalculatePositions_idempotent_witness :
  let ws := sort compareRecalculate (findWaiting threeArrivals) in
  assignPositions 0 ws threeArrivals = recalculatePositions threeArrivals
  ∧ assignPositions 0
      (sort compareRecalculate (findWaiting (assignPositions 0 ws
                                               threeArrivals)))
      (assignPositions 0 ws threeArrivals)
    = assignPositions 0 ws threeArrivals.
Proof.
  cbv zeta.
  destruct (recalculatePositions_idempotent threeArrivals
              (sort compareRecalculate (findWaiting threeArrivals))
              (sort compareRecalculate
                 (findWaiting (assignPositions 0
                    (sort compareRecalculate (findWaiting threeArrivals))
                    threeArrivals))))
    as (H1 & H2 & _).
  - apply (bool_decide_unpack _). by vm_compute.
  - apply (bool_decide_unpack _). by vm_compute.
  - split; [apply sort_Permutation | apply sort_StronglySorted; apply _].
  - split; [apply sort_Permutation | apply sort_StronglySorted; apply _].
  - by split.
Defined.

Lemma storedBefore_cases a b :
  storedBefore a b
  ↔ (a = medium ∧ b ≠ medium) ∨ (a = low ∧ b = high).
Proof.
  unfold storedBefore. destruct a, b; cbn; split; intros H;
    try lia; try (by left); try (by right); destruct H as [[? ?]|[? ?]];
    congruence.
Qed.

(** X22.  The order that recalculation gives the waiting entries, read by
    increasing position, is the order of the stored priority strings
    reversed, and check-in time within one priority: medium before low
    before high. *)
Theorem recalculatePositions_orders_by_stored_string q a b :
  NoDup (_id <$> q) →
  a ∈ findWaiting (recalculatePositions q) →
  b ∈ findWaiting (recalculatePositions q) →
  position a < position b →
  (priority a = medium ∧ priority b ≠ medium)
  ∨ (priority a = low ∧ priority b = high)
  ∨ (priority a = priority b ∧ (checkInTime a ≤ checkInTime b)%Z).
Proof.
  intros Hnd Ha Hb Hlt.
  pose proof (recalculatePositions_sorted q Hnd a b Ha Hb Hlt) as H.
  apply notAfter_compareRecalculate in H as [H|[H1 H2]].
  - apply (storedBefore_cases (priority a) (priority b)) in H. tauto.
  - right; right. split; [|done].
    destruct (priority a), (priority b); cbn in H1; congruence.
Qed.

(** The theorem at work: after the three arrivals, the medium-priority
    patient stands at position 1 and the high-priority one at 3. *)
Lemma recalculatePositions_orders_by_stored_string_witness :
  let a := mkQueue 3 13 23 None 1 waiting medium 40000 None None None 30
             None None None in
  let b := mkQueue 1 11 21 None 3 waiting high 0 None None None 15
             None None None in
  (priority a = medium ∧ priority b ≠ medium)
  ∨ (priority a = low ∧ priority b = high)
  ∨ (priority a = priority b ∧ (checkInTime a ≤ checkInTime b)%Z).
Proof.
  intros a b.
  apply (recalculatePositions_orders_by_stored_string threeArrivals a b).
  - apply (bool_decide_unpack _). by vm_compute.
  - by apply (list_elem_of_lookup_2 _ 2).
  - by apply (list_elem_of_lookup_2 _ 0).
  - cbn. lia.
Defined.

(** ** getCurrentQueue and getDoctorQueue *)

Lemma compareStatus_statusRank a b :
  compareStatus a b
  = Nat.compare (statusRank (status a)) (statusRank (status b)).
Proof. unfold compareStatus. by destruct (status a), (status b). Qed.

Lemma notAfter_compareCurrentQueue a b :
  notAfter compareCurrentQueue a b ↔
  statusRank (status b) < statusRank (status a)
  ∨ (statusRank (status a) = statusRank (status b)
     ∧ (stringRank (priority b) < stringRank (priority a)
        ∨ (stringRank (priority a) = stringRank (priority b)
           ∧ position a ≤ position b))).
Proof.
  unfold notAfter, compareCurrentQueue, thenBy, descending.
  rewrite compareStatus_statusRank, comparePriority_stringRank.
  destruct (Nat.compare_spec (statusRank (status a))
              (statusRank (status b))); cbn;
    [destruct (Nat.compare_spec (stringRank (priority a))
                 (stringRank (priority b))); cbn;
       [rewrite Nat.compare_gt_iff | |] | |];
    intuition (congruence || lia).
Qed.

Global Instance compareCurrentQueue_total :
  Total (notAfter compareCurrentQueue).
Proof. intros a b. rewrite !notAfter_compareCurrentQueue. lia. Qed.

Global Instance compareCurrentQueue_trans :
  Transitive (notAfter compareCurrentQueue).
Proof. intros a b c. rewrite !notAfter_compareCurrentQueue. lia. Qed.

Lemma sort_compareCurrentQueue_order l i j a b :
  Forall (λ e, status e ∈ [waiting; in_progress]) l →
  sort compareCurrentQueue l !! i = Some a →
  sort compareCurrentQueue l !! j = Some b → i < j →
  (status a = waiting ∧ status b = in_progress)
  ∨ (status a = status b
     ∧ (storedBefore (priority a) (priority b)
        ∨ (priority a = priority b ∧ position a ≤ position b))).
Proof.
  intros Hl Hi Hj Hij.
  pose proof (StronglySorted_lookup _ _ _ _ _ _
                (sort_StronglySorted compareCurrentQueue l _ _) Hi Hj Hij)
    as H.
  apply notAfter_compareCurrentQueue in H.
  rewrite Forall_forall in Hl.
  assert (status a ∈ [waiting; in_progress]) as Ha.
  { apply Hl. rewrite <- (sort_Permutation compareCurrentQueue).
    by eapply list_elem_of_lookup_2. }
  assert (status b ∈ [waiting; in_progress]) as Hb.
  { apply Hl. rewrite <- (sort_Permutation compareCurrentQueue).
    by eapply list_elem_of_lookup_2. }
  rewrite !elem_of_cons, !elem_of_nil in Ha, Hb. unfold storedBefore.
  destruct H as [H|(Hs & H)].
  - left. destruct Ha as [Ha|[Ha|[]]], Hb as [Hb|[Hb|[]]];
      rewrite Ha, Hb in *; cbn in H; try lia; done.
  - right. split.
    + destruct (status a), (status b); cbn in Hs; congruence.
    + destruct H as [H|[Hp H]]; [by left|right]. split; [|done].
      destruct (priority a), (priority b); cbn in Hp; congruence.
Qed.

(** X30.  The queue the staff sees.  [getCurrentQueue] lists the entries
    that are waiting or in progress, each once; [getDoctorQueue] lists
    those of them that carry the doctor.  Both put every waiting entry
    before every entry in progress, and within one status the medium
    priority before low before high, and within one priority the smaller
    position first. *)
Theorem current_queue_order q doctorId :
  getCurrentQueue q ≡ₚ findActive q
  ∧ (∀ e, e ∈ getCurrentQueue q
          ↔ e ∈ q ∧ (status e = waiting ∨ status e = in_progress))
  ∧ (∀ e, e ∈ getDoctorQueue doctorId q
          ↔ e ∈ getCurrentQueue q ∧ doctor e = Some doctorId)
  ∧ (∀ l i j a b,
       l = getCurrentQueue q ∨ l = getDoctorQueue doctorId q →
       l !! i = Some a → l !! j = Some b → i < j →
       (status a = waiting ∧ status b = in_progress)
       ∨ (status a = status b
          ∧ (storedBefore (priority a) (priority b)
             ∨ (priority a = priority b ∧ position a ≤ position b)))).
Proof.
  assert (∀ e, e ∈ getCurrentQueue q
               ↔ e ∈ q ∧ (status e = waiting ∨ status e = in_progress))
    as Hcur.
  { intros e. unfold getCurrentQueue, findActive.
    rewrite sort_Permutation, list_elem_of_filter, !elem_of_cons,
      elem_of_nil. tauto. }
  split; [apply sort_Permutation|]. split; [done|]. split.
  - intros e. rewrite Hcur. unfold getDoctorQueue.
    rewrite sort_Permutation, list_elem_of_filter, !elem_of_cons,
      elem_of_nil. tauto.
  - intros l i j a b [->| ->]; apply sort_compareCurrentQueue_order;
      apply Forall_forall; intros e He%list_elem_of_filter; tauto.
Qed.

End QueueModelProps.

Module QueueServiceProps.
Import Queue QueueProps QueueModelProps.

(** ** Documents and their identifiers *)

Lemma NoDup_ids_eq (q : list IQueue) a b :
  NoDup (_id <$> q) → a ∈ q → b ∈ q → _id a = _id b → a = b.
Proof.
  intros Hnd [i Hi]%list_elem_of_lookup_1 [j Hj]%list_elem_of_lookup_1 E.
  assert (i = j); [|congruence].
  eapply (NoDup_lookup _ _ _ (_id a) Hnd); rewrite list_lookup_fmap.
  - by rewrite Hi.
  - by rewrite Hj, E.
Qed.


Lemma applyUpdate_identity u e : identity (applyUpdate u e) = identity e.
Proof. done. Qed.

Lemma renumber_identity i ws e : identity (renumber i ws e) = identity e.
Proof.
  pose proof (renumber_apartFromPosition i ws e) as H.
  unfold apartFromPosition in H. congruence.
Qed.

(** ** addToQueue *)

Lemma addToQueue_cases now visitId patientId pr wait q :
  match addToQueue now visitId patientId pr wait q with
  | Throw e =>
      (e = VisitAlreadyInQueue ∧ visitId ∈ visit <$> q)
      ∨ (e = ValidationError ∧ (visitId ∉ visit <$> q) ∧ (wait < 0)%Z)
  | Ok (q', queueEntry) =>
      (visitId ∉ visit <$> q)
      ∧ (0 ≤ wait)%Z
      ∧ q' = q ++ [queueEntry]
      ∧ queueEntry
        = mkQueue (freshId q) visitId patientId None
            (max_list (position <$> findWaiting q) + 1) waiting pr now
            None None None wait None None None
  end.
Proof.
  unfold addToQueue.
  destruct (head (filter (λ e, visit e = visitId) q)) as [e|] eqn:E.
  - left. split; [done|]. apply head_filter_elem_of in E as [He <-].
    by apply list_elem_of_fmap_2.
  - cbv zeta. rewrite getNextPosition_max.
    assert (visitId ∉ visit <$> q) as Hv.
    { apply head_None in E.
      intros (e & -> & He)%list_elem_of_fmap.
      by apply (proj1 (filter_empty_iff _ _) E e). }
    unfold validateNumbers.
    cbn [position estimatedWaitTime actualWaitTime from_option].
    replace (1 <=? max_list (position <$> findWaiting q) + 1) with true
      by (symmetry; apply Nat.leb_le; lia).
    rewrite andb_true_r. cbn [andb].
    destruct (Z.leb_spec 0 wait); cbn [negb].
    + by repeat split.
    + right. by repeat split.
Qed.


(** ** What a request does to the stored documents

    Every request rewrites the collection document by document and may
    append one. *)

Lemma recalculatePositions_shape q :
  NoDup (_id <$> q) →
  ∃ f, recalculatePositions q = f <$> q
       ∧ (∀ e, identity (f e) = identity e)
       ∧ (∀ e, e ∈ q → status e ≠ waiting → f e = e).
Proof.
  intros Hnd. exists (renumber 0 (sort compareRecalculate (findWaiting q))).
  split; [by apply recalculatePositions_renumber|].
  split; [apply renumber_identity|].
  intros e He Hs. by apply recalculatePositions_other.
Qed.

Lemma findByIdAndUpdate_then_recalculate id u q :
  NoDup (_id <$> q) →
  ∃ f, recalculatePositions (findByIdAndUpdate id u q) = f <$> q
       ∧ (∀ e, identity (f e) = identity e)
       ∧ (∀ e, e ∈ q → _id e ≠ id → status e ≠ waiting → f e = e).
Proof.
  intros Hnd.
  destruct (recalculatePositions_shape (findByIdAndUpdate id u q))
    as (f & -> & Hf & Hother); [by rewrite findByIdAndUpdate_ids|].
  exists (λ e, f (if decide (_id e = id) then applyUpdate u e else e)).
  split; [unfold findByIdAndUpdate; by rewrite <- list_fmap_compose|].
  split.
  - intros e. rewrite Hf. by destruct (decide (_id e = id)).
  - intros e He Hid Hs. rewrite decide_False by done.
    apply Hother; [|done]. unfold findByIdAndUpdate.
    apply list_elem_of_fmap. exists e. by rewrite decide_False.
Qed.

Lemma perform_shape staff now op q q' :
  NoDup (_id <$> q) → perform staff now op q = Ok q' →
  ∃ f new,
    q' = (f <$> q) ++ new
    ∧ (∀ e, e ∈ q → identity (f e) = identity e)
    ∧ (∀ e, e ∈ q → status e = completed → isRemoval op = false → f e = e)
    ∧ (new = [] ∨ ∃ x, new = [x] ∧ visit x ∉ visit <$> q).
Proof.
  intros Hnd. destruct op as [v p pr w|id u|c|id r|]; cbn.
  - pose proof (addToQueue_cases now v p pr w q) as H.
    destruct (addToQueue now v p pr w q) as [[q1 e]|err]; [|done].
    destruct H as (Hv & _ & -> & ->). intros [= <-].
    exists id, [mkQueue (freshId q) v p None
                  (max_list (position <$> findWaiting q) + 1) waiting pr now
                  None None None w None None None].
    rewrite list_fmap_id. repeat split; try done. right. by eexists.
  - destruct (findById id q) as [entry|] eqn:E;
      [|unfold updateQueueStatus; by rewrite E].
    pose proof (updateQueueStatus_accepts now id u q entry E) as Hacc.
    destruct (updateQueueStatus now id u q) as [[q1 e1]|err] eqn:Hres;
      [|done].
    destruct Hacc as (Hv & Hvalid & _).
    rewrite (updateQueueStatus_ok now id u q entry E Hv Hvalid) in Hres.
    injection Hres as <- _. intros [= <-].
    apply findById_Some in E as [Hentry Hid].
    assert (∀ e, e ∈ q → status e = completed → _id e ≠ id) as Hdone.
    { intros e He Hs Heq.
      assert (entry = e) as -> by (apply (NoDup_ids_eq q); congruence).
      rewrite Hs in Hv. by vm_compute in Hv. }
    destruct (decide (upd_status u = waiting)) as [Hw|Hw].
    + destruct (findByIdAndUpdate_then_recalculate id
                  (updateWithTiming now entry u) q Hnd)
        as (f & -> & Hf & Hother).
      exists f, []. rewrite app_nil_r. repeat split; try done.
      * intros e He Hs _. apply Hother; [done|by apply Hdone|].
        by rewrite Hs.
      * by left.
    + exists (λ e, if decide (_id e = id)
                   then applyUpdate (updateWithTiming now entry u) e else e),
        [].
      rewrite app_nil_r. repeat split; try done.
      * intros e _. by destruct (decide (_id e = id)).
      * intros e He Hs _. rewrite decide_False; [done|by apply Hdone].
      * by left.
  - pose proof (callNextPatient_cases staff now c q) as H.
    destruct (callNextPatient staff now c q) as [[q1 called]|err]; [|done].
    destruct H as (_ & _ & nextPatient & Hin & _ & Hcalled & ->).
    intros [= <-].
    apply list_elem_of_filter in Hin as [Hwait Hin].
    assert (_id called = _id nextPatient) as Hid by (by rewrite Hcalled).
    destruct (recalculatePositions_shape (save called q))
      as (f & -> & Hf & Hother); [by rewrite save_ids|].
    exists (λ e, f (if decide (_id e = _id called) then called else e)), [].
    rewrite app_nil_r. unfold save at 1.
    rewrite <- list_fmap_compose. repeat split; try done.
    + intros e He. rewrite Hf.
      destruct (decide (_id e = _id called)) as [Heq|]; [|done].
      assert (nextPatient = e) as <-
        by (apply (NoDup_ids_eq q); congruence).
      by rewrite Hcalled.
    + intros e He Hs _.
      assert (_id e ≠ _id called) as Hne.
      { intros Heq.
        assert (nextPatient = e) as <-
          by (apply (NoDup_ids_eq q); congruence).
        congruence. }
      rewrite decide_False by done. apply Hother; [|by rewrite Hs].
      unfold save. apply list_elem_of_fmap. exists e.
      by rewrite decide_False.
    + by left.
  - unfold removeFromQueue. cbv zeta.
    destruct (findById id (findByIdAndUpdate id _ q)); [|done].
    intros [= <-].
    destruct (findByIdAndUpdate_then_recalculate id
                (mkUpdate (Some cancelled) None None None None None None
                   (Some r)) q Hnd) as (f & -> & Hf & _).
    exists f, []. rewrite app_nil_r. repeat split; try done. by left.
  - intros [= <-].
    destruct (recalculatePositions_shape q Hnd) as (f & -> & Hf & Hother).
    exists f, []. rewrite app_nil_r. repeat split; try done.
    + intros e He Hs _. apply Hother; [done|by rewrite Hs].
    + by left.
Qed.

Lemma step_shape staff q req :
  NoDup (_id <$> q) →
  ∃ f new,
    step staff q req = (f <$> q) ++ new
    ∧ (∀ e, e ∈ q → identity (f e) = identity e)
    ∧ (∀ e, e ∈ q → status e = completed → isRemoval req.2 = false →
            f e = e)
    ∧ (new = [] ∨ ∃ x, new = [x] ∧ visit x ∉ visit <$> q).
Proof.
  intros Hnd. unfold step.
  destruct (perform staff req.1 req.2 q) as [q'|err] eqn:E.
  - by eapply perform_shape.
  - exists id, []. rewrite list_fmap_id, app_nil_r.
    repeat split; try done. by left.
Qed.

Lemma run_lookup staff reqs :
  ∀ q i e,
    NoDup (_id <$> q) → q !! i = Some e →
    ∃ e', run staff reqs q !! i = Some e'
          ∧ identity e' = identity e
          ∧ (status e = completed →
             Forall (λ req, isRemoval req.2 = false) reqs → e' = e).
Proof.
  unfold run. induction reqs as [|req reqs IH]; intros q i e Hnd Hi.
  - by exists e.
  - cbn [foldl].
    destruct (step_shape staff q req Hnd) as (f & new & Hq & Hf & Hc & _).
    assert (e ∈ q) as He by (by eapply list_elem_of_lookup_2).
    destruct (IH (step staff q req) i (f e)) as (e' & He' & Hid & Hdone).
    + by apply step_NoDup.
    + rewrite Hq, lookup_app_l, list_lookup_fmap, Hi; [done|].
      rewrite length_fmap. by eapply lookup_lt_Some.
    + exists e'. split; [done|]. split; [by rewrite Hid, Hf|].
      intros Hs [Hr Hrs]%Forall_cons.
      rewrite (Hc e He Hs Hr) in Hdone. by apply Hdone.
Qed.

Lemma run_visits staff reqs :
  ∀ q, NoDup (_id <$> q) → NoDup (visit <$> q) →
       NoDup (visit <$> run staff reqs q).
Proof.
  unfold run. induction reqs as [|req reqs IH]; intros q Hnd Hv; [done|].
  cbn [foldl]. apply IH; [by apply step_NoDup|].
  destruct (step_shape staff q req Hnd) as (f & new & -> & Hf & _ & Hnew).
  assert (visit <$> (f <$> q) = visit <$> q) as Hsame.
  { rewrite <- list_fmap_compose. apply list_fmap_ext. intros i e Hi. cbn.
    assert (identity (f e) = identity e) as H
      by (by eapply Hf, list_elem_of_lookup_2).
    unfold identity in H. congruence. }
  rewrite fmap_app, Hsame.
  destruct Hnew as [->|(x & -> & Hx)]; [by rewrite app_nil_r|].
  apply NoDup_app. split; [done|]. split; [|apply NoDup_singleton].
  intros v Hin ->%list_elem_of_singleton. done.
Qed.

Lemma run_length staff reqs :
  ∀ q, NoDup (_id <$> q) → length q ≤ length (run staff reqs q).
Proof.
  unfold run. induction reqs as [|req reqs IH]; intros q Hnd; [done|].
  cbn [foldl]. etrans; [|apply IH; by apply step_NoDup].
  destruct (step_shape staff q req Hnd) as (f & new & -> & _).
  rewrite length_app, length_fmap. lia.
Qed.

(** X24.  No sequence of requests deletes an entry or moves it in the
    collection, and none rewrites whose entry it is: identifier, visit,
    patient, priority, check-in time, estimated and actual wait time stay
    what they were when the entry was made.  In particular the priority of
    a queued patient cannot be changed and [actualWaitTime] is never
    filled in. *)
Theorem requests_keep_entries_and_identity staff reqs q :
  NoDup (_id <$> q) →
  length q ≤ length (run staff reqs q)
  ∧ ∀ i e, q !! i = Some e →
      ∃ e', run staff reqs q !! i = Some e' ∧ identity e' = identity e.
Proof.
  intros Hnd. split; [by apply run_length|]. intros i e Hi.
  destruct (run_lookup staff reqs q i e Hnd Hi) as (e' & He' & Hid & _).
  by exists e'.
Qed.

(** The theorem at work: the three arrivals, then a call and a removal. *)
Lemma requests_keep_entries_and_identity_witness :
  length threeArrivals
  ≤ length (run onDuty
              [(60000%Z, OpCallNextPatient (mkNextPatientCall 9 None));
               (70000%Z, OpRemoveFromQueue 2 "left")] threeArrivals).
Proof.
  apply (requests_keep_entries_and_identity onDuty
           [(60000%Z, OpCallNextPatient (mkNextPatientCall 9 None));
            (70000%Z, OpRemoveFromQueue 2 "left")] threeArrivals).
  apply (bool_decide_unpack _). by vm_compute.
Defined.

(** X25.  A completed entry is final for every request but a removal:
    whatever sequence of check-ins, status updates, calls and
    recalculations follows, the entry stays as it is, field by field. *)
Theorem completed_entry_is_final staff reqs q i e :
  NoDup (_id <$> q) → q !! i = Some e → status e = completed →
  Forall (λ req, isRemoval req.2 = false) reqs →
  run staff reqs q !! i = Some e.
Proof.
  intros Hnd Hi Hs Hreqs.
  destruct (run_lookup staff reqs q i e Hnd Hi) as (e' & He' & _ & Hdone).
  by rewrite He', (Hdone Hs Hreqs).
Qed.

(** The theorem at work: the served patient, then an attempt to put the
    entry back to waiting, a call and a recalculation. *)
Lemma completed_entry_is_final_witness :
  run onDuty
    [(960000%Z, OpUpdateQueueStatus 1 (statusOnly waiting));
     (970000%Z, OpCallNextPatient (mkNextPatientCall 9 None));
     (980000%Z, OpRecalculatePositions)] served !! 0
  = Some (mkQueue 1 11 21 (Some 9) 1 completed low 0 (Some 60000%Z)
            (Some 60000%Z) (Some 900000%Z) 15 None (Some "R1"%string) None).
Proof.
  apply (completed_entry_is_final onDuty
           [(960000%Z, OpUpdateQueueStatus 1 (statusOnly waiting));
            (970000%Z, OpCallNextPatient (mkNextPatientCall 9 None));
            (980000%Z, OpRecalculatePositions)] served 0).
  - apply (bool_decide_unpack _). by vm_compute.
  - reflexivity.
  - reflexivity.
  - repeat constructor.
Defined.

(** X26.  A visit never has two entries: when identifiers and visits are
    unique in the collection, they are after any sequence of requests, so
    in every collection that grows from the empty one. *)
Theorem one_entry_per_visit staff reqs q :
  NoDup (_id <$> q) → NoDup (visit <$> q) →
  NoDup (_id <$> run staff reqs q) ∧ NoDup (visit <$> run staff reqs q).
Proof.
  intros Hnd Hv. split; [by apply run_NoDup|by apply run_visits].
Qed.

(** The theorem at work: the same visit checks in twice. *)
Lemma one_entry_per_visit_witness :
  NoDup (visit <$> run onDuty
           [(0%Z, OpAddToQueue 11 21 low 15);
            (20000%Z, OpAddToQueue 11 21 high 15)] []).
Proof.
  apply (one_entry_per_visit onDuty
           [(0%Z, OpAddToQueue 11 21 low 15);
            (20000%Z, OpAddToQueue 11 21 high 15)] []); constructor.
Defined.

(** ** callNextPatient *)








(** ** From the call to the end of the consultation *)





(** ** updateQueueStatus *)




End QueueServiceProps.

Module AppointmentServiceProps.
Import Appointment AppointmentProps AppointmentService.
Local Open Scope Z_scope.

(** ** validateAppointmentTime *)

Lemma validateAppointmentTime_cases tz now scheduledTime dur :
  match validateAppointmentTime tz now scheduledTime dur with
  | Returns _ =>
      now + MS_PER_HOUR ≤ scheduledTime
      ∧ 9 ≤ getHours tz scheduledTime ≤ 16 ∧ 15 ≤ dur ≤ 120
  | Throws NotInTheFuture => scheduledTime ≤ now
  | Throws OutsideBusinessHours =>
      now < scheduledTime
      ∧ (getHours tz scheduledTime < 9 ∨ 17 ≤ getHours tz scheduledTime)
  | Throws LessThanOneHourAhead =>
      now < scheduledTime < now + MS_PER_HOUR
      ∧ 9 ≤ getHours tz scheduledTime ≤ 16
  | Throws DurationOutOfBounds =>
      now + MS_PER_HOUR ≤ scheduledTime
      ∧ 9 ≤ getHours tz scheduledTime ≤ 16 ∧ (dur < 15 ∨ 120 < dur)
  | Throws _ => False
  end.
Proof.
  unfold validateAppointmentTime, MS_PER_HOUR. cbv zeta.
  repeat case_decide; lia.
Qed.

Lemma validateAppointmentTime_Returns tz now scheduledTime dur :
  validateAppointmentTime tz now scheduledTime dur = Returns ()
  ↔ now + MS_PER_HOUR ≤ scheduledTime
    ∧ 9 ≤ getHours tz scheduledTime ≤ 16 ∧ 15 ≤ dur ≤ 120.
Proof.
  pose proof (validateAppointmentTime_cases tz now scheduledTime dur) as H.
  split.
  - intros E. by rewrite E in H.
  - intros (Ht & Hh & Hd).
    destruct (validateAppointmentTime tz now scheduledTime dur)
      as [[]|[]]; cbv beta iota in H; try done; unfold MS_PER_HOUR in *; lia.
Qed.

(** ** createAppointment *)

Lemma createAppointment_Returns patients staff tz now data db db' a :
  createAppointment patients staff tz now data db = Returns (db', a)
  ↔ patientId data ∈ patients
    ∧ is_Some (Queue.findActiveDoctor (doctorId data) staff)
    ∧ findConflictingAppointments db (doctorId data) (new_scheduledTime data)
        (new_duration data) = []
    ∧ validateAppointmentTime tz now (new_scheduledTime data)
        (new_duration data) = Returns ()
    ∧ a = mkAppointment (newAppointmentId db) (patientId data) (doctorId data)
            (new_scheduledTime data) (new_duration data) scheduled
    ∧ db' = db ++ [a].
Proof.
  unfold createAppointment. cbv zeta.
  destruct (decide (patientId data ∈ patients)) as [Hp|Hp];
    [|split; [done|tauto]].
  destruct (Queue.findActiveDoctor (doctorId data) staff) as [doc|];
    [|split; [done|intros (_ & [? [=]] & _)]].
  destruct (findConflictingAppointments db (doctorId data)
              (new_scheduledTime data) (new_duration data)) as [|c cs].
  - rewrite decide_False by (cbn; lia).
    destruct (validateAppointmentTime tz now (new_scheduledTime data)
                (new_duration data)) as [[]|e].
    + split.
      * intros [= <- <-]. by repeat split.
      * by intros (_ & _ & _ & _ & -> & ->).
    + split; [done|]. by intros (_ & _ & _ & [=] & _).
  - rewrite decide_True by (cbn; lia). split; [done|].
    by intros (_ & _ & [=] & _).
Qed.

Lemma createAppointment_Throws patients staff tz now data db e :
  createAppointment patients staff tz now data db = Throws e →
  match e with
  | PatientNotFound => patientId data ∉ patients
  | DoctorNotFoundOrInactive =>
      Queue.findActiveDoctor (doctorId data) staff = None
  | SchedulingConflict k =>
      (0 < k)%nat
      ∧ k = length (findConflictingAppointments db (doctorId data)
                      (new_scheduledTime data) (new_duration data))
  | NegativeSkip => False
  | _ =>
      validateAppointmentTime tz now (new_scheduledTime data)
        (new_duration data) = Throws e
  end.
Proof.
  unfold createAppointment. cbv zeta.
  destruct (decide (patientId data ∈ patients)) as [Hp|Hp];
    [|by intros [= <-]].
  destruct (Queue.findActiveDoctor (doctorId data) staff) as [doc|];
    [|by intros [= <-]].
  destruct (decide (0 < length _)%nat) as [Hc|Hc]; [by intros [= <-]|].
  pose proof (validateAppointmentTime_cases tz now (new_scheduledTime data)
                (new_duration data)) as Hv.
  destruct (validateAppointmentTime tz now (new_scheduledTime data)
              (new_duration data)) as [[]|e']; [done|].
  intros [= <-]. by destruct e'.
Qed.

(** X15.  What [createAppointment] hands to [save]: a new appointment with
    status scheduled and an identifier no stored appointment has, added at
    the end of the collection, for a known patient and an active doctor,
    at a start time at least one hour ahead whose local hour is 9 to 16,
    for 15 to 120 minutes, and for which the conflict query returned
    nothing.  Nothing else is changed, and a refused request names the
    first check that failed, in the order patient, doctor, conflict,
    time. *)
Theorem createAppointment_outcome patients staff tz now data db :
  match createAppointment patients staff tz now data db with
  | Returns (db', a) =>
      db' = db ++ [a]
      ∧ (_id a ∉ _id <$> db)
      ∧ status a = scheduled
      ∧ patient a = patientId data ∧ patient a ∈ patients
      ∧ doctor a = doctorId data
      ∧ is_Some (Queue.findActiveDoctor (doctor a) staff)
      ∧ scheduledTime a = new_scheduledTime data
      ∧ duration a = new_duration data
      ∧ now + MS_PER_HOUR ≤ scheduledTime a
      ∧ 9 ≤ getHours tz (scheduledTime a) ≤ 16
      ∧ 15 ≤ duration a ≤ 120
      ∧ findConflictingAppointments db (doctor a) (scheduledTime a)
          (duration a) = []
  | Throws PatientNotFound => patientId data ∉ patients
  | Throws DoctorNotFoundOrInactive =>
      patientId data ∈ patients
      ∧ Queue.findActiveDoctor (doctorId data) staff = None
  | Throws (SchedulingConflict k) =>
      patientId data ∈ patients
      ∧ is_Some (Queue.findActiveDoctor (doctorId data) staff)
      ∧ (0 < k)%nat
      ∧ k = length (findConflictingAppointments db (doctorId data)
                      (new_scheduledTime data) (new_duration data))
  | Throws NegativeSkip => False
  | Throws e =>
      patientId data ∈ patients
      ∧ is_Some (Queue.findActiveDoctor (doctorId data) staff)
      ∧ findConflictingAppointments db (doctorId data)
          (new_scheduledTime data) (new_duration data) = []
      ∧ validateAppointmentTime tz now (new_scheduledTime data)
          (new_duration data) = Throws e
  end.
Proof.
  destruct (createAppointment patients staff tz now data db)
    as [[db' a]|e] eqn:E.
  - apply createAppointment_Returns in E
      as (Hp & Hd & Hc & Hv & -> & ->).
    apply validateAppointmentTime_Returns in Hv as (Ht & Hh & Hdur).
    cbn. repeat split; try done; try lia.
    intros H%max_list_elem_of_le. unfold newAppointmentId in H. lia.
  - pose proof (createAppointment_Throws _ _ _ _ _ _ _ E) as He.
    revert E. unfold createAppointment. cbv zeta.
    destruct (decide (patientId data ∈ patients)) as [Hp|Hp];
      [|by intros [= <-]].
    destruct (Queue.findActiveDoctor (doctorId data) staff) as [doc|] eqn:Ed;
      [|by intros [= <-]].
    destruct (decide (0 < length _)%nat) as [Hc|Hc];
      [intros [= <-]; by repeat split|].
    assert (findConflictingAppointments db (doctorId data)
              (new_scheduledTime data) (new_duration data) = []) as Hnil
      by (apply length_zero_iff_nil; lia).
    intros _. destruct e; try done; by repeat split.
Qed.

(** ** Double booking *)

Lemma overlaps_sym s1 d1 s2 d2 : overlaps s1 d1 s2 d2 → overlaps s2 d2 s1 d1.
Proof. unfold overlaps. lia. Qed.

Lemma overlapFree_snoc db a :
  overlapFree db →
  (∀ b, b ∈ db → doctor b = doctor a → active (status b) →
        active (status a) →
        ¬ overlaps (scheduledTime a) (duration a) (scheduledTime b)
            (duration b)) →
  overlapFree (db ++ [a]).
Proof.
  intros Hfree Hnew i j x y Hi Hj Hij Hdoc Hx Hy.
  apply lookup_snoc_Some in Hi as [[Hi Hxi]|[Hi <-]];
    apply lookup_snoc_Some in Hj as [[Hj Hyj]|[Hj <-]].
  - by eapply Hfree.
  - intros Ho%overlaps_sym. revert Ho. apply Hnew; try done.
    by eapply list_elem_of_lookup_2.
  - apply Hnew; try done. by eapply list_elem_of_lookup_2.
  - lia.
Qed.

Lemma createAppointment_overlapFree patients staff tz now data db db' a :
  overlapFree db →
  (∀ b, b ∈ db → doctor b = doctorId data → active (status b) →
        0 < duration b ≤ new_duration data) →
  createAppointment patients staff tz now data db = Returns (db', a) →
  overlapFree db'.
Proof.
  intros Hfree Hdur (Hp & Hd & Hc & Hv & -> & ->)%createAppointment_Returns.
  apply overlapFree_snoc; [done|]. cbn.
  intros b Hb Hdoc Hact _ Ho.
  assert (b ∈ findConflictingAppointments db (doctorId data)
                (new_scheduledTime data) (new_duration data)) as Hin.
  { apply AppointmentModelProps.findConflictingAppointments_found;
      try done. by apply (Hdur b). }
  rewrite Hc in Hin. by apply elem_of_nil in Hin.
Qed.

Lemma booking_step patients staff tz db request :
  overlapFree db →
  (∀ b, b ∈ db → doctor b = doctorId request.2 → active (status b) →
        0 < duration b ≤ new_duration request.2) →
  overlapFree (book patients staff tz db request).
Proof.
  intros Hfree Hdur. unfold book.
  destruct (createAppointment patients staff tz request.1 request.2 db)
    as [[db' a]|e] eqn:E; [|done].
  by eapply createAppointment_overlapFree.
Qed.

(** X16.  Booking keeps a doctor's calendar free of overlaps as long as
    no active appointment of that doctor is longer than the one requested:
    when no two active appointments of a doctor overlap before the request
    and those of the requested doctor last at most the requested duration,
    no two overlap after it, whether the request is stored or refused. *)
Theorem booking_keeps_calendar_overlap_free patients staff tz db request :
  overlapFree db →
  (∀ b, b ∈ db → doctor b = doctorId request.2 → active (status b) →
        0 < duration b ≤ new_duration request.2) →
  overlapFree (book patients staff tz db request).
Proof. apply booking_step. Qed.

(** The theorem at work: after 10:00-10:30, a request for 10:15-10:45 with
    the same doctor, served at 8:00. *)
Lemma booking_keeps_calendar_overlap_free_witness :
  overlapFree
    (book [7%nat] [Queue.mkStaff 5 Queue.doctor_role true] 0 [tenToHalfPast]
       (at_ 8 0, mkCreateAppointmentData 7 5 (at_ 10 15) 30)).
Proof.
  apply (booking_keeps_calendar_overlap_free [7%nat]
           [Queue.mkStaff 5 Queue.doctor_role true] 0 [tenToHalfPast]
           (at_ 8 0, mkCreateAppointmentData 7 5 (at_ 10 15) 30)).
  - intros [|[|i]] [|[|j]] x y; cbn; try done; intros; lia.
  - intros b ->%list_elem_of_singleton _ _. by vm_compute.
Defined.

Lemma book_durations patients staff tz db request b :
  b ∈ book patients staff tz db request →
  b ∈ db
  ∨ (duration b = new_duration request.2 ∧ 15 ≤ duration b ≤ 120
     ∧ status b = scheduled).
Proof.
  unfold book.
  destruct (createAppointment patients staff tz request.1 request.2 db)
    as [[db' a]|e] eqn:E; [|by left].
  apply createAppointment_Returns in E as (Hp & Hd & Hc & Hv & -> & ->).
  apply validateAppointmentTime_Returns in Hv as (_ & _ & Hdur).
  rewrite elem_of_app, list_elem_of_singleton. intros [?| ->]; [by left|].
  right. by cbn.
Qed.

Lemma bookAll_uniform patients staff tz dur requests :
  Forall (λ r, new_duration r.2 = dur) requests →
  ∀ db,
    overlapFree db → Forall (λ b, 0 < duration b ≤ dur) db →
    overlapFree (bookAll patients staff tz requests db)
    ∧ Forall (λ b, 0 < duration b ≤ dur)
        (bookAll patients staff tz requests db).
Proof.
  unfold bookAll.
  induction 1 as [|r requests Hr Hrs IH]; intros db Hfree Hdur; [done|].
  cbn [foldl]. apply IH.
  - apply booking_step; [done|]. intros b Hb _ _. rewrite Hr.
    rewrite Forall_forall in Hdur. by apply Hdur.
  - rewrite Forall_forall in *. intros b Hb.
    apply book_durations in Hb as [Hb|(Hb & Hb' & _)]; [by apply Hdur|].
    rewrite Hb in *. rewrite Hr in *. lia.
Qed.

(** X17.  With one appointment length there is no double booking: after
    any sequence of requests that all ask for the same duration, served at
    any times and stored or refused as [createAppointment] decides, no two
    active appointments of a doctor overlap. *)
Theorem equal_length_bookings_never_overlap patients staff tz dur requests :
  Forall (λ r, new_duration r.2 = dur) requests →
  overlapFree (bookAll patients staff tz requests []).
Proof.
  intros Hdur.
  apply (bookAll_uniform patients staff tz dur requests Hdur []).
  - by intros i j a b Hi.
  - constructor.
Qed.

(** The theorem at work: two half-hour requests for doctor 5, the second
    inside the first. *)
Lemma equal_length_bookings_never_overlap_witness :
  overlapFree
    (bookAll [7%nat] [Queue.mkStaff 5 Queue.doctor_role true] 0
       [(at_ 8 0, mkCreateAppointmentData 7 5 (at_ 10 0) 30);
        (at_ 8 0, mkCreateAppointmentData 7 5 (at_ 10 15) 30)] []).
Proof.
  apply (equal_length_bookings_never_overlap [7%nat]
           [Queue.mkStaff 5 Queue.doctor_role true] 0 30).
  repeat constructor.
Defined.

(** ** Booking a suggested slot *)

(** X18.  A start time that the slot search suggests can be booked: for a
    known patient and an active doctor, a duration of 15 to 120 minutes
    and a request served at least an hour before the slot and before the
    calendar changes, [createAppointment] stores the appointment at that
    time. *)
Theorem suggested_slot_can_be_booked tz clock db fuel patients staff now
    patientId doctorId preferredTime dur n res n' s :
  findNextAvailableSlots tz clock db fuel doctorId preferredTime dur n
    = Some (res, n') →
  s ∈ res →
  patientId ∈ patients →
  is_Some (Queue.findActiveDoctor doctorId staff) →
  now + MS_PER_HOUR ≤ s → 15 ≤ dur ≤ 120 →
  ∃ a,
    createAppointment patients staff tz now
      (mkCreateAppointmentData patientId doctorId s dur) db
    = Returns (db ++ [a], a)
    ∧ patient a = patientId ∧ doctor a = doctorId
    ∧ scheduledTime a = s ∧ duration a = dur ∧ status a = scheduled.
Proof.
  intros (_ & _ & Hall)%SlotSearchProps.findNextAvailableSlots_business_hours
    Hs Hp Hd Hahead Hdur.
  rewrite Forall_forall in Hall.
  destruct (Hall s Hs) as (Hh & _ & _ & _ & Hfree).
  exists (mkAppointment (newAppointmentId db) patientId doctorId s dur scheduled).
  split; [|by repeat split].
  apply createAppointment_Returns. cbn.
  repeat split; try done.
  by apply validateAppointmentTime_Returns.
Qed.

(** The theorem at work: the empty calendar at 7:30, booking the first
    suggestion, 9:00. *)
Lemma suggested_slot_can_be_booked_witness :
  ∃ a,
    createAppointment [7%nat] [Queue.mkStaff 5 Queue.doctor_role true] 0
      (at_ 7 30) (mkCreateAppointmentData 7 5 (at_ 9 0) 30) []
    = Returns ([] ++ [a], a)
    ∧ patient a = 7%nat ∧ doctor a = 5%nat
    ∧ scheduledTime a = at_ 9 0 ∧ duration a = 30 ∧ status a = scheduled.
Proof.
  apply (suggested_slot_can_be_booked 0 (frozenAt (at_ 7 30)) [] 1 [7%nat]
           [Queue.mkStaff 5 Queue.doctor_role true] (at_ 7 30) 7 5
           (at_ 10 15) 30 0%nat [at_ 9 0; at_ 9 30; at_ 10 0] 3%nat (at_ 9 0)).
  - by vm_compute.
  - by left.
  - by left.
  - by eexists.
  - by vm_compute.
  - lia.
Defined.

(** ** getAppointments *)

Lemma getAppointments_page filters page limit db :
  (0 < page)%nat →
  getAppointments filters page (S limit) db
  = Returns
      (mkAppointmentPage
         (take (S limit)
            (drop ((page - 1) * S limit)
               (merge_sort byScheduledTime
                  (filter (matchesFilter filters) db))))
         (length (filter (matchesFilter filters) db)) page
         (ceilDiv (length (filter (matchesFilter filters) db)) (S limit))).
Proof.
  intros Hp. unfold getAppointments. cbv zeta.
  rewrite decide_False by nia.
  by replace (Z.to_nat ((Z.of_nat page - 1) * Z.of_nat (S limit)))
    with ((page - 1) * S limit)%nat by nia.
Qed.

Lemma pageOf_chunk filters limit db page :
  (0 < page)%nat →
  pageOf filters (S limit) db page
  = take (S limit)
      (drop ((page - 1) * S limit)
         (merge_sort byScheduledTime (filter (matchesFilter filters) db))).
Proof.
  intros Hp. unfold pageOf. by rewrite getAppointments_page.
Qed.

Lemma pageOf_chunks filters limit db count :
  pageOf filters (S limit) db <$> seq 1 count
  = (λ page,
       take (S limit)
         (drop ((page - 1) * S limit)
            (merge_sort byScheduledTime
               (filter (matchesFilter filters) db)))) <$> seq 1 count.
Proof.
  apply list_eq. intros i. rewrite !list_lookup_fmap.
  destruct (seq 1 count !! i) as [page|] eqn:E; [|done]. cbn.
  apply lookup_seq in E as [-> _]. by rewrite pageOf_chunk by lia.
Qed.

Lemma join_chunks {A} (l : list A) limit k :
  mjoin ((λ page, take limit (drop ((page - 1) * limit) l)) <$> seq 1 k)
  = take (k * limit) l.
Proof.
  induction k as [|k IH]; [done|].
  rewrite seq_S, fmap_app, join_app, IH. cbn [fmap list_fmap mjoin list_join].
  rewrite app_nil_r.
  replace (1 + k - 1)%nat with k by lia.
  by rewrite take_take_drop, Nat.add_comm.
Qed.

Lemma ceilDiv_covers total limit :
  ∃ count,
    ceilDiv total (S limit) = Pages count
    ∧ (total ≤ count * S limit)%nat
    ∧ (count * S limit < total + S limit)%nat.
Proof.
  eexists. split; [reflexivity|].
  pose proof (Nat.div_mod_eq (total + S limit - 1) (S limit)) as Hdm.
  pose proof (Nat.mod_upper_bound (total + S limit - 1) (S limit)) as Hub.
  nia.
Qed.

(** When no two of the matching appointments start at the same time,
    the order of the sort is determined: whatever arrangement in order
    of start time the database returns for a page request, it is the one
    of the model. *)
Lemma sort_byScheduledTime_unique (l res : list IAppointment) :
  NoDup (scheduledTime <$> l) →
  res ≡ₚ l → StronglySorted byScheduledTime res →
  res = merge_sort byScheduledTime l.
Proof.
  intros Hnd Hp Hs.
  apply (QueueModelProps.sortedBy_unique_on byScheduledTime); [|done|..].
  - intros a b Ha Hb Hab Hba. rewrite Hp in Ha, Hb.
    apply (QueueModelProps.NoDup_fmap_elem_of _ _ _ _ Hnd Ha Hb).
    unfold byScheduledTime in *. lia.
  - apply DateRangeProps.merge_sort_byScheduledTime.
  - by rewrite Hp, merge_sort_Permutation.
Qed.

(** X19.  [getAppointments] pages through the matching appointments in the
    order of their start times.  When no two matching appointments start
    at the same time, that order is the same for every page request, and
    with a positive limit: page 0 is refused by the negative skip, every
    page from 1 on is answered with at most [limit] appointments and the
    count of all that match, and the pages 1 to [pages] laid end to end
    are exactly the matching appointments, sorted, each once; pages after
    the last are empty. *)
Theorem getAppointments_pages_partition filters limit db :
  let matching := filter (matchesFilter filters) db in
  let sorted := merge_sort byScheduledTime matching in
  (0 < limit)%nat →
  NoDup (scheduledTime <$> matching) →
  (∀ res, res ≡ₚ matching → StronglySorted byScheduledTime res →
          res = sorted)
  ∧ getAppointments filters 0 limit db = Throws NegativeSkip
  ∧ (∀ page, (0 < page)%nat →
       ∃ r, getAppointments filters page limit db = Returns r
            ∧ appointments r = take limit (drop ((page - 1) * limit) sorted)
            ∧ (length (appointments r) ≤ limit)%nat
            ∧ total r = length sorted)
  ∧ (∃ count,
       ceilDiv (length sorted) limit = Pages count
       ∧ mjoin (pageOf filters limit db <$> seq 1 count) = sorted
       ∧ ∀ page, (count < page)%nat → pageOf filters limit db page = [])
  ∧ sorted ≡ₚ matching
  ∧ StronglySorted byScheduledTime sorted.
Proof.
  cbv zeta. intros Hl Hties. destruct limit as [|limit]; [lia|].
  assert (length (merge_sort byScheduledTime
                    (filter (matchesFilter filters) db))
          = length (filter (matchesFilter filters) db)) as Hlen
    by (by rewrite merge_sort_Permutation).
  split; [|split; [|split; [|split; [|split]]]].
  - intros res. by apply sort_byScheduledTime_unique.
  - unfold getAppointments. cbv zeta. by rewrite decide_True by lia.
  - intros page Hp. eexists. split; [by apply getAppointments_page|].
    cbn. split; [done|]. split; [|done]. rewrite length_take. lia.
  - rewrite Hlen.
    destruct (ceilDiv_covers (length (filter (matchesFilter filters) db))
                limit) as (count & -> & Hlo & Hhi).
    exists count. split; [done|]. split.
    + rewrite (pageOf_chunks filters limit db count), join_chunks.
      apply take_ge. lia.
    + intros page Hp. rewrite pageOf_chunk by lia.
      rewrite drop_ge; [done|]. nia.
  - apply merge_sort_Permutation.
  - apply DateRangeProps.merge_sort_byScheduledTime.
Qed.

(** The theorem at work: pages of two over a calendar of one. *)
Lemma getAppointments_pages_partition_witness :
  getAppointments (mkFilters None None None None None) 0 2 [tenToHalfPast]
  = Throws NegativeSkip
  ∧ ∃ count,
      ceilDiv 1 2 = Pages count
      ∧ mjoin (pageOf (mkFilters None None None None None) 2 [tenToHalfPast]
                 <$> seq 1 count)
        = [tenToHalfPast].
Proof.
  destruct (getAppointments_pages_partition
              (mkFilters None None None None None) 2 [tenToHalfPast])
    as (_ & H & _ & (count & Hc & Hj & _) & _);
    [lia | apply (bool_decide_unpack _); by vm_compute |].
  split; [exact H|]. exists count. split; [exact Hc | exact Hj].
Defined.

End AppointmentServiceProps.
